(** * doptions: a shallow embedding of the parsing/dispatch core

    The development follows the headers of the library:
    - [utils.hpp]       : [StringUtils], [NumberUtils]
    - [exceptions.hpp]  : [ParseException], [BuildException]
    - [validations.hpp] : [NameValidationConfig], [NameValidations]
    - [option.hpp]      : [fromStr], [Option]
    - [command.hpp]     : [Command]
    - [application.hpp] : [Application]

    Target variables and [executed] flags are caller-owned storage reached
    through typed pointers; they live in one shared store so that aliasing
    between registrations is expressible.  Exceptions do not roll the store
    back: every effectful function returns the store it reached together
    with either its result or the exception it threw. *)

From Stdlib Require Import ZArith Ascii String DecimalString DecimalPos.
From stdpp Require Import gmap strings list sorting.

(** ** Characters ([<cctype>], "C" locale) *)

Module CType.
Local Open Scope Z_scope.

Definition code (c : ascii) : Z := Z.of_N (N_of_ascii c).

Definition isspace (c : ascii) : bool :=
  (code c =? 32) || ((9 <=? code c) && (code c <=? 13)).

Definition isdigit (c : ascii) : bool :=
  (48 <=? code c) && (code c <=? 57).

Definition isalpha (c : ascii) : bool :=
  ((65 <=? code c) && (code c <=? 90)) || ((97 <=? code c) && (code c <=? 122)).

Definition isalnum (c : ascii) : bool := isalpha c || isdigit c.

End CType.

(** ** Exceptions ([exceptions.hpp] and the standard ones that escape) *)

Inductive exn : Type :=
| ParseException (what : string)
| BuildException (what : string)
| StdInvalidArgument (what : string)
| StdOutOfRange (what : string)
| StdLengthError (what : string).

(** [result A] is the outcome of a call that either returns or throws. *)
Definition result (A : Type) : Type := exn + A.
Abbreviation Ok := (@inr exn _).
Abbreviation Throw := (@inl exn _).

#[global] Instance result_ret : MRet result := λ A a, Ok a.
#[global] Instance result_bind : MBind result := λ A B f r,
  match r with
  | inr a => f a
  | inl e => inl e
  end.
#[global] Instance result_fmap : FMap result := λ A B f r,
  match r with
  | inr a => inr (f a)
  | inl e => inl e
  end.

(** ** Integer types and their limits ([utils.hpp]) *)

Inductive IntTy : Type :=
| Int8 | Int16 | Int32 | Int64
| UInt8 | UInt16 | UInt32 | UInt64.

Definition IsSignedInteger (T : IntTy) : bool :=
  match T with
  | Int8 | Int16 | Int32 | Int64 => true
  | _ => false
  end.

Module NumberUtils.
Local Open Scope Z_scope.

(** [std::numeric_limits<T>::min()] and [max()]. *)
Definition getLimits (T : IntTy) : Z * Z :=
  match T with
  | Int8 => (-128, 127)
  | Int16 => (-32768, 32767)
  | Int32 => (-2147483648, 2147483647)
  | Int64 => (-9223372036854775808, 9223372036854775807)
  | UInt8 => (0, 255)
  | UInt16 => (0, 65535)
  | UInt32 => (0, 4294967295)
  | UInt64 => (0, 18446744073709551615)
  end.

(** [std::to_string] on an integer: decimal digits, a leading minus sign
    for negative values. *)
Definition toString (val : Z) : string :=
  NilZero.string_of_int (Z.to_int val).

End NumberUtils.

(** Conversion of a 64-bit signed value to [uint64_t]. *)
Definition to_uint64 (v : Z) : Z := (v mod 2 ^ 64)%Z.

(** ** [ParseException] and [BuildException] factories *)

Module ParseExceptions.

Definition mk (str : string) : exn :=
  ParseException ("Parse Exception: " +:+ str).

Definition unknownArg (arg : string) : exn :=
  mk ("Unknown argument: " +:+ arg).

Definition insufficientValues (arg : string) : exn :=
  mk ("Insufficient values for arg: " +:+ arg).

Definition multiArg (arg : string) : exn :=
  mk ("Same argument appears multiple times: " +:+ arg).

(** Both overloads take their argument as an unsigned 64-bit integer
    ([size_t] for the unsigned types, [uint64_t] for the signed ones), so
    the value handed over by [fromStr] is converted on the way in. *)
Definition outOfRange (T : IntTy) (value : Z) : exn :=
  let val := to_uint64 value in
  let '(min, max) := NumberUtils.getLimits T in
  let minStr := NumberUtils.toString min in
  let maxStr := NumberUtils.toString max in
  let valStr := NumberUtils.toString val in
  mk ("Value out of range: " +:+ valStr +:+ " (" +:+ minStr +:+
      " - " +:+ maxStr +:+ ")").

End ParseExceptions.

Module BuildExceptions.

Definition mk (str : string) : exn :=
  BuildException ("Build Exception: " +:+ str).

Definition invalidName (name : string) : exn :=
  mk ("Invalid name for argument: " +:+ name).

Definition emptyName (name : string) : exn :=
  mk ("Name cannot be empty: " +:+ name).

Definition invalidSize (name : string) (min max : nat) (isShort : bool) : exn :=
  let size := NumberUtils.toString (Z.of_nat (String.length name)) in
  let msg := (if isShort then " [short: " else " [long: ") +:+
             NumberUtils.toString (Z.of_nat min) +:+ "-" +:+
             NumberUtils.toString (Z.of_nat max) +:+ "]" in
  mk ("Name has invalid size: " +:+ name +:+ " (" +:+ size +:+ ")" +:+ msg).

End BuildExceptions.

(** ** [std::stoll] and [std::stoull] (base 10)

    These are the standard library's: leading white space is skipped, an
    optional sign is read, then the longest run of decimal digits; trailing
    characters are ignored.  No digit at all is [std::invalid_argument], a
    magnitude the 64-bit result type cannot hold is [std::out_of_range].
    [std::stoull] accepts a minus sign and negates in unsigned arithmetic. *)

Module StdString.
Local Open Scope Z_scope.

Fixpoint skip_space (s : string) : string :=
  match s with
  | String c r => if CType.isspace c then skip_space r else s
  | EmptyString => s
  end.

Definition read_sign (s : string) : bool * string :=
  match s with
  | String "-" r => (true, r)
  | String "+" r => (false, r)
  | _ => (false, s)
  end.

(** Accumulates the digit run; the flag records that a digit was seen. *)
Fixpoint read_digits (s : string) (acc : Z) (seen : bool) : Z * bool :=
  match s with
  | String c r =>
      if CType.isdigit c
      then read_digits r (10 * acc + (CType.code c - 48)) true
      else (acc, seen)
  | EmptyString => (acc, seen)
  end.

Definition read_number (str : string) : option (bool * Z) :=
  let '(neg, body) := read_sign (skip_space str) in
  let '(magnitude, seen) := read_digits body 0 false in
  if seen then Some (neg, magnitude) else None.

Definition stoll (str : string) : result Z :=
  match read_number str with
  | None => Throw (StdInvalidArgument "stoll")
  | Some (neg, magnitude) =>
      let value := if neg then - magnitude else magnitude in
      if (value <? - 2 ^ 63) || (2 ^ 63 - 1 <? value)
      then Throw (StdOutOfRange "stoll")
      else Ok value
  end.

Definition stoull (str : string) : result Z :=
  match read_number str with
  | None => Throw (StdInvalidArgument "stoull")
  | Some (neg, magnitude) =>
      if 2 ^ 64 - 1 <? magnitude
      then Throw (StdOutOfRange "stoull")
      else Ok (if neg then (- magnitude) mod 2 ^ 64 else magnitude)
  end.

End StdString.

(** ** Typed storage

    A pointer [V*] is a type tag and an address; pointers of different
    target types never alias.  [float] and [double] values are kept as
    their bit patterns, values of user-registered types as the encoding the
    registered converter produced. *)

Inductive Ty : Type :=
| TInt (T : IntTy)
| TBool
| TFloat
| TDouble
| TString
| TUser (id : nat).

Inductive val : Type :=
| VInt (z : Z)
| VBool (b : bool)
| VFloat (bits : Z)
| VDouble (bits : Z)
| VString (s : string)
| VUser (id : nat) (enc : string).

#[global] Instance IntTy_eq_dec : EqDecision IntTy.
Proof. solve_decision. Defined.

#[global] Instance Ty_eq_dec : EqDecision Ty.
Proof. solve_decision. Defined.

Definition Ty_code (V : Ty) : nat :=
  match V with
  | TInt Int8 => 0 | TInt Int16 => 1 | TInt Int32 => 2 | TInt Int64 => 3
  | TInt UInt8 => 4 | TInt UInt16 => 5 | TInt UInt32 => 6 | TInt UInt64 => 7
  | TBool => 8 | TFloat => 9 | TDouble => 10 | TString => 11
  | TUser id => 12 + id
  end.

Definition Ty_of_code (n : nat) : Ty :=
  match n with
  | 0 => TInt Int8 | 1 => TInt Int16 | 2 => TInt Int32 | 3 => TInt Int64
  | 4 => TInt UInt8 | 5 => TInt UInt16 | 6 => TInt UInt32 | 7 => TInt UInt64
  | 8 => TBool | 9 => TFloat | 10 => TDouble | 11 => TString
  | S (S (S (S (S (S (S (S (S (S (S (S id))))))))))) => TUser id
  end.

#[global] Instance Ty_countable : Countable Ty.
Proof.
  refine (inj_countable' Ty_code Ty_of_code _).
  intros [[]| | | | |id]; reflexivity.
Defined.

(** A location: the pointee type and the address. *)
Abbreviation loc := (Ty * nat)%type.

Abbreviation store := (gmap loc val).

(** Effectful calls thread the store; a throw keeps the store reached. *)
Definition M (A : Type) : Type := store → result A * store.

#[global] Instance M_ret : MRet M := λ A a st, (Ok a, st).
#[global] Instance M_bind : MBind M := λ A B f m st,
  match m st with
  | (inr a, st') => f a st'
  | (inl e, st') => (inl e, st')
  end.

Definition throw {A : Type} (e : exn) : M A := λ st, (Throw e, st).
Definition lift {A : Type} (r : result A) : M A := λ st, (r, st).
Definition assign (p : loc) (v : val) : M unit := λ st, (Ok tt, <[p := v]> st).

(** ** The conversion registry ([option.hpp])

    [std::stof], [std::stod] and the converters registered through
    [REGISTER_TYPE] are outside the library; the development is
    parametric in them. *)

Class Registry : Type := {
  stof : string → result Z;
  stod : string → result Z;
  userFromStr : nat → string → result string
}.

Module Conversions.
Section with_registry.
Context `{Registry}.
Local Open Scope Z_scope.

Definition fromStr_signed (T : IntTy) (str : string) : result Z :=
  value ← StdString.stoll str;
  let '(min, max) := NumberUtils.getLimits T in
  if (value <? min) || (max <? value)
  then Throw (ParseExceptions.outOfRange T value)
  else Ok value.

Definition fromStr_unsigned (T : IntTy) (str : string) : result Z :=
  value ← StdString.stoull str;
  let '(min, max) := NumberUtils.getLimits T in
  if (value <? min) || (max <? value)
  then Throw (ParseExceptions.outOfRange T value)
  else Ok value.

Definition fromStr_bool (str : string) : bool := String.eqb str "true".

Definition fromStr (V : Ty) (str : string) : result val :=
  match V with
  | TInt T =>
      VInt <$> (if IsSignedInteger T then fromStr_signed T str
                else fromStr_unsigned T str)
  | TBool => Ok (VBool (fromStr_bool str))
  | TFloat => VFloat <$> stof str
  | TDouble => VDouble <$> stod str
  | TString => Ok (VString str)
  | TUser id => VUser id <$> userFromStr id str
  end.

End with_registry.
End Conversions.

(** ** [std::string_view] operations used by the library *)

Module StringView.

Definition empty (s : string) : bool :=
  match s with
  | EmptyString => true
  | String _ _ => false
  end.

Definition size (s : string) : nat := String.length s.

(** [s.find(ch)]: [None] stands for [npos]. *)
Fixpoint find (s : string) (ch : ascii) : option nat :=
  match s with
  | EmptyString => None
  | String c r => if Ascii.eqb c ch then Some 0 else S <$> find r ch
  end.

(** [s.substr(pos, count)] and [s.substr(pos)], for [pos <= size]. *)
Definition substr (s : string) (pos count : nat) : string :=
  String.substring pos count s.

Definition substr_from (s : string) (pos : nat) : string :=
  String.substring pos (size s - pos) s.

(** [s.at(0) == ch] on a non-empty view. *)
Definition front_is (s : string) (ch : ascii) : bool :=
  match s with
  | EmptyString => false
  | String c _ => Ascii.eqb c ch
  end.

Definition starts_with (s prefix : string) : bool := String.prefix prefix s.

End StringView.

(** ** [StringUtils::trim] ([utils.hpp]) *)

Module StringUtils.

(** First loop: [sIndex] stops at the first character that is not white
    space, or at [str.size()]. *)
Fixpoint trim_front (str : string) : nat :=
  match str with
  | EmptyString => 0
  | String c r => if CType.isspace c then S (trim_front r) else 0
  end.

Definition isspace_at (str : string) (i : nat) : bool :=
  match String.get i str with
  | Some c => CType.isspace c
  | None => false
  end.

(** Second loop: [eIndex] moves down while it is above [sIndex] and on
    white space. *)
Fixpoint trim_back (str : string) (sIndex eIndex : nat) : nat :=
  match eIndex with
  | 0 => 0
  | S e' =>
      if (sIndex <? eIndex)%nat && isspace_at str eIndex
      then trim_back str sIndex e'
      else eIndex
  end.

Definition trim (str : string) : string :=
  if StringView.empty str then str
  else
    let sIndex := trim_front str in
    if (sIndex =? StringView.size str)%nat then EmptyString
    else
      let eIndex := trim_back str sIndex (StringView.size str - 1) in
      StringView.substr str sIndex (eIndex - sIndex + 1).

End StringUtils.

(** ** Name validation ([validations.hpp])

    The policy is process-wide state written by [setConfig]; every
    validation reads the policy in force when it runs, which is passed
    explicitly here. *)

Record NameValidationConfig : Type := {
  shortNameLimit : nat;
  longNameLimit : nat;
  nameContainsDots : bool;
  nameContainsDashes : bool;
  nameContainsUnderscores : bool;
  reserverNames : list string
}.

Definition defaultShortLimit : nat := 3.
Definition defaultLongLimit : nat := 100.

Definition defualtConfig : NameValidationConfig := {|
  shortNameLimit := defaultShortLimit;
  longNameLimit := defaultLongLimit;
  nameContainsDots := false;
  nameContainsDashes := true;
  nameContainsUnderscores := true;
  reserverNames := []
|}.

Module NameValidations.
Section with_options.
Variable options : NameValidationConfig.

Definition validChar (ch : ascii) (first : bool) : bool :=
  if first then CType.isalpha ch
  else if CType.isalnum ch then true
  else if nameContainsDashes options && Ascii.eqb ch "-" then true
  else if nameContainsDots options && Ascii.eqb ch "." then true
  else if nameContainsUnderscores options && Ascii.eqb ch "_" then true
  else false.

(** The loop of [validateName] over the characters still to visit. *)
Fixpoint validateName_from (name rest : string) (first : bool) : result unit :=
  match rest with
  | EmptyString => Ok tt
  | String l rest' =>
      if first && negb (validChar l true)
      then Throw (BuildExceptions.invalidName name)
      else if negb (validChar l false)
      then Throw (BuildExceptions.invalidName name)
      else validateName_from name rest' false
  end.

Definition validateName (name : string) : result unit :=
  if StringView.empty name
  then Throw (BuildExceptions.emptyName "Argument name")
  else validateName_from name name true.

Definition validateSize (name : string) (isShort : bool) : result unit :=
  let size := StringView.size name in
  if isShort && ((shortNameLimit options <? size)%nat || (size =? 0)%nat)
  then Throw (BuildExceptions.invalidSize name 0 (shortNameLimit options) true)
  else if negb isShort &&
          ((size <=? shortNameLimit options)%nat || (size =? 0)%nat ||
           (longNameLimit options <? size)%nat)
  then Throw (BuildExceptions.invalidSize name (shortNameLimit options)
                (longNameLimit options) false)
  else Ok tt.

End with_options.
End NameValidations.

(** ** [Option<V>] ([option.hpp]) *)

Module Option.

(** [valueTy] and [value_] together are the [V*] the option is bound to. *)
Record t : Type := {
  needsValue_ : bool;
  shortName_ : string;
  longName_ : string;
  valueTy : Ty;
  value_ : nat
}.

Definition needsValue (opt : t) : bool := needsValue_ opt.
Definition shortName (opt : t) : string := shortName_ opt.
Definition longName (opt : t) : string := longName_ opt.
Definition target (opt : t) : loc := (valueTy opt, value_ opt).

(** The private [validateName]: splits the spec into its short and long
    halves (either may be empty in a single-name spec). *)
Definition validateName (options : NameValidationConfig) (name : string)
  : result (string * string) :=
  if StringView.empty name
  then Throw (BuildExceptions.emptyName "Argument Name")
  else
    let data := StringUtils.trim name in
    if StringView.empty data
    then Throw (BuildExceptions.emptyName "Argument Name")
    else
      match StringView.find data "," with
      | Some separator =>
          let shortName := StringView.substr data 0 separator in
          let longName := StringView.substr_from data (separator + 1) in
          let shortName := StringUtils.trim shortName in
          let longName := StringUtils.trim longName in
          if StringView.empty shortName
          then Throw (BuildExceptions.emptyName "Short Name")
          else if StringView.empty longName
          then Throw (BuildExceptions.emptyName "Long name")
          else
            let shortName :=
              if StringView.front_is shortName "-"
              then StringView.substr_from shortName 1 else shortName in
            let longName :=
              if StringView.starts_with longName "--"
              then StringView.substr_from longName 2 else longName in
            _ ← NameValidations.validateName options shortName;
            _ ← NameValidations.validateName options longName;
            _ ← NameValidations.validateSize options shortName true;
            _ ← NameValidations.validateSize options longName false;
            Ok (shortName, longName)
      | None =>
          let '(data, isShort) :=
            if StringView.starts_with data "--" && (3 <=? StringView.size data)%nat
            then (StringView.substr_from data 2, false)
            else if StringView.front_is data "-" && (2 <=? StringView.size data)%nat
            then (StringView.substr_from data 1, true)
            else (data, (StringView.size data <=? 3)%nat) in
          let data := StringUtils.trim data in
          _ ← NameValidations.validateSize options data isShort;
          _ ← NameValidations.validateName options data;
          if isShort then Ok (data, EmptyString) else Ok (EmptyString, data)
      end.

Definition createOption (options : NameValidationConfig) (V : Ty)
    (name : string) (var : nat) : result t :=
  '(shortName, longName) ← validateName options name;
  Ok {| shortName_ := if StringView.empty shortName then shortName
                      else "-" +:+ shortName;
        longName_ := if StringView.empty longName then longName
                     else "--" +:+ longName;
        valueTy := V;
        value_ := var;
        needsValue_ := if decide (V = TBool) then false else true |}.

Section with_registry.
Context `{Registry}.

Definition parseValue (opt : t) (str : string) : M unit :=
  valV ← lift (Conversions.fromStr (valueTy opt) str);
  assign (target opt) valV.

End with_registry.
End Option.

(** ** Name maps

    A [std::map<std::string, size_t>] is a finite map; iterating over it
    visits the entries in increasing key order. *)

Definition entries (m : gmap string nat) : list (string * nat) :=
  merge_sort (λ p q, String.le p.1 q.1) (map_to_list m).

(** The registration loop shared by [parseCommand] and [buildReconMaps]:
    option number [idx] claims its non-empty names. *)
Fixpoint registerNames (opts : list Option.t) (idx : nat)
    (nameMap : gmap string nat) : gmap string nat :=
  match opts with
  | [] => nameMap
  | opt :: opts' =>
      let sName := Option.shortName opt in
      let lName := Option.longName opt in
      let nameMap := if StringView.empty sName then nameMap
                     else <[sName := idx]> nameMap in
      let nameMap := if StringView.empty lName then nameMap
                     else <[lName := idx]> nameMap in
      registerNames opts' (S idx) nameMap
  end.

(** The alias list of a duplicate report: every name mapped to
    [targetIdx], each followed by a comma and a space. *)
Definition buildDuplicateArgNames (nameMap : gmap string nat)
    (targetIdx : nat) : string :=
  foldl (λ argNames entry,
           if decide (entry.2 = targetIdx)
           then (argNames +:+ entry.1) +:+ ", "
           else argNames)
        EmptyString (entries nameMap).

(** ** [Command] ([command.hpp]) *)

Module Command.

Record t : Type := {
  options_ : list Option.t;
  name_ : string
}.

Definition name (cmd : t) : string := name_ cmd.

Definition createCommand (options : NameValidationConfig) (name : string)
  : result t :=
  _ ← NameValidations.validateName options name;
  _ ← NameValidations.validateSize options name false;
  Ok {| options_ := []; name_ := name |}.

Definition addOption (options : NameValidationConfig) (V : Ty)
    (name : string) (var : nat) (cmd : t) : result t :=
  optPtr ← Option.createOption options V name var;
  Ok {| options_ := options_ cmd ++ [optPtr]; name_ := name_ cmd |}.

Section with_registry.
Context `{Registry}.

(** The walk of [parseCommand] over the arguments from [argsIndex] on;
    [args] is the part of the vector not yet visited. *)
Fixpoint parseCommand_from (opts : list Option.t)
    (nameMap : gmap string nat) (args : list string)
    (parsed : gset nat) {struct args} : M unit :=
  match args with
  | [] => mret tt
  | arg :: rest =>
      match nameMap !! arg with
      | None => throw (ParseExceptions.unknownArg arg)
      | Some argIdx =>
          if decide (argIdx ∈ parsed)
          then throw (ParseExceptions.multiArg
                        (buildDuplicateArgNames nameMap argIdx))
          else
            match opts !! argIdx with
            | None => throw (StdOutOfRange "vector::at")
            | Some opt =>
                if Option.needsValue opt then
                  match rest with
                  | [] => throw (ParseExceptions.insufficientValues arg)
                  | value :: rest' =>
                      _ ← Option.parseValue opt value;
                      parseCommand_from opts nameMap rest'
                        ({[argIdx]} ∪ parsed)
                  end
                else
                  _ ← Option.parseValue opt "true";
                  parseCommand_from opts nameMap rest ({[argIdx]} ∪ parsed)
            end
      end
  end.

Definition parseCommand (cmd : t) (args : list string) : M unit :=
  let nameMap := registerNames (options_ cmd) 0 ∅ in
  parseCommand_from (options_ cmd) nameMap args ∅.

End with_registry.
End Command.

(** ** [Application] ([application.hpp]) *)

Module Application.

(** Every command is paired with the [bool*] of its [executed] flag. *)
Record t : Type := {
  options_ : list Option.t;
  commands_ : list (Command.t * nat)
}.

Definition createApp : t := {| options_ := []; commands_ := [] |}.

Definition addOption (options : NameValidationConfig) (V : Ty)
    (name : string) (var : nat) (app : t) : result t :=
  optPtr ← Option.createOption options V name var;
  Ok {| options_ := options_ app ++ [optPtr]; commands_ := commands_ app |}.

Definition addCommand (options : NameValidationConfig) (name : string)
    (var : nat) (app : t) : result t :=
  cmdPtr ← Command.createCommand options name;
  Ok {| options_ := options_ app; commands_ := commands_ app ++ [(cmdPtr, var)] |}.

(** [commands_.at(cmdIdx).first->addOption(name, var)]: the call a program
    makes through the reference that [addCommand] returned. *)
Definition addCommandOption (options : NameValidationConfig) (cmdIdx : nat)
    (V : Ty) (name : string) (var : nat) (app : t) : result t :=
  match commands_ app !! cmdIdx with
  | None => Throw (StdOutOfRange "vector::at")
  | Some (cmdPtr, executed) =>
      cmdPtr ← Command.addOption options V name var cmdPtr;
      Ok {| options_ := options_ app;
            commands_ := <[cmdIdx := (cmdPtr, executed)]> (commands_ app) |}
  end.

(** [argv] holds [argc] strings; the first is the program name.
    With [argc = 0] the [reserve(argc - 1)] call asks for more than a
    vector can hold. *)
Definition buildArray (argv : list string) : result (list string) :=
  match argv with
  | [] => Throw (StdLengthError "vector::reserve")
  | _ :: vec => Ok vec
  end.

Fixpoint registerCommands (cmds : list (Command.t * nat)) (idx : nat)
    (commandMap : gmap string nat) : gmap string nat :=
  match cmds with
  | [] => commandMap
  | (cmd, _) :: cmds' =>
      registerCommands cmds' (S idx) (<[Command.name cmd := idx]> commandMap)
  end.

Definition buildReconMaps (app : t) : gmap string nat * gmap string nat :=
  (registerNames (options_ app) 0 ∅, registerCommands (commands_ app) 0 ∅).

(** The position reached when [idx] has moved over a value. *)
Definition skipValue (rest : list string) : list string :=
  match rest with
  | [] => rest
  | _ :: rest' => rest'
  end.

Section with_registry.
Context `{Registry}.

(** [cmdArgs] is the slice after the command token. *)
Definition processCommand (app : t) (cmdIdx : nat) (cmdArgs : list string)
  : M unit :=
  match commands_ app !! cmdIdx with
  | None => throw (StdOutOfRange "vector::at")
  | Some (cmdPtr, executed) =>
      _ ← Command.parseCommand cmdPtr cmdArgs;
      assign (TBool, executed) (VBool true)
  end.

(** [rest] holds the tokens after [arg].  The result tells whether [idx]
    was advanced over a value, and gives the updated [parsedOptions]. *)
Definition processOption (app : t) (rest : list string)
    (optionMap : gmap string nat) (optIdx : nat)
    (parsedOptions : gset nat) (arg : string) : M (bool * gset nat) :=
  if decide (optIdx ∈ parsedOptions)
  then throw (ParseExceptions.multiArg
                (buildDuplicateArgNames optionMap optIdx))
  else
    match options_ app !! optIdx with
    | None => throw (StdOutOfRange "vector::at")
    | Some opt =>
        if Option.needsValue opt then
          match rest with
          | [] => throw (ParseExceptions.insufficientValues arg)
          | value :: _ =>
              _ ← Option.parseValue opt value;
              mret (true, {[optIdx]} ∪ parsedOptions)
          end
        else
          _ ← Option.parseValue opt "true";
          mret (false, {[optIdx]} ∪ parsedOptions)
    end.

(** The loop of [parse] over the tokens from [idx] on. *)
Fixpoint parse_from (app : t) (optionMap commandMap : gmap string nat)
    (args : list string) (parsedOptions : gset nat) {struct args} : M unit :=
  match args with
  | [] => mret tt
  | arg :: rest =>
      match commandMap !! arg with
      | Some cmdIdx => processCommand app cmdIdx rest
      | None =>
          match optionMap !! arg with
          | Some optIdx =>
              '(moved, parsedOptions) ←
                processOption app rest optionMap optIdx parsedOptions arg;
              parse_from app optionMap commandMap
                (if moved : bool then skipValue rest else rest) parsedOptions
          | None => throw (ParseExceptions.unknownArg arg)
          end
      end
  end.

Definition parse (app : t) (argv : list string) : M unit :=
  args ← lift (buildArray argv);
  let '(optionMap, commandMap) := buildReconMaps app in
  parse_from app optionMap commandMap args ∅.

End with_registry.
End Application.

(** ** Vocabulary of the specification *)

(** "Policy-charset-valid": a letter or digit, or a separator the policy
    enables. *)
Definition policy_char (options : NameValidationConfig) (c : ascii) : bool :=
  CType.isalnum c
  || (nameContainsDashes options && Ascii.eqb c "-")
  || (nameContainsDots options && Ascii.eqb c ".")
  || (nameContainsUnderscores options && Ascii.eqb c "_").

(** "Alphabetic-first". *)
Definition alpha_first (name : string) : bool :=
  match name with
  | String c _ => CType.isalpha c
  | EmptyString => false
  end.

Fixpoint all_chars (P : ascii → bool) (s : string) : bool :=
  match s with
  | EmptyString => true
  | String c r => P c && all_chars P r
  end.

Definition policy_name (options : NameValidationConfig) (name : string) : Prop :=
  alpha_first name = true ∧ all_chars (policy_char options) name = true.

(** A call that ends by throwing. *)
Definition throws {A : Type} (r : result A) : Prop := ∃ e, r = Throw e.

Definition not_comma (c : ascii) : bool := negb (Ascii.eqb c ",").
Definition not_space (c : ascii) : bool := negb (CType.isspace c).

(** The string is empty or begins with something else than a digit. *)
Definition no_digit_front (s : string) : bool :=
  match s with
  | String c _ => negb (CType.isdigit c)
  | EmptyString => true
  end.

(** A name the policy accepts as a short name, and as a long name. *)
Definition valid_short (options : NameValidationConfig) (s : string) : Prop :=
  policy_name options s ∧ 1 ≤ String.length s ≤ shortNameLimit options.
Definition valid_long (options : NameValidationConfig) (l : string) : Prop :=
  policy_name options l
  ∧ shortNameLimit options < String.length l ≤ longNameLimit options.

(** [name] is one of the aliases of [opt]: its short or its long name,
    when present. *)
Definition names_of (opt : Option.t) (name : string) : Prop :=
  StringView.empty name = false
  ∧ (name = Option.shortName opt ∨ name = Option.longName opt).

(** Every alias of the option starts with a dash. *)
Definition dashed (opt : Option.t) : Prop :=
  ∀ name, names_of opt name → StringView.front_is name "-" = true.

(** The option names of an application start with a dash, its command
    names with a letter. *)
Definition wfNames (app : Application.t) : Prop :=
  Forall dashed (Application.options_ app)
  ∧ Forall (λ c, alpha_first (Command.name c.1) = true
                 ∧ Forall dashed (Command.options_ c.1))
      (Application.commands_ app).

(** ** The walk *)

Section walk_defs.
Context `{Registry}.

(** A point of a walk: the tokens not yet visited, the options already
    satisfied in this call, the store. *)
Definition config : Type := list string * gset nat * store.

(** One iteration that handles an option: the token at the head is no
    command name, resolves to an option not yet satisfied, and the
    conversion succeeds.  [parseCommand] walks with no command names. *)
Inductive Step (opts : list Option.t) (nameMap commandMap : gmap string nat)
  : config → config → Prop :=
| Step_value arg value rest parsed st idx opt valV :
    commandMap !! arg = None →
    nameMap !! arg = Some idx →
    idx ∉ parsed →
    opts !! idx = Some opt →
    Option.needsValue opt = true →
    Conversions.fromStr (Option.valueTy opt) value = Ok valV →
    Step opts nameMap commandMap
      (arg :: value :: rest, parsed, st)
      (rest, {[idx]} ∪ parsed, <[Option.target opt := valV]> st)
| Step_flag arg rest parsed st idx opt valV :
    commandMap !! arg = None →
    nameMap !! arg = Some idx →
    idx ∉ parsed →
    opts !! idx = Some opt →
    Option.needsValue opt = false →
    Conversions.fromStr (Option.valueTy opt) "true" = Ok valV →
    Step opts nameMap commandMap
      (arg :: rest, parsed, st)
      (rest, {[idx]} ∪ parsed, <[Option.target opt := valV]> st).

(** The walk has come from one point to another. *)
Definition Walk (opts : list Option.t) (nameMap commandMap : gmap string nat)
  : config → config → Prop :=
  rtc (Step opts nameMap commandMap).

(** Option [idx] is matched: the walk reads a token that resolves to it. *)
Definition matched (opts : list Option.t) (nameMap commandMap : gmap string nat)
    (start : config) (idx : nat) : Prop :=
  ∃ arg rest parsed st,
    Walk opts nameMap commandMap start (arg :: rest, parsed, st)
    ∧ commandMap !! arg = None ∧ nameMap !! arg = Some idx.

Definition optionMap (app : Application.t) : gmap string nat :=
  (Application.buildReconMaps app).1.
Definition commandMap (app : Application.t) : gmap string nat :=
  (Application.buildReconMaps app).2.
Definition nameMap (cmd : Command.t) : gmap string nat :=
  registerNames (Command.options_ cmd) 0 ∅.

(** The global walk of [parse] and the walk of [parseCommand]. *)
Definition AppWalk (app : Application.t) : config → config → Prop :=
  Walk (Application.options_ app) (optionMap app) (commandMap app).
Definition CmdWalk (cmd : Command.t) : config → config → Prop :=
  Walk (Command.options_ cmd) (nameMap cmd) ∅.

(** The global walk reads the token of command [cmdIdx] with [cmdArgs]
    after it. *)
Definition dispatched (app : Application.t) (start : config)
    (cmdIdx : nat) (cmdArgs : list string) (st : store) : Prop :=
  ∃ arg parsed,
    AppWalk app start (arg :: cmdArgs, parsed, st)
    ∧ commandMap app !! arg = Some cmdIdx.

(** Every location an option of the application or of one of its
    commands is bound to. *)
Definition optionTargets (app : Application.t) : list loc :=
  (Option.target <$> Application.options_ app)
  ++ mjoin ((λ c, Option.target <$> Command.options_ c.1)
            <$> Application.commands_ app).

(** What [createOption] establishes: exactly the [bool] options take no
    value. *)
Definition wfOption (opt : Option.t) : Prop :=
  Option.needsValue_ opt = (if decide (Option.valueTy opt = TBool) then false else true).
Definition wfCommand (cmd : Command.t) : Prop :=
  Forall wfOption (Command.options_ cmd).
Definition wfApp (app : Application.t) : Prop :=
  Forall wfOption (Application.options_ app)
  ∧ Forall (λ c, wfCommand c.1) (Application.commands_ app).

End walk_defs.

(** The applications a program can build: from [createApp] by successful
    [addOption], [addCommand] and command-level [addOption] calls, each
    under the policy in force at the time. *)
Inductive constructible : Application.t → Prop :=
| constructible_createApp : constructible Application.createApp
| constructible_addOption options V name var app app' :
    constructible app →
    Application.addOption options V name var app = Ok app' →
    constructible app'
| constructible_addCommand options name var app app' :
    constructible app →
    Application.addCommand options name var app = Ok app' →
    constructible app'
| constructible_addCommandOption options cmdIdx V name var app app' :
    constructible app →
    Application.addCommandOption options cmdIdx V name var app = Ok app' →
    constructible app'.

(** Every [bool] location holds what it held before, or [true]. *)
Definition flags_only_raised (st st' : store) : Prop :=
  ∀ n : nat,
    st' !! (TBool, n) = st !! (TBool, n) ∨ st' !! (TBool, n) = Some (VBool true).

(** A value a pointer to [V] can point to: a value of that type, an
    integer within the limits of its type. *)
Definition has_ty (V : Ty) (v : val) : Prop :=
  match V, v with
  | TInt T, VInt z =>
      ((NumberUtils.getLimits T).1 ≤ z ≤ (NumberUtils.getLimits T).2)%Z
  | TBool, VBool _ => True
  | TFloat, VFloat _ => True
  | TDouble, VDouble _ => True
  | TString, VString _ => True
  | TUser id, VUser id' _ => id = id'
  | _, _ => False
  end.

(** Every location holds a value of its type. *)
Definition store_typed (st : store) : Prop :=
  ∀ (V : Ty) (n : nat) (v : val), st !! (V, n) = Some v → has_ty V v.

(** ** Statements as the specification words them *)

Section spec_wording.
Context `{Registry}.

(** "The executed boolean is set to true if and only if that command's
    name was matched as a token during that parse call." *)
Definition executed_iff_name_matched (app : Application.t) (argv0 : string)
    (args : list string) (st : store) : Prop :=
  ∀ k cmd executed,
    Application.commands_ app !! k = Some (cmd, executed) →
    (Application.parse app (argv0 :: args) st).2 !! (TBool, executed)
    = Some (VBool true)
    ↔ ∃ rest parsed st1,
        AppWalk app (args, ∅, st) (Command.name cmd :: rest, parsed, st1).

(** "The first token equal to a registered command name ends global
    processing: every token after it is passed as the argument slice to
    that command's parseCommand." *)
Definition first_command_name_takes_rest (app : Application.t)
    (argv0 : string) (args : list string) (st : store) : Prop :=
  ∀ before name rest cmdIdx,
    args = before ++ name :: rest →
    commandMap app !! name = Some cmdIdx →
    (∀ arg, arg ∈ before → commandMap app !! arg = None) →
    ∃ st1, Application.parse app (argv0 :: args) st
           = Application.processCommand app cmdIdx rest st1.


(** "If a token resolves to a value-needing option and it is the last
    token of the sequence, the call raises InsufficientValuesError." *)
Definition last_value_option_insufficient (app : Application.t)
    (argv0 : string) (args : list string) (st : store) : Prop :=
  ∀ before arg idx opt,
    args = before ++ [arg] →
    optionMap app !! arg = Some idx →
    Application.options_ app !! idx = Some opt →
    Option.needsValue opt = true →
    ∃ st', Application.parse app (argv0 :: args) st
           = (Throw (ParseExceptions.insufficientValues arg), st').

(** "At most one registered command's executed flag becomes true in that
    call." *)
Definition at_most_one_flag_becomes_true (app : Application.t)
    (argv0 : string) (args : list string) (st : store) : Prop :=
  ∀ k k' cmd cmd' executed executed',
    Application.commands_ app !! k = Some (cmd, executed) →
    Application.commands_ app !! k' = Some (cmd', executed') →
    executed ≠ executed' →
    st !! (TBool, executed) = Some (VBool false) →
    st !! (TBool, executed') = Some (VBool false) →
    ¬ ((Application.parse app (argv0 :: args) st).2 !! (TBool, executed)
       = Some (VBool true)
       ∧ (Application.parse app (argv0 :: args) st).2 !! (TBool, executed')
         = Some (VBool true)).

(** "Any option not matched during a parse call retains its pre-parse
    value": for a global option, and for an option of a command. *)
Definition unmatched_options_keep_value (app : Application.t)
    (argv0 : string) (args : list string) (st : store) : Prop :=
  (∀ idx opt,
      Application.options_ app !! idx = Some opt →
      ¬ matched (Application.options_ app) (optionMap app) (commandMap app)
          (args, ∅, st) idx →
      (Application.parse app (argv0 :: args) st).2 !! Option.target opt
      = st !! Option.target opt)
  ∧ (∀ k cmd executed idx opt,
        Application.commands_ app !! k = Some (cmd, executed) →
        Command.options_ cmd !! idx = Some opt →
        ¬ (∃ cmdArgs st1,
              dispatched app (args, ∅, st) k cmdArgs st1
              ∧ matched (Command.options_ cmd) (nameMap cmd) ∅
                  (cmdArgs, ∅, st1) idx) →
        (Application.parse app (argv0 :: args) st).2 !! Option.target opt
        = st !! Option.target opt).

End spec_wording.

(** ** A worked example *)

Module Example.

(** No user types are registered and no floating-point option is used. *)
Definition registry : Registry := {|
  stof := λ _, Throw (StdInvalidArgument "stof");
  stod := λ _, Throw (StdInvalidArgument "stod");
  userFromStr := λ _ _, Throw (StdInvalidArgument "fromStr")
|}.

Definition number : Option.t := {|
  Option.needsValue_ := true;
  Option.shortName_ := "-n"; Option.longName_ := "--number";
  Option.valueTy := TInt Int32; Option.value_ := 0 |}.

Definition verbose : Option.t := {|
  Option.needsValue_ := false;
  Option.shortName_ := "-v"; Option.longName_ := "--verbose";
  Option.valueTy := TBool; Option.value_ := 0 |}.

Definition name : Option.t := {|
  Option.needsValue_ := true;
  Option.shortName_ := ""; Option.longName_ := "--name";
  Option.valueTy := TString; Option.value_ := 0 |}.

Definition port : Option.t := {|
  Option.needsValue_ := true;
  Option.shortName_ := "-p"; Option.longName_ := "--port";
  Option.valueTy := TInt UInt16; Option.value_ := 0 |}.

Definition build : Command.t := {|
  Command.options_ := [port]; Command.name_ := "build" |}.

(** Global options [-n,--number], [-v,--verbose] and [--name]; the
    command [build] with [-p,--port] and its flag at [bool] address 1. *)
Definition app : Application.t := {|
  Application.options_ := [number; verbose; name];
  Application.commands_ := [(build, 1)] |}.

(** The caller initialised the [executed] flag to [false]. *)
Definition st0 : store := {[ (TBool, 1) := VBool false ]}.

(** Two commands whose [--database-url] options are bound to the same
    string; the flags are at [bool] addresses 0 and 1. *)
Definition database_url : Option.t := {|
  Option.needsValue_ := true;
  Option.shortName_ := ""; Option.longName_ := "--database-url";
  Option.valueTy := TString; Option.value_ := 0 |}.

Definition migrate : Command.t := {|
  Command.options_ := [database_url]; Command.name_ := "migrate" |}.

Definition rollback : Command.t := {|
  Command.options_ := [database_url]; Command.name_ := "rollback" |}.

Definition dbtool : Application.t := {|
  Application.options_ := [];
  Application.commands_ := [(migrate, 0); (rollback, 1)] |}.

Definition dbtool_st0 : store :=
  <[(TBool, 0) := VBool false]>
    (<[(TBool, 1) := VBool false]> {[ (TString, 0) := VString "" ]}).

(** Two commands whose flags are also the targets of the [bool] options
    [-a] and [-b]. *)
Definition flag_a : Option.t := {|
  Option.needsValue_ := false;
  Option.shortName_ := "-a"; Option.longName_ := "";
  Option.valueTy := TBool; Option.value_ := 1 |}.

Definition flag_b : Option.t := {|
  Option.needsValue_ := false;
  Option.shortName_ := "-b"; Option.longName_ := "";
  Option.valueTy := TBool; Option.value_ := 2 |}.

Definition aliased : Application.t := {|
  Application.options_ := [flag_a; flag_b];
  Application.commands_ :=
    [({| Command.options_ := []; Command.name_ := "first" |}, 1);
     ({| Command.options_ := []; Command.name_ := "second" |}, 2)] |}.

Definition aliased_st0 : store :=
  <[(TBool, 1) := VBool false]> {[ (TBool, 2) := VBool false ]}.

End Example.

(** * Name validation *)

Section validation_facts.
Variable options : NameValidationConfig.

Lemma validChar_policy (c : ascii) :
  NameValidations.validChar options c false = policy_char options c.
Proof.
  unfold NameValidations.validChar, policy_char.
  destruct (CType.isalnum c); [reflexivity|].
  destruct (nameContainsDashes options && Ascii.eqb c "-"); [reflexivity|].
  destruct (nameContainsDots options && Ascii.eqb c "."); [reflexivity|].
  destruct (nameContainsUnderscores options && Ascii.eqb c "_"); reflexivity.
Qed.

Lemma isalpha_isalnum (c : ascii) : CType.isalpha c = true → CType.isalnum c = true.
Proof. unfold CType.isalnum. intros ->. reflexivity. Qed.

Lemma validateName_from_ok (name rest : string) :
  all_chars (policy_char options) rest = true →
  NameValidations.validateName_from options name rest false = Ok tt.
Proof.
  induction rest as [|c r IH]; [reflexivity|].
  cbn [all_chars NameValidations.validateName_from].
  intros [Hc Hr]%andb_prop.
  rewrite validChar_policy, Hc. simpl. apply IH, Hr.
Qed.

Lemma validateName_ok (name : string) :
  policy_name options name → NameValidations.validateName options name = Ok tt.
Proof.
  intros [Hfirst Hall]. destruct name as [|c r]; [discriminate|].
  cbn [alpha_first all_chars] in Hfirst, Hall.
  apply andb_prop in Hall as [Hc Hr].
  unfold NameValidations.validateName.
  cbn [StringView.empty NameValidations.validateName_from].
  rewrite validChar_policy, Hc.
  cbn [NameValidations.validChar]. rewrite Hfirst. simpl.
  apply validateName_from_ok, Hr.
Qed.

Lemma validateSize_short (name : string) :
  throws (NameValidations.validateSize options name true)
  ↔ (String.length name = 0 ∨ shortNameLimit options < String.length name).
Proof.
  unfold NameValidations.validateSize, StringView.size, throws. simpl.
  destruct (shortNameLimit options <? String.length name) eqn:Hlt; simpl.
  - apply Nat.ltb_lt in Hlt. split; [intros _; right; exact Hlt|eauto].
  - apply Nat.ltb_ge in Hlt.
    destruct (String.length name =? 0) eqn:Hz; simpl.
    + apply Nat.eqb_eq in Hz. split; [intros _; left; exact Hz|eauto].
    + apply Nat.eqb_neq in Hz. split; [intros [e He]; discriminate|lia].
Qed.

Lemma validateSize_long (name : string) :
  throws (NameValidations.validateSize options name false)
  ↔ (String.length name = 0 ∨ String.length name ≤ shortNameLimit options
     ∨ longNameLimit options < String.length name).
Proof.
  unfold NameValidations.validateSize, StringView.size, throws. simpl.
  destruct (String.length name <=? shortNameLimit options) eqn:Hle; simpl.
  - apply Nat.leb_le in Hle. split; [intros _; right; left; exact Hle|eauto].
  - apply Nat.leb_gt in Hle.
    destruct (String.length name =? 0) eqn:Hz; simpl.
    + apply Nat.eqb_eq in Hz. lia.
    + apply Nat.eqb_neq in Hz.
      destruct (longNameLimit options <? String.length name) eqn:Hlt; simpl.
      * apply Nat.ltb_lt in Hlt. split; [intros _; right; right; exact Hlt|eauto].
      * apply Nat.ltb_ge in Hlt. split; [intros [e He]; discriminate|lia].
Qed.

Lemma validateSize_returns (name : string) (isShort : bool) :
  ¬ throws (NameValidations.validateSize options name isShort) →
  NameValidations.validateSize options name isShort = Ok tt.
Proof.
  unfold throws. intros Hn.
  destruct (NameValidations.validateSize options name isShort) as [e|[]] eqn:E.
  - exfalso. apply Hn. exists e. reflexivity.
  - reflexivity.
Qed.

Lemma createCommand_throws_size (name : string) :
  throws (NameValidations.validateSize options name false) →
  throws (Command.createCommand options name).
Proof.
  intros [e He]. unfold Command.createCommand.
  destruct (NameValidations.validateName options name) as [e'|[]]; simpl.
  - exists e'. reflexivity.
  - rewrite He. exists e. reflexivity.
Qed.

End validation_facts.

(** C7. [validateSize] with [isShort = true] fails exactly on length 0 or a
    length above the short limit; with [isShort = false] exactly on length
    0, a length up to the short limit, or a length above the long limit.
    Under the default limits 3 and 100, [createCommand] therefore rejects
    every name of length at most 3 or above 100 and accepts every
    policy-valid name of length 4 to 100. *)
Theorem validateSize_createCommand_bounds
    (options : NameValidationConfig) (name : string) :
  (throws (NameValidations.validateSize options name true)
   ↔ (String.length name = 0 ∨ shortNameLimit options < String.length name))
  ∧ (throws (NameValidations.validateSize options name false)
     ↔ (String.length name = 0 ∨ String.length name ≤ shortNameLimit options
        ∨ longNameLimit options < String.length name))
  ∧ (shortNameLimit options = defaultShortLimit →
     longNameLimit options = defaultLongLimit →
     (String.length name ≤ 3 ∨ 100 < String.length name →
      throws (Command.createCommand options name))
     ∧ (policy_name options name → 4 ≤ String.length name ≤ 100 →
        Command.createCommand options name
        = Ok {| Command.options_ := []; Command.name_ := name |})).
Proof.
  split; [apply validateSize_short|].
  split; [apply validateSize_long|].
  intros Hs Hl. unfold defaultShortLimit in Hs. unfold defaultLongLimit in Hl.
  split.
  - intros Hlen. apply createCommand_throws_size, validateSize_long.
    rewrite Hs, Hl. lia.
  - intros Hname Hlen. unfold Command.createCommand.
    rewrite (validateName_ok _ _ Hname). simpl.
    rewrite validateSize_returns; [reflexivity|].
    rewrite validateSize_long, Hs, Hl. lia.
Qed.

Lemma validateSize_createCommand_bounds_witness :
  Command.createCommand defualtConfig "build"
  = Ok {| Command.options_ := []; Command.name_ := "build" |}.
Proof.
  apply (validateSize_createCommand_bounds defualtConfig "build").
  - reflexivity.
  - reflexivity.
  - split; reflexivity.
  - simpl. lia.
Defined.

(** * Conversions *)

Section conversion_facts.
Context `{Registry}.
Local Open Scope Z_scope.

(** C8. The [bool] converter returns [true] exactly on the string
    ["true"]; on every other string, ["false"] and the empty string
    included, it returns [false]; it never throws. *)
Theorem fromStr_bool_exact (str : string) :
  (Conversions.fromStr_bool str = true ↔ str = "true")
  ∧ Conversions.fromStr TBool str
    = Ok (VBool (if decide (str = "true") then true else false))
  ∧ Conversions.fromStr TBool "false" = Ok (VBool false)
  ∧ Conversions.fromStr TBool "" = Ok (VBool false)
  ∧ ¬ throws (Conversions.fromStr TBool str).
Proof.
  assert (Hiff : Conversions.fromStr_bool str = true ↔ str = "true")
    by apply String.eqb_eq.
  split; [exact Hiff|].
  split.
  - cbn [Conversions.fromStr]. do 2 f_equal.
    destruct (decide (str = "true")) as [Heq|Hne].
    + apply Hiff, Heq.
    + destruct (Conversions.fromStr_bool str) eqn:E; [|reflexivity].
      exfalso. apply Hne, Hiff. reflexivity.
  - split; [reflexivity|]. split; [reflexivity|].
    intros [e He]. discriminate He.
Qed.

(** How an integer conversion ends, in terms of the base parse. *)
Lemma fromStr_int_unfold (T : IntTy) (str : string) :
  Conversions.fromStr (TInt T) str
  = match (if IsSignedInteger T then StdString.stoll str
           else StdString.stoull str) with
    | inl e => Throw e
    | inr value =>
        if (value <? (NumberUtils.getLimits T).1)
           || ((NumberUtils.getLimits T).2 <? value)
        then Throw (ParseExceptions.outOfRange T value)
        else Ok (VInt value)
    end.
Proof.
  cbn [Conversions.fromStr].
  unfold Conversions.fromStr_signed, Conversions.fromStr_unsigned.
  destruct (IsSignedInteger T).
  - destruct (StdString.stoll str) as [e|value]; [reflexivity|].
    cbn. destruct (NumberUtils.getLimits T) as [min max]. cbn.
    destruct ((value <? min) || (max <? value)); reflexivity.
  - destruct (StdString.stoull str) as [e|value]; [reflexivity|].
    cbn. destruct (NumberUtils.getLimits T) as [min max]. cbn.
    destruct ((value <? min) || (max <? value)); reflexivity.
Qed.

(** The range error names the limits of [T]; the value it prints is the
    64-bit unsigned reading of the parsed value. *)
Lemma outOfRange_what (T : IntTy) (value : Z) :
  ParseExceptions.outOfRange T value
  = ParseException
      ("Parse Exception: Value out of range: "
       +:+ NumberUtils.toString (value mod 2 ^ 64)
       +:+ " (" +:+ NumberUtils.toString (NumberUtils.getLimits T).1
       +:+ " - " +:+ NumberUtils.toString (NumberUtils.getLimits T).2
       +:+ ")").
Proof.
  unfold ParseExceptions.outOfRange, to_uint64.
  destruct (NumberUtils.getLimits T) as [min max]. reflexivity.
Qed.

(** [std::to_string] followed by [std::stoll] gives the value back. *)
Lemma read_digits_acc (d : Decimal.uint) (p : positive) :
  StdString.read_digits (NilEmpty.string_of_uint d) (Z.pos p) true
  = (Z.pos (Pos.of_uint_acc d p), true).
Proof.
  revert p. induction d as [|d IH|d IH|d IH|d IH|d IH|d IH|d IH|d IH|d IH|d IH];
    intros p; [reflexivity|..];
    cbn [NilEmpty.string_of_uint StdString.read_digits Pos.of_uint_acc];
    (match goal with
     | |- context [CType.isdigit ?c] => change (CType.isdigit c) with true
     end);
    cbv iota; rewrite <- IH; f_equal;
    (match goal with
     | |- context [CType.code ?c] =>
         let n := eval vm_compute in (CType.code c) in
         change (CType.code c) with n
     end);
    lia.
Qed.

Lemma read_digits_zero (d : Decimal.uint) :
  StdString.read_digits (NilEmpty.string_of_uint d) 0 true
  = (Z.of_N (Pos.of_uint d), true).
Proof.
  induction d as [|d IH|d IH|d IH|d IH|d IH|d IH|d IH|d IH|d IH|d IH];
    [reflexivity|exact IH|..];
    cbn [NilEmpty.string_of_uint StdString.read_digits Pos.of_uint];
    (match goal with
     | |- context [CType.isdigit ?c] => change (CType.isdigit c) with true
     end);
    cbv iota; apply (read_digits_acc d).
Qed.

Lemma read_digits_uint (d : Decimal.uint) :
  d ≠ Decimal.Nil →
  StdString.read_digits (NilEmpty.string_of_uint d) 0 false
  = (Z.of_N (Pos.of_uint d), true).
Proof.
  intros Hd. rewrite <- read_digits_zero.
  destruct d; [contradiction|..]; reflexivity.
Qed.

Lemma read_sign_uint (d : Decimal.uint) :
  d ≠ Decimal.Nil →
  StdString.read_sign (StdString.skip_space (NilEmpty.string_of_uint d))
  = (false, NilEmpty.string_of_uint d).
Proof. intros Hd. destruct d; [contradiction|..]; reflexivity. Qed.

Lemma read_number_uint (d : Decimal.uint) :
  d ≠ Decimal.Nil →
  StdString.read_number (NilEmpty.string_of_uint d)
  = Some (false, Z.of_N (Pos.of_uint d))
  ∧ StdString.read_number (String "-" (NilEmpty.string_of_uint d))
    = Some (true, Z.of_N (Pos.of_uint d)).
Proof.
  intros Hd. unfold StdString.read_number.
  rewrite (read_sign_uint d Hd).
  change (StdString.read_sign (StdString.skip_space
            (String "-" (NilEmpty.string_of_uint d))))
    with (true, NilEmpty.string_of_uint d).
  cbv beta iota. rewrite (read_digits_uint d Hd). split; reflexivity.
Qed.

Lemma toString_pos (p : positive) :
  NumberUtils.toString (Z.pos p) = NilEmpty.string_of_uint (Pos.to_uint p)
  ∧ NumberUtils.toString (Z.neg p)
    = String "-" (NilEmpty.string_of_uint (Pos.to_uint p)).
Proof.
  pose proof (DecimalPos.Unsigned.to_uint_nonnil p) as Hnil.
  unfold NumberUtils.toString.
  cbn [Z.to_int NilZero.string_of_int]. unfold NilZero.string_of_uint.
  destruct (Pos.to_uint p); [contradiction|..]; split; reflexivity.
Qed.

Lemma read_number_toString (z : Z) :
  StdString.read_number (NumberUtils.toString z)
  = Some (bool_decide (z < 0), Z.abs z).
Proof.
  destruct z as [|p|p]; [reflexivity|..];
    pose proof (DecimalPos.Unsigned.to_uint_nonnil p) as Hnil;
    destruct (toString_pos p) as [Hpos Hneg];
    destruct (read_number_uint _ Hnil) as [Rpos Rneg];
    rewrite DecimalPos.Unsigned.of_to in Rpos, Rneg.
  - rewrite Hpos, Rpos. reflexivity.
  - rewrite Hneg, Rneg. reflexivity.
Qed.

Lemma stoll_toString (z : Z) :
  - 2 ^ 63 <= z <= 2 ^ 63 - 1 →
  StdString.stoll (NumberUtils.toString z) = Ok z.
Proof.
  intros Hz. unfold StdString.stoll. rewrite read_number_toString.
  assert (Hv : (if bool_decide (z < 0) then - Z.abs z else Z.abs z) = z).
  { case_bool_decide; lia. }
  rewrite Hv.
  destruct (z <? - 2 ^ 63) eqn:E1; [apply Z.ltb_lt in E1; lia|].
  destruct (2 ^ 63 - 1 <? z) eqn:E2; [apply Z.ltb_lt in E2; lia|].
  reflexivity.
Qed.

Lemma fromStr_int16_accepts (z : Z) :
  -32768 <= z <= 32767 →
  Conversions.fromStr (TInt Int16) (NumberUtils.toString z) = Ok (VInt z).
Proof.
  intros Hz. rewrite fromStr_int_unfold. cbn [IsSignedInteger].
  rewrite stoll_toString by lia.
  cbn [NumberUtils.getLimits fst snd].
  destruct (z <? -32768) eqn:E1; [apply Z.ltb_lt in E1; lia|].
  destruct (32767 <? z) eqn:E2; [apply Z.ltb_lt in E2; lia|].
  reflexivity.
Qed.

(** The range boundaries of [uint8_t] and [int16_t]. *)
Lemma fromStr_integer_boundaries :
  Conversions.fromStr (TInt UInt8) "0" = Ok (VInt 0)
  ∧ Conversions.fromStr (TInt UInt8) "255" = Ok (VInt 255)
  ∧ Conversions.fromStr (TInt UInt8) "256"
    = Throw (ParseExceptions.outOfRange UInt8 256)
  ∧ Conversions.fromStr (TInt UInt8) "-1"
    = Throw (ParseExceptions.outOfRange UInt8 18446744073709551615)
  ∧ (∀ z, -32768 <= z <= 32767 →
       Conversions.fromStr (TInt Int16) (NumberUtils.toString z) = Ok (VInt z))
  ∧ Conversions.fromStr (TInt Int16) "32768"
    = Throw (ParseExceptions.outOfRange Int16 32768)
  ∧ Conversions.fromStr (TInt Int16) "-32769"
    = Throw (ParseExceptions.outOfRange Int16 (-32769)).
Proof.
  repeat split; try reflexivity. apply fromStr_int16_accepts.
Qed.

(** C4. For ["-32769"] the base parse yields -32769 and the [int16_t]
    converter raises the range error with the limits -32768 and 32767,
    but the value the error carries is 18446744073709518847; likewise
    ["-129"] for [int8_t]. *)
Theorem fromStr_signed_underflow_payload :
  StdString.stoll "-32769" = Ok (-32769)
  ∧ Conversions.fromStr (TInt Int16) "-32769"
    = Throw (ParseException
        "Parse Exception: Value out of range: 18446744073709518847 (-32768 - 32767)")
  ∧ Conversions.fromStr (TInt Int8) "-129"
    = Throw (ParseException
        "Parse Exception: Value out of range: 18446744073709551487 (-128 - 127)")
  ∧ Conversions.fromStr (TInt Int16) "32768"
    = Throw (ParseException
        "Parse Exception: Value out of range: 32768 (-32768 - 32767)").
Proof. repeat split; reflexivity. Qed.

End conversion_facts.

(** * Strings: [trim], [find], [substr] *)

Section string_facts.

Lemma append_cons (x : ascii) (a b : string) :
  String x a +:+ b = String x (a +:+ b).
Proof. reflexivity. Qed.

Lemma length_append (a b : string) :
  String.length (a +:+ b) = String.length a + String.length b.
Proof.
  induction a as [|x a IH]; [reflexivity|].
  rewrite append_cons. cbn [String.length]. rewrite IH. reflexivity.
Qed.

Lemma append_assoc (a b c : string) : (a +:+ b) +:+ c = a +:+ (b +:+ c).
Proof.
  induction a as [|x a IH]; [reflexivity|].
  rewrite !append_cons, IH. reflexivity.
Qed.

Lemma append_empty_r (a : string) : a +:+ "" = a.
Proof.
  induction a as [|x a IH]; [reflexivity|].
  rewrite append_cons, IH. reflexivity.
Qed.

Lemma get_append_r (a b : string) (i : nat) :
  String.get (String.length a + i) (a +:+ b) = String.get i b.
Proof.
  induction a as [|x a IH]; [reflexivity|].
  rewrite append_cons. exact IH.
Qed.

Lemma get_append_l (a b : string) (i : nat) :
  i < String.length a → String.get i (a +:+ b) = String.get i a.
Proof.
  revert i. induction a as [|x a IH]; intros i Hi; [simpl in Hi; lia|].
  rewrite append_cons. destruct i as [|i]; [reflexivity|].
  cbn [String.get]. apply IH. simpl in Hi. lia.
Qed.

Lemma substring_full (s : string) : String.substring 0 (String.length s) s = s.
Proof.
  induction s as [|c s IH]; [reflexivity|].
  cbn [String.length String.substring]. rewrite IH. reflexivity.
Qed.

Lemma substring_prefix (a b : string) :
  String.substring 0 (String.length a) (a +:+ b) = a.
Proof.
  induction a as [|x a IH].
  - destruct b; reflexivity.
  - rewrite append_cons. cbn [String.length String.substring].
    rewrite IH. reflexivity.
Qed.

Lemma substring_skip (a b : string) (n : nat) :
  String.substring (String.length a) n (a +:+ b) = String.substring 0 n b.
Proof.
  induction a as [|x a IH]; [reflexivity|].
  rewrite append_cons. exact IH.
Qed.

Lemma substring_middle (a b c : string) :
  String.substring (String.length a) (String.length b) (a +:+ b +:+ c) = b.
Proof. rewrite substring_skip. apply substring_prefix. Qed.

Lemma all_chars_get (P : ascii → bool) (s : string) (i : nat) (c : ascii) :
  all_chars P s = true → String.get i s = Some c → P c = true.
Proof.
  revert i. induction s as [|x s IH]; simpl; intros i Hall Hget; [discriminate|].
  apply andb_prop in Hall as [Hx Hs].
  destruct i as [|i]; [congruence|]. eapply IH; eassumption.
Qed.

Lemma all_chars_append (P : ascii → bool) (a b : string) :
  all_chars P (a +:+ b) = (all_chars P a && all_chars P b)%bool.
Proof.
  induction a as [|x a IH]; [reflexivity|].
  rewrite append_cons. cbn [all_chars]. rewrite IH. apply andb_assoc.
Qed.

Lemma all_chars_impl (P Q : ascii → bool) (s : string) :
  (∀ c, P c = true → Q c = true) → all_chars P s = true → all_chars Q s = true.
Proof.
  intros HPQ. induction s as [|x s IH]; simpl; [reflexivity|].
  intros [Hx Hs]%andb_prop. rewrite (HPQ _ Hx), (IH Hs). reflexivity.
Qed.

(** *** [trim] *)

Lemma trim_front_padding (w core : string) :
  all_chars CType.isspace w = true →
  StringUtils.isspace_at core 0 = false →
  StringUtils.trim_front (w +:+ core) = String.length w.
Proof.
  intros Hw Hcore. induction w as [|x w IH].
  - destruct core as [|c r]; [reflexivity|].
    unfold StringUtils.isspace_at in Hcore. simpl in Hcore.
    change ("" +:+ String c r) with (String c r).
    cbn [StringUtils.trim_front]. rewrite Hcore. reflexivity.
  - cbn [all_chars] in Hw. apply andb_prop in Hw as [Hx Hw].
    rewrite append_cons. cbn [StringUtils.trim_front String.length].
    rewrite Hx, (IH Hw). reflexivity.
Qed.

Lemma trim_back_padding (s : string) (sIndex last : nat) (j : nat) :
  sIndex ≤ last →
  StringUtils.isspace_at s last = false →
  (∀ i, i < j → StringUtils.isspace_at s (last + 1 + i) = true) →
  StringUtils.trim_back s sIndex (last + j) = last.
Proof.
  intros Hle Hlast Hpad. induction j as [|j IH].
  - rewrite Nat.add_0_r. destruct last as [|e]; [reflexivity|].
    cbn [StringUtils.trim_back]. rewrite Hlast, andb_false_r. reflexivity.
  - replace (last + S j) with (S (last + j)) by lia.
    cbn [StringUtils.trim_back].
    replace (S (last + j)) with (last + 1 + j) by lia.
    rewrite (Hpad j) by lia.
    replace (sIndex <? last + 1 + j) with true
      by (symmetry; apply Nat.ltb_lt; lia).
    cbn [andb]. apply IH. intros i Hi. apply Hpad. lia.
Qed.

(** White space around a core that starts and ends with other
    characters is removed, and nothing else. *)
Lemma trim_padded (w1 core w2 : string) :
  all_chars CType.isspace w1 = true →
  all_chars CType.isspace w2 = true →
  StringUtils.isspace_at core 0 = false →
  StringUtils.isspace_at core (String.length core - 1) = false →
  core ≠ "" →
  StringUtils.trim (w1 +:+ core +:+ w2) = core.
Proof.
  intros Hw1 Hw2 Hfirst Hlast Hne.
  assert (Hk : 1 ≤ String.length core) by (destruct core; [congruence|simpl; lia]).
  set (s := w1 +:+ core +:+ w2).
  assert (Hlen : String.length s
                 = String.length w1 + (String.length core + String.length w2)).
  { unfold s. rewrite !length_append. reflexivity. }
  unfold StringUtils.trim, StringView.size.
  replace (StringView.empty s) with false
    by (destruct s; [simpl in Hlen; lia|reflexivity]).
  assert (Hfront : StringUtils.trim_front s = String.length w1).
  { unfold s. apply trim_front_padding; [exact Hw1|].
    unfold StringUtils.isspace_at in *.
    rewrite get_append_l by lia. exact Hfirst. }
  rewrite Hfront.
  replace (String.length w1 =? String.length s) with false
    by (symmetry; apply Nat.eqb_neq; lia).
  set (last := String.length w1 + (String.length core - 1)).
  assert (Hback : StringUtils.trim_back s (String.length w1)
                    (String.length s - 1) = last).
  { replace (String.length s - 1) with (last + String.length w2)
      by (unfold last; lia).
    apply trim_back_padding.
    - unfold last. lia.
    - unfold StringUtils.isspace_at, s, last in *.
      rewrite get_append_r, get_append_l by lia. exact Hlast.
    - intros i Hi. unfold StringUtils.isspace_at, s, last.
      replace (String.length w1 + (String.length core - 1) + 1 + i)
        with (String.length w1 + (String.length core + i)) by lia.
      rewrite !get_append_r.
      destruct (String.get i w2) as [c|] eqn:Hget.
      + eapply all_chars_get; eassumption.
      + exfalso. revert Hi Hget. clear. revert i.
        induction w2 as [|x w2 IH]; intros i Hi Hget; simpl in Hi; [lia|].
        destruct i as [|i]; [discriminate|]. apply (IH i); [lia|exact Hget]. }
  rewrite Hback. unfold StringView.substr, last.
  replace (String.length w1 + (String.length core - 1) - String.length w1 + 1)
    with (String.length core) by lia.
  apply substring_middle.
Qed.

End string_facts.

(** * Option creation *)

Section option_creation.
Variable options : NameValidationConfig.

Lemma policy_char_comma : policy_char options "," = false.
Proof.
  unfold policy_char.
  change (CType.isalnum ",") with false.
  change (Ascii.eqb "," "-") with false.
  change (Ascii.eqb "," ".") with false.
  change (Ascii.eqb "," "_") with false.
  rewrite !andb_false_r. reflexivity.
Qed.

Lemma policy_char_not_comma (c : ascii) :
  policy_char options c = true → not_comma c = true.
Proof.
  intros Hc. unfold not_comma. destruct (Ascii.eqb c ",") eqn:E; [|reflexivity].
  apply Ascii.eqb_eq in E. subst c. rewrite policy_char_comma in Hc. discriminate.
Qed.

Lemma isalnum_not_space (c : ascii) :
  CType.isalnum c = true → CType.isspace c = false.
Proof.
  unfold CType.isalnum, CType.isalpha, CType.isdigit, CType.isspace.
  generalize (CType.code c). intros n Hn.
  apply not_true_is_false. intros Hs.
  apply orb_prop in Hs as [Hs|Hs].
  - apply Z.eqb_eq in Hs. subst n. discriminate Hn.
  - apply andb_prop in Hs as [H1 H2].
    apply Z.leb_le in H1. apply Z.leb_le in H2.
    repeat match goal with
    | H : (_ || _)%bool = true |- _ => apply orb_prop in H as [H|H]
    | H : (_ && _)%bool = true |- _ =>
        let Ha := fresh in let Hb := fresh in
        apply andb_prop in H as [Ha Hb];
        apply Z.leb_le in Ha; apply Z.leb_le in Hb
    end; lia.
Qed.

Lemma policy_char_not_space (c : ascii) :
  policy_char options c = true → not_space c = true.
Proof.
  unfold policy_char, not_space. intros Hc.
  apply orb_prop in Hc as [Hc|Hc];
    [apply orb_prop in Hc as [Hc|Hc]; [apply orb_prop in Hc as [Hc|Hc]|]|].
  - rewrite (isalnum_not_space _ Hc). reflexivity.
  - apply andb_prop in Hc as [_ Hc]. apply Ascii.eqb_eq in Hc. subst c. reflexivity.
  - apply andb_prop in Hc as [_ Hc]. apply Ascii.eqb_eq in Hc. subst c. reflexivity.
  - apply andb_prop in Hc as [_ Hc]. apply Ascii.eqb_eq in Hc. subst c. reflexivity.
Qed.

Lemma isspace_not_comma (c : ascii) :
  CType.isspace c = true → not_comma c = true.
Proof.
  intros Hc. unfold not_comma. destruct (Ascii.eqb c ",") eqn:E; [|reflexivity].
  apply Ascii.eqb_eq in E. subst c. discriminate Hc.
Qed.

Lemma isspace_at_not_space (s : string) (i : nat) :
  all_chars not_space s = true → StringUtils.isspace_at s i = false.
Proof.
  intros Hs. unfold StringUtils.isspace_at.
  destruct (String.get i s) as [c|] eqn:Hget; [|reflexivity].
  pose proof (all_chars_get _ _ _ _ Hs Hget) as Hc.
  unfold not_space in Hc. apply negb_true_iff in Hc. exact Hc.
Qed.

Lemma find_separator (a b : string) :
  all_chars not_comma a = true →
  StringView.find (a +:+ String "," b) "," = Some (String.length a).
Proof.
  induction a as [|x a IH]; [reflexivity|].
  cbn [all_chars]. intros [Hx Ha]%andb_prop.
  rewrite append_cons. cbn [StringView.find String.length].
  unfold not_comma in Hx. apply negb_true_iff in Hx. rewrite Hx.
  rewrite (IH Ha). reflexivity.
Qed.

Lemma policy_name_nonempty (name : string) :
  policy_name options name → 1 ≤ String.length name.
Proof.
  intros [Hfirst _]. destruct name; [discriminate|]. simpl. lia.
Qed.

Lemma substr_from_cons (c : ascii) (s : string) :
  StringView.substr_from (String c s) 1 = s.
Proof.
  unfold StringView.substr_from, StringView.size.
  cbn [String.length String.substring Nat.sub].
  rewrite Nat.sub_0_r. apply substring_full.
Qed.

(** The two halves of a padded combined spec, as [Option::validateName]
    isolates them. *)
Lemma validateName_combined (s long w0 w1 w2 w3 : string) :
  shortNameLimit options = defaultShortLimit →
  longNameLimit options = defaultLongLimit →
  all_chars CType.isspace w0 = true → all_chars CType.isspace w1 = true →
  all_chars CType.isspace w2 = true → all_chars CType.isspace w3 = true →
  policy_name options s → String.length s ≤ 3 →
  policy_name options long → 4 ≤ String.length long ≤ 100 →
  Option.validateName options
    (w0 +:+ "-" +:+ s +:+ w1 +:+ "," +:+ w2 +:+ "--" +:+ long +:+ w3)
  = Ok (s, long).
Proof.
  intros HS HL Hw0 Hw1 Hw2 Hw3 Hs Hslen Hlong Hllen.
  unfold defaultShortLimit in HS. unfold defaultLongLimit in HL.
  pose proof (policy_name_nonempty _ Hs) as Hs1.
  destruct Hs as [Hsa Hsc]. destruct Hlong as [Hla Hlc].
  set (a := "-" +:+ s +:+ w1).
  set (b := w2 +:+ "--" +:+ long).
  set (data := a +:+ String "," b).
  assert (Hname : w0 +:+ "-" +:+ s +:+ w1 +:+ "," +:+ w2 +:+ "--" +:+ long +:+ w3
                  = w0 +:+ data +:+ w3).
  { unfold data, a, b. symmetry.
    rewrite !append_assoc.
    rewrite (append_cons "," (w2 +:+ "--" +:+ long) w3).
    rewrite !append_assoc. reflexivity. }
  rewrite Hname. clear Hname.
  assert (Hlong_ns : all_chars not_space long = true)
    by (eapply all_chars_impl; [apply policy_char_not_space|exact Hlc]).
  assert (Hs_ns : all_chars not_space s = true)
    by (eapply all_chars_impl; [apply policy_char_not_space|exact Hsc]).
  assert (Hdata_ne : data ≠ "") by (unfold data, a; discriminate).
  assert (Hdata_last :
            StringUtils.isspace_at data (String.length data - 1) = false).
  { unfold StringUtils.isspace_at.
    replace data with ((a +:+ String "," (w2 +:+ "--")) +:+ long).
    2:{ unfold data, b. rewrite !append_assoc, !append_cons.
        rewrite !append_assoc. reflexivity. }
    rewrite length_append.
    replace (String.length (a +:+ String "," (w2 +:+ "--"))
             + String.length long - 1)
      with (String.length (a +:+ String "," (w2 +:+ "--"))
            + (String.length long - 1)) by lia.
    rewrite get_append_r. apply (isspace_at_not_space long), Hlong_ns. }
  unfold Option.validateName.
  replace (StringView.empty (w0 +:+ data +:+ w3)) with false.
  2:{ destruct (w0 +:+ data +:+ w3) eqn:E; [|reflexivity].
      apply (f_equal String.length) in E. rewrite !length_append in E.
      unfold data, a in E. rewrite length_append in E. simpl in E. lia. }
  rewrite (trim_padded w0 data w3 Hw0 Hw3 eq_refl Hdata_last Hdata_ne).
  replace (StringView.empty data) with false by reflexivity.
  assert (Ha_nc : all_chars not_comma a = true).
  { unfold a. change ("-" +:+ s +:+ w1) with (String "-" (s +:+ w1)).
    cbn [all_chars]. rewrite all_chars_append.
    rewrite (all_chars_impl _ _ _ policy_char_not_comma Hsc).
    rewrite (all_chars_impl _ _ _ isspace_not_comma Hw1). reflexivity. }
  unfold data at 1. rewrite (find_separator a b Ha_nc).
  assert (Hshort : StringView.substr data 0 (String.length a) = a)
    by apply substring_prefix.
  assert (Hlongpart : StringView.substr_from data (String.length a + 1) = b).
  { unfold StringView.substr_from, StringView.size.
    replace data with ((a +:+ ",") +:+ b)
      by (unfold data; rewrite append_assoc; reflexivity).
    replace (String.length a + 1) with (String.length (a +:+ ","))
      by (rewrite length_append; reflexivity).
    rewrite substring_skip, length_append.
    replace (String.length (a +:+ ",") + String.length b
             - String.length (a +:+ ",")) with (String.length b) by lia.
    apply substring_full. }
  rewrite Hshort, Hlongpart.
  assert (Htrim_a : StringUtils.trim a = String "-" s).
  { apply (trim_padded "" (String "-" s) w1 eq_refl Hw1 eq_refl); [|discriminate].
    apply isspace_at_not_space. cbn [all_chars]. rewrite Hs_ns. reflexivity. }
  assert (Htrim_b : StringUtils.trim b = String "-" (String "-" long)).
  { unfold b. replace (w2 +:+ "--" +:+ long)
      with (w2 +:+ String "-" (String "-" long) +:+ "").
    2:{ f_equal. rewrite append_empty_r. reflexivity. }
    apply (trim_padded w2 (String "-" (String "-" long)) "" Hw2 eq_refl eq_refl);
      [|discriminate].
    apply isspace_at_not_space. cbn [all_chars]. rewrite Hlong_ns. reflexivity. }
  rewrite Htrim_a, Htrim_b.
  cbn [StringView.empty StringView.front_is].
  change (Ascii.eqb "-" "-") with true. cbv iota.
  replace (StringView.starts_with (String "-" (String "-" long)) "--") with true
    by (destruct long; reflexivity).
  cbv iota.
  rewrite substr_from_cons.
  replace (StringView.substr_from (String "-" (String "-" long)) 2) with long.
  2:{ unfold StringView.substr_from, StringView.size.
      cbn [String.length String.substring Nat.sub].
      rewrite Nat.sub_0_r. symmetry. apply substring_full. }
  rewrite (validateName_ok options s (conj Hsa Hsc)).
  rewrite (validateName_ok options long (conj Hla Hlc)).
  cbn [mbind result_bind].
  rewrite (validateSize_returns options s true)
    by (rewrite validateSize_short, HS; lia).
  rewrite (validateSize_returns options long false)
    by (rewrite validateSize_long, HS, HL; lia).
  reflexivity.
Qed.

(** C6. For a combined spec ["-s,--long"], with white space allowed
    around either half, whose short half [s] is alphabetic-first, at
    most 3 characters long and policy-charset-valid and whose long half
    is alphabetic-first, 4 to 100 characters long and
    policy-charset-valid, [createOption] succeeds and the option's
    [shortName()] is ["-" + s] and its [longName()] is ["--" + long]. *)
Theorem createOption_combined_spec
    (V : Ty) (var : nat) (s long w0 w1 w2 w3 : string) :
  shortNameLimit options = defaultShortLimit →
  longNameLimit options = defaultLongLimit →
  all_chars CType.isspace w0 = true → all_chars CType.isspace w1 = true →
  all_chars CType.isspace w2 = true → all_chars CType.isspace w3 = true →
  policy_name options s → String.length s ≤ 3 →
  policy_name options long → 4 ≤ String.length long ≤ 100 →
  ∃ opt,
    Option.createOption options V
      (w0 +:+ "-" +:+ s +:+ w1 +:+ "," +:+ w2 +:+ "--" +:+ long +:+ w3) var
    = Ok opt
    ∧ Option.shortName opt = "-" +:+ s
    ∧ Option.longName opt = "--" +:+ long
    ∧ Option.target opt = (V, var).
Proof.
  intros HS HL Hw0 Hw1 Hw2 Hw3 Hs Hslen Hlong Hllen.
  pose proof (policy_name_nonempty _ Hs) as Hs1.
  pose proof (policy_name_nonempty _ Hlong) as Hl1.
  unfold Option.createOption.
  rewrite (validateName_combined s long w0 w1 w2 w3) by assumption.
  cbn [mbind result_bind].
  eexists. split; [reflexivity|].
  unfold Option.shortName, Option.longName, Option.target.
  cbn [Option.shortName_ Option.longName_ Option.valueTy Option.value_].
  destruct s; [simpl in Hs1; lia|]. destruct long; [simpl in Hl1; lia|].
  repeat split; reflexivity.
Qed.

End option_creation.

Lemma createOption_combined_spec_witness :
  ∃ opt,
    Option.createOption defualtConfig (TInt Int32) " -n , --number  " 0 = Ok opt
    ∧ Option.shortName opt = "-n"
    ∧ Option.longName opt = "--number"
    ∧ Option.target opt = (TInt Int32, 0).
Proof.
  apply (createOption_combined_spec defualtConfig (TInt Int32) 0
           "n" "number" " " " " " " "  ");
    try reflexivity.
  - split; reflexivity.
  - simpl. lia.
  - split; reflexivity.
  - simpl. lia.
Defined.

(** * The walk *)

Section walk_facts.
Context `{Registry}.

Lemma parseValue_unfold (opt : Option.t) (str : string) (st : store) :
  Option.parseValue opt str st
  = match Conversions.fromStr (Option.valueTy opt) str with
    | inr valV => (Ok tt, <[Option.target opt := valV]> st)
    | inl e => (Throw e, st)
    end.
Proof.
  unfold Option.parseValue, lift, assign. cbn [mbind M_bind].
  destruct (Conversions.fromStr (Option.valueTy opt) str); reflexivity.
Qed.

(** *** The loop of [parseCommand], one iteration at a time *)

Lemma parseCommand_from_cons (opts : list Option.t) (names : gmap string nat)
    (arg : string) (rest : list string) (parsed : gset nat) (st : store) :
  Command.parseCommand_from opts names (arg :: rest) parsed st
  = match names !! arg with
    | None => (Throw (ParseExceptions.unknownArg arg), st)
    | Some argIdx =>
        if decide (argIdx ∈ parsed)
        then (Throw (ParseExceptions.multiArg
                       (buildDuplicateArgNames names argIdx)), st)
        else
          match opts !! argIdx with
          | None => (Throw (StdOutOfRange "vector::at"), st)
          | Some opt =>
              if Option.needsValue opt then
                match rest with
                | [] => (Throw (ParseExceptions.insufficientValues arg), st)
                | value :: rest' =>
                    match Conversions.fromStr (Option.valueTy opt) value with
                    | inr valV =>
                        Command.parseCommand_from opts names rest'
                          ({[argIdx]} ∪ parsed)
                          (<[Option.target opt := valV]> st)
                    | inl e => (Throw e, st)
                    end
                end
              else
                match Conversions.fromStr (Option.valueTy opt) "true" with
                | inr valV =>
                    Command.parseCommand_from opts names rest
                      ({[argIdx]} ∪ parsed)
                      (<[Option.target opt := valV]> st)
                | inl e => (Throw e, st)
                end
          end
    end.
Proof.
  cbn [Command.parseCommand_from].
  destruct (names !! arg) as [argIdx|]; [|reflexivity].
  destruct (decide (argIdx ∈ parsed)); [reflexivity|].
  destruct (opts !! argIdx) as [opt|]; [|reflexivity].
  destruct (Option.needsValue opt).
  - destruct rest as [|value rest']; [reflexivity|].
    unfold mbind, M_bind. rewrite parseValue_unfold.
    destruct (Conversions.fromStr (Option.valueTy opt) value); reflexivity.
  - unfold mbind, M_bind. rewrite parseValue_unfold.
    destruct (Conversions.fromStr (Option.valueTy opt) "true"); reflexivity.
Qed.

(** *** The loop of [parse], one iteration at a time *)

Lemma parse_from_cons (app : Application.t) (om cm : gmap string nat)
    (arg : string) (rest : list string) (parsed : gset nat) (st : store) :
  Application.parse_from app om cm (arg :: rest) parsed st
  = match cm !! arg with
    | Some cmdIdx => Application.processCommand app cmdIdx rest st
    | None =>
        match om !! arg with
        | None => (Throw (ParseExceptions.unknownArg arg), st)
        | Some optIdx =>
            if decide (optIdx ∈ parsed)
            then (Throw (ParseExceptions.multiArg
                           (buildDuplicateArgNames om optIdx)), st)
            else
              match Application.options_ app !! optIdx with
              | None => (Throw (StdOutOfRange "vector::at"), st)
              | Some opt =>
                  if Option.needsValue opt then
                    match rest with
                    | [] => (Throw (ParseExceptions.insufficientValues arg), st)
                    | value :: rest' =>
                        match Conversions.fromStr (Option.valueTy opt) value with
                        | inr valV =>
                            Application.parse_from app om cm rest'
                              ({[optIdx]} ∪ parsed)
                              (<[Option.target opt := valV]> st)
                        | inl e => (Throw e, st)
                        end
                    end
                  else
                    match Conversions.fromStr (Option.valueTy opt) "true" with
                    | inr valV =>
                        Application.parse_from app om cm rest
                          ({[optIdx]} ∪ parsed)
                          (<[Option.target opt := valV]> st)
                    | inl e => (Throw e, st)
                    end
              end
        end
    end.
Proof.
  cbn [Application.parse_from].
  destruct (cm !! arg) as [cmdIdx|]; [reflexivity|].
  destruct (om !! arg) as [optIdx|]; [|reflexivity].
  unfold mbind, M_bind, Application.processOption.
  destruct (decide (optIdx ∈ parsed)); [reflexivity|].
  destruct (Application.options_ app !! optIdx) as [opt|]; [|reflexivity].
  destruct (Option.needsValue opt).
  - destruct rest as [|value rest']; [reflexivity|].
    unfold mbind, M_bind. rewrite parseValue_unfold.
    destruct (Conversions.fromStr (Option.valueTy opt) value); reflexivity.
  - unfold mbind, M_bind. rewrite parseValue_unfold.
    destruct (Conversions.fromStr (Option.valueTy opt) "true"); reflexivity.
Qed.

(** The two loops agree where there is no command name to stop at. *)
Lemma parseCommand_from_parse_from (opts : list Option.t)
    (names : gmap string nat) (args : list string) (parsed : gset nat)
    (st : store) :
  Command.parseCommand_from opts names args parsed st
  = Application.parse_from
      {| Application.options_ := opts; Application.commands_ := [] |}
      names ∅ args parsed st.
Proof.
  remember (length args) as n eqn:Hn.
  revert args parsed st Hn.
  induction n as [n IH] using lt_wf_ind. intros args parsed st Hn.
  destruct args as [|arg rest]; [reflexivity|].
  rewrite parseCommand_from_cons, parse_from_cons, lookup_empty.
  cbn [Application.options_].
  destruct (names !! arg) as [argIdx|]; [|reflexivity].
  destruct (decide (argIdx ∈ parsed)); [reflexivity|].
  destruct (opts !! argIdx) as [opt|]; [|reflexivity].
  destruct (Option.needsValue opt).
  - destruct rest as [|value rest']; [reflexivity|].
    destruct (Conversions.fromStr (Option.valueTy opt) value); [reflexivity|].
    apply (IH (length rest')); [simpl in Hn; lia|reflexivity].
  - destruct (Conversions.fromStr (Option.valueTy opt) "true"); [reflexivity|].
    apply (IH (length rest)); [simpl in Hn; lia|reflexivity].
Qed.

Lemma parse_unfold (app : Application.t) (argv0 : string) (args : list string)
    (st : store) :
  Application.parse app (argv0 :: args) st
  = Application.parse_from app (optionMap app) (commandMap app) args ∅ st.
Proof. reflexivity. Qed.

Lemma parseCommand_unfold (cmd : Command.t) (args : list string) (st : store) :
  Command.parseCommand cmd args st
  = Command.parseCommand_from (Command.options_ cmd) (nameMap cmd) args ∅ st.
Proof. reflexivity. Qed.

Lemma processCommand_unfold (app : Application.t) (cmdIdx : nat)
    (cmdArgs : list string) (st : store) :
  Application.processCommand app cmdIdx cmdArgs st
  = match Application.commands_ app !! cmdIdx with
    | None => (Throw (StdOutOfRange "vector::at"), st)
    | Some (cmdPtr, executed) =>
        match Command.parseCommand cmdPtr cmdArgs st with
        | (inr _, st') => (Ok tt, <[(TBool, executed) := VBool true]> st')
        | (inl e, st') => (Throw e, st')
        end
    end.
Proof.
  unfold Application.processCommand.
  destruct (Application.commands_ app !! cmdIdx) as [[cmdPtr executed]|];
    [|reflexivity].
  unfold mbind, M_bind, assign.
  destruct (Command.parseCommand cmdPtr cmdArgs st) as [[e|[]] st']; reflexivity.
Qed.

(** *** Steps and the loops *)

Section one_walk.
Variable app : Application.t.
Variables om cm : gmap string nat.
Let opts := Application.options_ app.

Lemma Step_inv (arg : string) (rest : list string) (parsed : gset nat)
    (st : store) (c' : config) :
  Step opts om cm (arg :: rest, parsed, st) c' →
  ∃ idx opt valV,
    cm !! arg = None ∧ om !! arg = Some idx ∧ (idx ∉ parsed)
    ∧ opts !! idx = Some opt
    ∧ c'.1.2 = {[idx]} ∪ parsed
    ∧ c'.2 = <[Option.target opt := valV]> st
    ∧ ((Option.needsValue opt = true
        ∧ ∃ value, rest = value :: (c'.1.1)
                   ∧ Conversions.fromStr (Option.valueTy opt) value = Ok valV)
       ∨ (Option.needsValue opt = false ∧ c'.1.1 = rest
          ∧ Conversions.fromStr (Option.valueTy opt) "true" = Ok valV)).
Proof.
  intros Hstep. inversion Hstep; subst; exists idx, opt, valV;
    repeat split; try assumption; eauto.
Qed.

Lemma Step_nil (parsed : gset nat) (st : store) (c' : config) :
  ¬ Step opts om cm ([], parsed, st) c'.
Proof. intros Hstep. inversion Hstep. Qed.

Lemma parse_from_Step (c c' : config) :
  Step opts om cm c c' →
  Application.parse_from app om cm c.1.1 c.1.2 c.2
  = Application.parse_from app om cm c'.1.1 c'.1.2 c'.2.
Proof.
  intros Hstep. inversion Hstep as
    [arg value rest parsed st idx opt valV Hcm Hom Hnot Hopt Hneeds Hconv
    |arg rest parsed st idx opt valV Hcm Hom Hnot Hopt Hneeds Hconv]; subst;
    cbn [fst snd]; rewrite parse_from_cons, Hcm, Hom;
    (destruct (decide (idx ∈ parsed)); [contradiction|]);
    fold opts; rewrite Hopt, Hneeds, Hconv; reflexivity.
Qed.

Lemma parse_from_Walk (c c' : config) :
  Walk opts om cm c c' →
  Application.parse_from app om cm c.1.1 c.1.2 c.2
  = Application.parse_from app om cm c'.1.1 c'.1.2 c'.2.
Proof.
  intros Hwalk. induction Hwalk as [c|c y c' Hstep _ IH]; [reflexivity|].
  rewrite (parse_from_Step _ _ Hstep). exact IH.
Qed.

(** How the loop ends: it hands over to a command at a point the walk
    reaches, or it stops (at the end or on a throw) in the store of a
    point the walk reaches. *)
Lemma parse_from_cases (args : list string) (parsed : gset nat) (st : store) :
  (∃ arg rest parsed1 st1 cmdIdx,
      Walk opts om cm (args, parsed, st) (arg :: rest, parsed1, st1)
      ∧ cm !! arg = Some cmdIdx
      ∧ Application.parse_from app om cm args parsed st
        = Application.processCommand app cmdIdx rest st1)
  ∨ (∃ args1 parsed1 st1 r,
        Walk opts om cm (args, parsed, st) (args1, parsed1, st1)
        ∧ Application.parse_from app om cm args parsed st = (r, st1)
        ∧ (args1 = [] → r = Ok tt)).
Proof.
  remember (length args) as n eqn:Hn.
  revert args parsed st Hn.
  induction n as [n IH] using lt_wf_ind. intros args parsed st Hn.
  destruct args as [|arg rest].
  { right. exists [], parsed, st, (Ok tt). repeat split. apply rtc_refl. }
  assert (Hstop : ∀ r, Application.parse_from app om cm (arg :: rest) parsed st
                       = (r, st) →
            (∃ args1 parsed1 st1 r,
               Walk opts om cm (arg :: rest, parsed, st) (args1, parsed1, st1)
               ∧ Application.parse_from app om cm (arg :: rest) parsed st
                 = (r, st1)
               ∧ (args1 = [] → r = Ok tt))).
  { intros r Hr. exists (arg :: rest), parsed, st, r.
    split; [apply rtc_refl|]. split; [exact Hr|discriminate]. }
  assert (Hnext : ∀ c',
            Step opts om cm (arg :: rest, parsed, st) c' →
            length c'.1.1 < n →
            (∃ arg0 rest0 parsed1 st1 cmdIdx,
                Walk opts om cm (arg :: rest, parsed, st)
                  (arg0 :: rest0, parsed1, st1)
                ∧ cm !! arg0 = Some cmdIdx
                ∧ Application.parse_from app om cm (arg :: rest) parsed st
                  = Application.processCommand app cmdIdx rest0 st1)
            ∨ (∃ args1 parsed1 st1 r,
                  Walk opts om cm (arg :: rest, parsed, st) (args1, parsed1, st1)
                  ∧ Application.parse_from app om cm (arg :: rest) parsed st
                    = (r, st1)
                  ∧ (args1 = [] → r = Ok tt))).
  { intros [[args' parsed'] st'] Hstep Hlen.
    pose proof (parse_from_Step _ _ Hstep) as Heq. cbn [fst snd] in Heq, Hlen.
    destruct (IH _ Hlen args' parsed' st' eq_refl)
      as [(a0 & r0 & p1 & s1 & k & Hw & Hk & He)
         |(a1 & p1 & s1 & r & Hw & He & Hend)].
    - left. exists a0, r0, p1, s1, k.
      split; [eapply rtc_l; eassumption|]. split; [exact Hk|].
      rewrite Heq. exact He.
    - right. exists a1, p1, s1, r.
      split; [eapply rtc_l; eassumption|]. split; [|exact Hend].
      rewrite Heq. exact He. }
  pose proof (parse_from_cons app om cm arg rest parsed st) as Hcons.
  destruct (cm !! arg) as [cmdIdx|] eqn:Hcm.
  { left. exists arg, rest, parsed, st, cmdIdx.
    split; [apply rtc_refl|]. split; [exact Hcm|exact Hcons]. }
  destruct (om !! arg) as [optIdx|] eqn:Hom; [|right; eapply Hstop, Hcons].
  destruct (decide (optIdx ∈ parsed)) as [Hin|Hnot];
    [right; eapply Hstop, Hcons|].
  fold opts in Hcons.
  destruct (opts !! optIdx) as [opt|] eqn:Hopt; [|right; eapply Hstop, Hcons].
  destruct (Option.needsValue opt) eqn:Hneeds.
  - destruct rest as [|value rest']; [right; eapply Hstop, Hcons|].
    destruct (Conversions.fromStr (Option.valueTy opt) value) as [e|valV] eqn:Hconv;
      [right; eapply Hstop, Hcons|].
    apply (Hnext (rest', {[optIdx]} ∪ parsed, <[Option.target opt := valV]> st)).
    + eapply Step_value; eassumption.
    + cbn [fst snd]. simpl in Hn. lia.
  - destruct (Conversions.fromStr (Option.valueTy opt) "true") as [e|valV] eqn:Hconv;
      [right; eapply Hstop, Hcons|].
    apply (Hnext (rest, {[optIdx]} ∪ parsed, <[Option.target opt := valV]> st)).
    + eapply Step_flag; eassumption.
    + cbn [fst snd]. simpl in Hn. lia.
Qed.

(** *** What a walk changes *)

Lemma matched_Step (c c' : config) (idx : nat) :
  Step opts om cm c c' → matched opts om cm c' idx → matched opts om cm c idx.
Proof.
  intros Hstep (arg & rest & parsed & st & Hwalk & Hcm & Hom).
  exists arg, rest, parsed, st. split; [|split; assumption].
  eapply rtc_l; eassumption.
Qed.

Lemma Walk_frame (c c' : config) (l : loc) :
  Walk opts om cm c c' →
  (∀ idx opt, opts !! idx = Some opt → matched opts om cm c idx →
              Option.target opt ≠ l) →
  c'.2 !! l = c.2 !! l.
Proof.
  intros Hwalk. induction Hwalk as [c|c y c' Hstep _ IH]; [reflexivity|].
  intros Hfree. rewrite IH.
  - destruct c as [[[|arg rest] parsed] st]; [destruct (Step_nil _ _ _ Hstep)|].
    destruct (Step_inv _ _ _ _ _ Hstep)
      as (idx & opt & valV & Hcm & Hom & _ & Hopt & _ & Hst & _).
    rewrite Hst. cbn [snd]. apply lookup_insert_ne.
    apply (Hfree idx opt Hopt).
    exists arg, rest, parsed, st. split; [apply rtc_refl|]. split; assumption.
  - intros idx opt Hopt Hm. apply (Hfree idx opt Hopt).
    eapply matched_Step; eassumption.
Qed.

Lemma Walk_frame_targets (c c' : config) (l : loc) :
  Walk opts om cm c c' →
  l ∉ (Option.target <$> opts) →
  c'.2 !! l = c.2 !! l.
Proof.
  intros Hwalk Hfree. apply (Walk_frame _ _ _ Hwalk).
  intros idx opt Hopt _ Heq. apply Hfree. subst l.
  apply list_elem_of_fmap. exists opt. split; [reflexivity|].
  eapply list_elem_of_lookup_2, Hopt.
Qed.

Lemma Step_parsed (c c' : config) : Step opts om cm c c' → c.1.2 ⊆ c'.1.2.
Proof. intros Hstep. inversion Hstep; subst; cbn [fst snd]; set_solver. Qed.

Lemma Walk_parsed (c c' : config) : Walk opts om cm c c' → c.1.2 ⊆ c'.1.2.
Proof.
  intros Hwalk. induction Hwalk as [c|c y c' Hstep _ IH]; [reflexivity|].
  etrans; [eapply Step_parsed, Hstep|exact IH].
Qed.

(** An index is in the satisfied set exactly when it was there at the
    start or an earlier step of the walk resolved its token to it. *)
Lemma Walk_parsed_origin (c c2 : config) (k : nat) :
  Walk opts om cm c c2 →
  k ∈ c2.1.2 ↔
  (k ∈ c.1.2
   ∨ ∃ arg1 rest1 parsed1 st1 c1',
       Walk opts om cm c (arg1 :: rest1, parsed1, st1)
       ∧ Step opts om cm (arg1 :: rest1, parsed1, st1) c1'
       ∧ Walk opts om cm c1' c2
       ∧ om !! arg1 = Some k).
Proof.
  intros Hwalk. split.
  - induction Hwalk as [c|c y c2 Hstep Hrest IH]; [intros Hk; left; exact Hk|].
    intros Hk. destruct (IH Hk) as [Hy|(a1 & r1 & p1 & s1 & c1' & Hw & Hs & Hw' & Ha)].
    + destruct c as [[[|arg rest] parsed] st]; [destruct (Step_nil _ _ _ Hstep)|].
      destruct (Step_inv _ _ _ _ _ Hstep)
        as (idx & opt & valV & Hcm & Hom & _ & _ & Hp & _).
      rewrite Hp in Hy. apply elem_of_union in Hy as [Hy|Hy].
      * apply elem_of_singleton in Hy. subst idx. right.
        exists arg, rest, parsed, st, y.
        split; [apply rtc_refl|]. repeat split; assumption.
      * left. exact Hy.
    + right. exists a1, r1, p1, s1, c1'.
      split; [eapply rtc_l; eassumption|]. repeat split; assumption.
  - intros [Hk|(a1 & r1 & p1 & s1 & c1' & Hw & Hs & Hw' & Ha)].
    + eapply Walk_parsed; eassumption.
    + apply (Walk_parsed _ _ Hw').
      destruct (Step_inv _ _ _ _ _ Hs)
        as (idx & opt & valV & _ & Hom & _ & _ & Hp & _).
      assert (Hik : idx = k) by congruence.
      rewrite Hp, Hik. apply elem_of_union. left.
      apply elem_of_singleton. reflexivity.
Qed.

End one_walk.

End walk_facts.

(** * Name maps *)

Section name_maps.

Lemma registerNames_step (opt : Option.t) (idx : nat) (m : gmap string nat)
    (name : string) :
  (let m1 := if StringView.empty (Option.shortName opt) then m
             else <[Option.shortName opt := idx]> m in
   if StringView.empty (Option.longName opt) then m1
   else <[Option.longName opt := idx]> m1) !! name
  = if decide (names_of opt name) then Some idx else m !! name.
Proof.
  cbv zeta.
  destruct (decide (names_of opt name)) as [[He [Hs|Hl]]|Hn].
  - subst name. rewrite He.
    destruct (StringView.empty (Option.longName opt)).
    + apply lookup_insert_eq.
    + destruct (decide (Option.longName opt = Option.shortName opt)) as [->|Hne].
      * apply lookup_insert_eq.
      * rewrite lookup_insert_ne by exact Hne. apply lookup_insert_eq.
  - subst name. rewrite He. apply lookup_insert_eq.
  - assert (Hl : StringView.empty (Option.longName opt) = false →
                 Option.longName opt ≠ name).
    { intros He Heq. subst name. apply Hn. split; [exact He|right; reflexivity]. }
    assert (Hs : StringView.empty (Option.shortName opt) = false →
                 Option.shortName opt ≠ name).
    { intros He Heq. subst name. apply Hn. split; [exact He|left; reflexivity]. }
    destruct (StringView.empty (Option.longName opt));
      destruct (StringView.empty (Option.shortName opt));
      rewrite ?lookup_insert_ne by auto; reflexivity.
Qed.


End name_maps.

Section call_facts.
Context `{Registry}.

Lemma parse_reaches (app : Application.t) (argv0 : string)
    (args args1 : list string) (st st1 : store) (parsed1 : gset nat) :
  AppWalk app (args, ∅, st) (args1, parsed1, st1) →
  Application.parse app (argv0 :: args) st
  = Application.parse_from app (optionMap app) (commandMap app) args1 parsed1 st1.
Proof.
  intros Hwalk. rewrite parse_unfold.
  apply (parse_from_Walk app _ _ _ _ Hwalk).
Qed.

Lemma parseCommand_reaches (cmd : Command.t)
    (args args1 : list string) (st st1 : store) (parsed1 : gset nat) :
  CmdWalk cmd (args, ∅, st) (args1, parsed1, st1) →
  Command.parseCommand cmd args st
  = Command.parseCommand_from (Command.options_ cmd) (nameMap cmd)
      args1 parsed1 st1.
Proof.
  intros Hwalk. rewrite parseCommand_unfold, !parseCommand_from_parse_from.
  apply (parse_from_Walk
           {| Application.options_ := Command.options_ cmd;
              Application.commands_ := [] |} _ _ _ _ Hwalk).
Qed.

(** A command's call ends in the store of a point its walk reaches. *)
Lemma parseCommand_cases (cmd : Command.t) (args : list string) (st : store) :
  ∃ args1 parsed1 st1 r,
    CmdWalk cmd (args, ∅, st) (args1, parsed1, st1)
    ∧ Command.parseCommand cmd args st = (r, st1)
    ∧ (args1 = [] → r = Ok tt).
Proof.
  destruct (parse_from_cases
              {| Application.options_ := Command.options_ cmd;
                 Application.commands_ := [] |}
              (nameMap cmd) ∅ args ∅ st)
    as [(a0 & r0 & p1 & s1 & k & _ & Hk & _)
       |(a1 & p1 & s1 & r & Hw & He & Hend)].
  - rewrite lookup_empty in Hk. discriminate.
  - exists a1, p1, s1, r. split; [exact Hw|]. split; [|exact Hend].
    rewrite parseCommand_unfold, parseCommand_from_parse_from. exact He.
Qed.

(** The call of [parse] hands over to a command the walk reads, or ends
    in the store of a point the global walk reaches. *)
Lemma parse_cases (app : Application.t) (argv0 : string) (args : list string)
    (st : store) :
  (∃ cmdIdx cmdArgs st1,
      dispatched app (args, ∅, st) cmdIdx cmdArgs st1
      ∧ Application.parse app (argv0 :: args) st
        = Application.processCommand app cmdIdx cmdArgs st1)
  ∨ (∃ args1 parsed1 st1 r,
        AppWalk app (args, ∅, st) (args1, parsed1, st1)
        ∧ Application.parse app (argv0 :: args) st = (r, st1)
        ∧ (args1 = [] → r = Ok tt)).
Proof.
  rewrite parse_unfold.
  destruct (parse_from_cases app (optionMap app) (commandMap app) args ∅ st)
    as [(a0 & r0 & p1 & s1 & k & Hw & Hk & He)|Hstop].
  - left. exists k, r0, s1. split; [|exact He].
    exists a0, p1. split; assumption.
  - right. exact Hstop.
Qed.

(** C5 (amended). When the walk of [parse] or of [parseCommand] reads a
    token that resolves to a value-needing option not yet satisfied in
    this call: with no token after it the call raises
    [InsufficientValuesError]; otherwise the next token is converted as
    the option's value, and the walk goes on after both tokens with the
    value stored, or the call ends with the converter's exception. *)
Theorem value_option_takes_next_token :
  (∀ (app : Application.t) (argv0 : string) (args : list string) (st : store)
     (arg : string) (rest : list string) (parsed : gset nat) (st1 : store)
     (idx : nat) (opt : Option.t),
      AppWalk app (args, ∅, st) (arg :: rest, parsed, st1) →
      commandMap app !! arg = None →
      optionMap app !! arg = Some idx →
      idx ∉ parsed →
      Application.options_ app !! idx = Some opt →
      Option.needsValue opt = true →
      match rest with
      | [] =>
          Application.parse app (argv0 :: args) st
          = (Throw (ParseExceptions.insufficientValues arg), st1)
      | value :: rest' =>
          match Conversions.fromStr (Option.valueTy opt) value with
          | inr valV =>
              AppWalk app (args, ∅, st)
                (rest', {[idx]} ∪ parsed, <[Option.target opt := valV]> st1)
          | inl e =>
              Application.parse app (argv0 :: args) st = (Throw e, st1)
          end
      end)
  ∧ (∀ (cmd : Command.t) (args : list string) (st : store)
       (arg : string) (rest : list string) (parsed : gset nat) (st1 : store)
       (idx : nat) (opt : Option.t),
        CmdWalk cmd (args, ∅, st) (arg :: rest, parsed, st1) →
        nameMap cmd !! arg = Some idx →
        idx ∉ parsed →
        Command.options_ cmd !! idx = Some opt →
        Option.needsValue opt = true →
        match rest with
        | [] =>
            Command.parseCommand cmd args st
            = (Throw (ParseExceptions.insufficientValues arg), st1)
        | value :: rest' =>
            match Conversions.fromStr (Option.valueTy opt) value with
            | inr valV =>
                CmdWalk cmd (args, ∅, st)
                  (rest', {[idx]} ∪ parsed, <[Option.target opt := valV]> st1)
            | inl e =>
                Command.parseCommand cmd args st = (Throw e, st1)
            end
        end).
Proof.
  split.
  - intros app argv0 args st arg rest parsed st1 idx opt
      Hwalk Hcm Hom Hnot Hopt Hneeds.
    pose proof (parse_reaches app argv0 _ _ _ _ _ Hwalk) as Hparse.
    rewrite parse_from_cons, Hcm, Hom, Hopt, Hneeds in Hparse.
    destruct (decide (idx ∈ parsed)); [contradiction|].
    destruct rest as [|value rest']; [exact Hparse|].
    destruct (Conversions.fromStr (Option.valueTy opt) value) as [e|valV] eqn:Hconv;
      [exact Hparse|].
    eapply rtc_r; [exact Hwalk|]. eapply Step_value; eassumption.
  - intros cmd args st arg rest parsed st1 idx opt Hwalk Hom Hnot Hopt Hneeds.
    pose proof (parseCommand_reaches cmd _ _ _ _ _ Hwalk) as Hparse.
    rewrite parseCommand_from_cons, Hom, Hopt, Hneeds in Hparse.
    destruct (decide (idx ∈ parsed)); [contradiction|].
    destruct rest as [|value rest']; [exact Hparse|].
    destruct (Conversions.fromStr (Option.valueTy opt) value) as [e|valV] eqn:Hconv;
      [exact Hparse|].
    eapply rtc_r; [exact Hwalk|].
    eapply Step_value; try eassumption. apply lookup_empty.
Qed.


(** *** Only one command *)

Lemma Step_deterministic (opts : list Option.t) (om cm : gmap string nat)
    (c y y' : config) :
  Step opts om cm c y → Step opts om cm c y' → y = y'.
Proof.
  intros Hy Hy'. inversion Hy; subst; inversion Hy'; subst; congruence.
Qed.

Lemma Walk_command_unique (opts : list Option.t) (om cm : gmap string nat)
    (c c1 c2 : config) (arg1 arg2 : string) (rest1 rest2 : list string) :
  Walk opts om cm c c1 → Walk opts om cm c c2 →
  c1.1.1 = arg1 :: rest1 → is_Some (cm !! arg1) →
  c2.1.1 = arg2 :: rest2 → is_Some (cm !! arg2) →
  c1 = c2.
Proof.
  intros Hw1. revert c2. induction Hw1 as [c|c y c1 Hstep _ IH];
    intros c2 Hw2 Hc1 [k1 Hk1] Hc2 [k2 Hk2].
  - destruct Hw2 as [c|c y' c2 Hstep' _]; [reflexivity|].
    destruct c as [[tokens parsed] st]. cbn [fst snd] in Hc1. subst tokens.
    destruct (Step_inv {| Application.options_ := opts;
                          Application.commands_ := [] |} _ _ _ _ _ _ _ Hstep')
      as (? & ? & ? & Hnone & _). congruence.
  - destruct Hw2 as [c|c y' c2 Hstep' Hw2].
    + destruct c as [[tokens parsed] st]. cbn [fst snd] in Hc2. subst tokens.
      destruct (Step_inv {| Application.options_ := opts;
                            Application.commands_ := [] |} _ _ _ _ _ _ _ Hstep)
        as (? & ? & ? & Hnone & _). congruence.
    + rewrite (Step_deterministic _ _ _ _ _ _ Hstep' Hstep) in Hw2.
      apply (IH c2 Hw2 Hc1 (ex_intro _ k1 Hk1) Hc2 (ex_intro _ k2 Hk2)).
Qed.

Lemma dispatched_unique (app : Application.t) (start : config)
    (k k' : nat) (cmdArgs cmdArgs' : list string) (st1 st1' : store) :
  dispatched app start k cmdArgs st1 →
  dispatched app start k' cmdArgs' st1' →
  k = k' ∧ cmdArgs = cmdArgs' ∧ st1 = st1'.
Proof.
  intros (arg & parsed & Hw & Hk) (arg' & parsed' & Hw' & Hk').
  pose proof (Walk_command_unique _ _ _ _ _ _ arg arg' cmdArgs cmdArgs'
                Hw Hw' eq_refl (ex_intro _ k Hk) eq_refl (ex_intro _ k' Hk'))
    as Heq.
  injection Heq as -> -> -> ->. rewrite Hk in Hk'. injection Hk' as ->.
  repeat split.
Qed.

(** *** Frames *)

Lemma optionTargets_global (app : Application.t) (l : loc) :
  l ∉ optionTargets app → l ∉ (Option.target <$> Application.options_ app).
Proof.
  unfold optionTargets. intros Hl Hin. apply Hl, elem_of_app. left. exact Hin.
Qed.

Lemma optionTargets_command (app : Application.t) (l : loc)
    (k : nat) (cmd : Command.t) (executed : nat) :
  l ∉ optionTargets app →
  Application.commands_ app !! k = Some (cmd, executed) →
  l ∉ (Option.target <$> Command.options_ cmd).
Proof.
  unfold optionTargets. intros Hl Hk Hin. apply Hl, elem_of_app. right.
  apply list_elem_of_join. exists (Option.target <$> Command.options_ cmd).
  split; [exact Hin|].
  apply list_elem_of_fmap. exists (cmd, executed). split; [reflexivity|].
  eapply list_elem_of_lookup_2, Hk.
Qed.

Lemma parseCommand_frame (cmd : Command.t) (args : list string) (st : store)
    (l : loc) :
  l ∉ (Option.target <$> Command.options_ cmd) →
  (Command.parseCommand cmd args st).2 !! l = st !! l.
Proof.
  intros Hl.
  destruct (parseCommand_cases cmd args st)
    as (a1 & p1 & s1 & r & Hw & He & _).
  rewrite He. cbn [snd].
  apply (Walk_frame_targets
           {| Application.options_ := Command.options_ cmd;
              Application.commands_ := [] |} _ _ _ _ l Hw Hl).
Qed.

(** Where an [executed] flag that no option is bound to ends up true
    although it was not before, its command was reached and parsed. *)
Lemma executed_raised_inv (app : Application.t) (argv0 : string)
    (args : list string) (st : store) (executed : nat) :
  (TBool, executed) ∉ optionTargets app →
  st !! (TBool, executed) ≠ Some (VBool true) →
  (Application.parse app (argv0 :: args) st).2 !! (TBool, executed)
  = Some (VBool true) →
  ∃ cmdIdx cmdArgs st1 cmd,
    dispatched app (args, ∅, st) cmdIdx cmdArgs st1
    ∧ Application.commands_ app !! cmdIdx = Some (cmd, executed)
    ∧ (Command.parseCommand cmd cmdArgs st1).1 = Ok tt.
Proof.
  intros Hfree Hinit Hfinal.
  pose proof (optionTargets_global _ _ Hfree) as Hglobal.
  destruct (parse_cases app argv0 args st)
    as [(k & cmdArgs & st1 & Hd & He)|(a1 & p1 & s1 & r & Hw & He & _)].
  - assert (Hst1 : st1 !! (TBool, executed) = st !! (TBool, executed)).
    { destruct Hd as (arg & parsed & Hw & _).
      exact (Walk_frame_targets app _ _ _ _ _ Hw Hglobal). }
    rewrite He, processCommand_unfold in Hfinal.
    destruct (Application.commands_ app !! k) as [[cmd executed']|] eqn:Hk.
    2:{ cbn [snd] in Hfinal. exfalso. apply Hinit. congruence. }
    pose proof (parseCommand_frame cmd cmdArgs st1 _
                  (optionTargets_command _ _ _ _ _ Hfree Hk)) as Hcmd.
    destruct (Command.parseCommand cmd cmdArgs st1) as [[e|[]] st2] eqn:Hp;
      cbn [snd] in Hfinal, Hcmd.
    + exfalso. apply Hinit. congruence.
    + destruct (decide (executed' = executed)) as [->|Hne].
      * exists k, cmdArgs, st1, cmd. rewrite Hp. repeat split; assumption.
      * rewrite lookup_insert_ne in Hfinal by congruence.
        exfalso. apply Hinit. congruence.
  - rewrite He in Hfinal. cbn [snd] in Hfinal.
    pose proof (Walk_frame_targets app _ _ _ _ _ Hw Hglobal) as Hsame.
    cbn [snd] in Hsame. exfalso. apply Hinit. congruence.
Qed.

Lemma dispatched_parse (app : Application.t) (argv0 : string)
    (args : list string) (st : store) (cmdIdx : nat) (cmdArgs : list string)
    (st1 : store) (cmd : Command.t) (executed : nat) :
  dispatched app (args, ∅, st) cmdIdx cmdArgs st1 →
  Application.commands_ app !! cmdIdx = Some (cmd, executed) →
  Application.parse app (argv0 :: args) st
  = match Command.parseCommand cmd cmdArgs st1 with
    | (inr _, st2) => (Ok tt, <[(TBool, executed) := VBool true]> st2)
    | (inl e, st2) => (Throw e, st2)
    end.
Proof.
  intros (arg & parsed & Hw & Hk) Hcmd.
  rewrite (parse_reaches app argv0 _ _ _ _ _ Hw).
  rewrite parse_from_cons, Hk, processCommand_unfold, Hcmd. reflexivity.
Qed.

(** C2 (amended). The first command name that the global walk reads -
    every token before it having been handled as a global option or as
    the value of one, without a throw - ends global processing: the call
    is the command's [parseCommand] on all the tokens after it, followed
    on success by the write of its [executed] flag.  The walk reads at
    most one command name, and of two distinct flags that no option is
    bound to and that were not true before, at most one is true after
    the call. *)
Theorem first_command_read_takes_the_rest
    (app : Application.t) (argv0 : string) (args : list string) (st : store) :
  (∀ (arg : string) (rest : list string) (parsed : gset nat) (st1 : store)
     (cmdIdx : nat) (cmd : Command.t) (executed : nat),
      AppWalk app (args, ∅, st) (arg :: rest, parsed, st1) →
      commandMap app !! arg = Some cmdIdx →
      Application.commands_ app !! cmdIdx = Some (cmd, executed) →
      Application.parse app (argv0 :: args) st
      = match Command.parseCommand cmd rest st1 with
        | (inr _, st2) => (Ok tt, <[(TBool, executed) := VBool true]> st2)
        | (inl e, st2) => (Throw e, st2)
        end)
  ∧ (∀ (k k' : nat) (cmdArgs cmdArgs' : list string) (st1 st1' : store),
        dispatched app (args, ∅, st) k cmdArgs st1 →
        dispatched app (args, ∅, st) k' cmdArgs' st1' →
        k = k' ∧ cmdArgs = cmdArgs' ∧ st1 = st1')
  ∧ (∀ (executed executed' : nat),
        executed ≠ executed' →
        (TBool, executed) ∉ optionTargets app →
        (TBool, executed') ∉ optionTargets app →
        st !! (TBool, executed) ≠ Some (VBool true) →
        st !! (TBool, executed') ≠ Some (VBool true) →
        ¬ ((Application.parse app (argv0 :: args) st).2 !! (TBool, executed)
           = Some (VBool true)
           ∧ (Application.parse app (argv0 :: args) st).2 !! (TBool, executed')
             = Some (VBool true))).
Proof.
  split; [|split].
  - intros arg rest parsed st1 cmdIdx cmd executed Hw Hk Hcmd.
    apply (dispatched_parse app argv0 args st cmdIdx rest st1 cmd executed);
      [|exact Hcmd].
    exists arg, parsed. split; assumption.
  - intros k k' cmdArgs cmdArgs' st1 st1'. apply dispatched_unique.
  - intros executed executed' Hne Hfree Hfree' Hinit Hinit' [Hfin Hfin'].
    destruct (executed_raised_inv app argv0 args st executed Hfree Hinit Hfin)
      as (k & cmdArgs & st1 & cmd & Hd & Hcmd & _).
    destruct (executed_raised_inv app argv0 args st executed' Hfree' Hinit' Hfin')
      as (k' & cmdArgs' & st1' & cmd' & Hd' & Hcmd' & _).
    destruct (dispatched_unique _ _ _ _ _ _ _ _ Hd Hd') as (-> & _ & _).
    congruence.
Qed.

(** C1 (amended). For an [executed] boolean that no option is bound to
    and that is not true before the call: it is true after [parse]
    exactly when the global walk read a token resolving to a command
    bound to that boolean and that command's [parseCommand] returned
    without throwing.  It stays unset when the name is not read and when
    the command's own parsing throws. *)
Theorem executed_iff_command_parsed
    (app : Application.t) (argv0 : string) (args : list string) (st : store)
    (executed : nat) :
  (TBool, executed) ∉ optionTargets app →
  st !! (TBool, executed) ≠ Some (VBool true) →
  (Application.parse app (argv0 :: args) st).2 !! (TBool, executed)
  = Some (VBool true)
  ↔ ∃ cmdIdx cmdArgs st1 cmd,
      dispatched app (args, ∅, st) cmdIdx cmdArgs st1
      ∧ Application.commands_ app !! cmdIdx = Some (cmd, executed)
      ∧ (Command.parseCommand cmd cmdArgs st1).1 = Ok tt.
Proof.
  intros Hfree Hinit. split.
  - apply executed_raised_inv; assumption.
  - intros (k & cmdArgs & st1 & cmd & Hd & Hcmd & Hok).
    rewrite (dispatched_parse app argv0 args st k cmdArgs st1 cmd executed Hd Hcmd).
    destruct (Command.parseCommand cmd cmdArgs st1) as [[e|[]] st2];
      cbn [fst snd] in *; [discriminate|].
    apply lookup_insert_eq.
Qed.

(** C9 (amended). [parse] on an empty argument sequence raises nothing
    and leaves the store as it was.  In any call, a location that is
    neither the target of an option matched during the call (by the global
    walk or by the walk of the command it hands over to) nor the
    [executed] flag of that command keeps its pre-parse value.  An option
    that is not matched keeps its value unless its target is also the
    target of a matched option, or that flag. *)
Theorem unmatched_targets_keep_value
    (app : Application.t) (argv0 : string) (args : list string) (st : store) :
  Application.parse app [argv0] st = (Ok tt, st)
  ∧ ∀ l : loc,
      (∀ idx opt,
          Application.options_ app !! idx = Some opt →
          matched (Application.options_ app) (optionMap app) (commandMap app)
            (args, ∅, st) idx →
          Option.target opt ≠ l) →
      (∀ cmdIdx cmdArgs st1 cmd executed,
          dispatched app (args, ∅, st) cmdIdx cmdArgs st1 →
          Application.commands_ app !! cmdIdx = Some (cmd, executed) →
          (TBool, executed) ≠ l
          ∧ ∀ idx opt,
              Command.options_ cmd !! idx = Some opt →
              matched (Command.options_ cmd) (nameMap cmd) ∅
                (cmdArgs, ∅, st1) idx →
              Option.target opt ≠ l) →
      (Application.parse app (argv0 :: args) st).2 !! l = st !! l.
Proof.
  split; [reflexivity|].
  intros l Hglobal Hcommand.
  destruct (parse_cases app argv0 args st)
    as [(k & cmdArgs & st1 & Hd & He)|(a1 & p1 & s1 & r & Hw & He & _)].
  - assert (Hst1 : st1 !! l = st !! l).
    { destruct Hd as (arg & parsed & Hw & _).
      exact (Walk_frame app _ _ _ _ l Hw Hglobal). }
    rewrite He, processCommand_unfold.
    destruct (Application.commands_ app !! k) as [[cmd executed]|] eqn:Hk;
      [|exact Hst1].
    destruct (Hcommand k cmdArgs st1 cmd executed Hd Hk) as [Hflag Hopts].
    destruct (parseCommand_cases cmd cmdArgs st1)
      as (a2 & p2 & s2 & r2 & Hw2 & He2 & _).
    pose proof (Walk_frame
                  {| Application.options_ := Command.options_ cmd;
                     Application.commands_ := [] |} _ _ _ _ l Hw2 Hopts)
      as Hs2.
    cbn [snd] in Hs2. rewrite He2.
    destruct r2 as [e|[]]; cbn [snd].
    + congruence.
    + rewrite lookup_insert_ne by exact Hflag. congruence.
  - rewrite He. exact (Walk_frame app _ _ _ _ l Hw Hglobal).
Qed.

(** *** Presence flags *)

Lemma flags_only_raised_refl (st : store) : flags_only_raised st st.
Proof. intros n. left. reflexivity. Qed.

Lemma flags_only_raised_trans (st1 st2 st3 : store) :
  flags_only_raised st1 st2 → flags_only_raised st2 st3 →
  flags_only_raised st1 st3.
Proof.
  intros H12 H23 n. destruct (H23 n) as [Heq|Htrue]; [|right; exact Htrue].
  rewrite Heq. apply H12.
Qed.

Lemma flags_only_raised_executed (st : store) (executed : nat) :
  flags_only_raised st (<[(TBool, executed) := VBool true]> st).
Proof.
  intros n. destruct (decide (executed = n)) as [->|Hne].
  - right. apply lookup_insert_eq.
  - left. apply lookup_insert_ne. congruence.
Qed.

Lemma wfOption_bool (opt : Option.t) :
  wfOption opt → Option.valueTy opt = TBool → Option.needsValue opt = false.
Proof.
  unfold wfOption, Option.needsValue. intros -> Hty.
  destruct (decide (Option.valueTy opt = TBool)); [reflexivity|contradiction].
Qed.

Lemma wfOption_value (opt : Option.t) :
  wfOption opt → Option.needsValue opt = true → Option.valueTy opt ≠ TBool.
Proof.
  intros Hwf Hneeds Hty. rewrite (wfOption_bool _ Hwf Hty) in Hneeds. discriminate.
Qed.

Lemma Step_flags (opts : list Option.t) (om cm : gmap string nat) (c c' : config) :
  Forall wfOption opts → Step opts om cm c c' → flags_only_raised c.2 c'.2.
Proof.
  intros Hwf Hstep n.
  inversion Hstep as
    [arg value rest parsed st idx opt valV Hcm Hom Hnot Hopt Hneeds Hconv
    |arg rest parsed st idx opt valV Hcm Hom Hnot Hopt Hneeds Hconv]; subst;
    cbn [snd];
    pose proof (proj1 (Forall_lookup _ _) Hwf idx opt Hopt) as Hwfo.
  - left. apply lookup_insert_ne. unfold Option.target.
    pose proof (wfOption_value _ Hwfo Hneeds). congruence.
  - destruct (decide (Option.valueTy opt = TBool)) as [Hty|Hty].
    + rewrite Hty in Hconv. cbn [Conversions.fromStr] in Hconv.
      injection Hconv as <-.
      unfold Option.target. rewrite Hty.
      destruct (decide (Option.value_ opt = n)) as [->|Hne].
      * right. apply lookup_insert_eq.
      * left. apply lookup_insert_ne. congruence.
    + left. apply lookup_insert_ne. unfold Option.target. congruence.
Qed.

Lemma Walk_flags (opts : list Option.t) (om cm : gmap string nat) (c c' : config) :
  Forall wfOption opts → Walk opts om cm c c' → flags_only_raised c.2 c'.2.
Proof.
  intros Hwf Hwalk. induction Hwalk as [c|c y c' Hstep _ IH].
  - apply flags_only_raised_refl.
  - eapply flags_only_raised_trans; [eapply Step_flags; eassumption|exact IH].
Qed.

Lemma parseCommand_flags (cmd : Command.t) (args : list string) (st : store) :
  wfCommand cmd → flags_only_raised st (Command.parseCommand cmd args st).2.
Proof.
  intros Hwf.
  destruct (parseCommand_cases cmd args st) as (a1 & p1 & s1 & r & Hw & He & _).
  rewrite He. exact (Walk_flags _ _ _ _ _ Hwf Hw).
Qed.

Lemma parse_flags (app : Application.t) (argv : list string) (st : store) :
  wfApp app → flags_only_raised st (Application.parse app argv st).2.
Proof.
  intros [Hopts Hcmds].
  destruct argv as [|argv0 args]; [apply flags_only_raised_refl|].
  destruct (parse_cases app argv0 args st)
    as [(k & cmdArgs & st1 & Hd & He)|(a1 & p1 & s1 & r & Hw & He & _)].
  - destruct Hd as (arg & parsed & Hw & _).
    pose proof (Walk_flags _ _ _ _ _ Hopts Hw) as Hglobal. cbn [snd] in Hglobal.
    rewrite He, processCommand_unfold.
    destruct (Application.commands_ app !! k) as [[cmd executed]|] eqn:Hk;
      [|exact Hglobal].
    pose proof (proj1 (Forall_lookup _ _) Hcmds k _ Hk) as Hwfc. cbn [fst] in Hwfc.
    pose proof (parseCommand_flags cmd cmdArgs st1 Hwfc) as Hcmd.
    destruct (Command.parseCommand cmd cmdArgs st1) as [[e|[]] st2]; cbn [snd] in *.
    + eapply flags_only_raised_trans; eassumption.
    + eapply flags_only_raised_trans; [exact Hglobal|].
      eapply flags_only_raised_trans; [exact Hcmd|].
      apply flags_only_raised_executed.
  - rewrite He. exact (Walk_flags _ _ _ _ _ Hopts Hw).
Qed.

(** *** The factories establish the invariant *)

Lemma createOption_wf (options : NameValidationConfig) (V : Ty)
    (name : string) (var : nat) (opt : Option.t) :
  Option.createOption options V name var = Ok opt → wfOption opt.
Proof.
  unfold Option.createOption.
  destruct (Option.validateName options name) as [e|[shortName longName]];
    [discriminate|].
  cbn [mbind result_bind]. intros [= <-]. reflexivity.
Qed.

Lemma createApp_wf : wfApp Application.createApp.
Proof. split; constructor. Qed.

Lemma addOption_wf (options : NameValidationConfig) (V : Ty) (name : string)
    (var : nat) (app app' : Application.t) :
  wfApp app → Application.addOption options V name var app = Ok app' →
  wfApp app'.
Proof.
  intros [Hopts Hcmds]. unfold Application.addOption.
  destruct (Option.createOption options V name var) as [e|opt] eqn:Hcreate;
    [discriminate|].
  cbn [mbind result_bind]. intros [= <-]. split; [|exact Hcmds].
  cbn [Application.options_]. apply Forall_app. split; [exact Hopts|].
  constructor; [|constructor]. eapply createOption_wf, Hcreate.
Qed.

Lemma addCommand_wf (options : NameValidationConfig) (name : string)
    (var : nat) (app app' : Application.t) :
  wfApp app → Application.addCommand options name var app = Ok app' →
  wfApp app'.
Proof.
  intros [Hopts Hcmds]. unfold Application.addCommand, Command.createCommand.
  destruct (NameValidations.validateName options name) as [e|[]]; [discriminate|].
  cbn [mbind result_bind].
  destruct (NameValidations.validateSize options name false) as [e|[]];
    [discriminate|].
  cbn [mbind result_bind]. intros [= <-]. split; [exact Hopts|].
  cbn [Application.commands_]. apply Forall_app. split; [exact Hcmds|].
  constructor; [|constructor]. constructor.
Qed.

Lemma Command_addOption_wf (options : NameValidationConfig) (V : Ty)
    (name : string) (var : nat) (cmd cmd' : Command.t) :
  wfCommand cmd → Command.addOption options V name var cmd = Ok cmd' →
  wfCommand cmd'.
Proof.
  intros Hwf. unfold Command.addOption.
  destruct (Option.createOption options V name var) as [e|opt] eqn:Hcreate;
    [discriminate|].
  cbn [mbind result_bind]. intros [= <-]. unfold wfCommand.
  cbn [Command.options_]. apply Forall_app. split; [exact Hwf|].
  constructor; [|constructor]. eapply createOption_wf, Hcreate.
Qed.

Lemma addCommandOption_wf (options : NameValidationConfig) (cmdIdx : nat)
    (V : Ty) (name : string) (var : nat) (app app' : Application.t) :
  wfApp app →
  Application.addCommandOption options cmdIdx V name var app = Ok app' →
  wfApp app'.
Proof.
  intros [Hopts Hcmds]. unfold Application.addCommandOption.
  destruct (Application.commands_ app !! cmdIdx) as [[cmd executed]|] eqn:Hk;
    [|discriminate].
  destruct (Command.addOption options V name var cmd) as [e|cmd'] eqn:Hadd;
    [discriminate|].
  cbn [mbind result_bind]. intros [= <-]. split; [exact Hopts|].
  cbn [Application.commands_]. apply Forall_insert; [exact Hcmds|].
  cbn [fst]. eapply Command_addOption_wf; [|exact Hadd].
  exact (proj1 (Forall_lookup _ _) Hcmds cmdIdx _ Hk).
Qed.

(** Whatever a program builds satisfies the invariant. *)
Lemma constructible_wf (app : Application.t) : constructible app → wfApp app.
Proof.
  induction 1 as [|options V name var app app' _ IH Hadd
                  |options name var app app' _ IH Hadd
                  |options cmdIdx V name var app app' _ IH Hadd].
  - apply createApp_wf.
  - eapply addOption_wf; eassumption.
  - eapply addCommand_wf; eassumption.
  - eapply addCommandOption_wf; eassumption.
Qed.

(** *** Matched presence flags *)

Lemma flags_only_raised_true (st st' : store) (n : nat) :
  flags_only_raised st st' →
  st !! (TBool, n) = Some (VBool true) →
  st' !! (TBool, n) = Some (VBool true).
Proof. intros Hfl Hn. destruct (Hfl n) as [Heq|Ht]; congruence. Qed.

Lemma parse_from_flags (app : Application.t) (om cm : gmap string nat)
    (args : list string) (parsed : gset nat) (st : store) :
  wfApp app →
  flags_only_raised st (Application.parse_from app om cm args parsed st).2.
Proof.
  intros [Hopts Hcmds].
  destruct (parse_from_cases app om cm args parsed st)
    as [(arg & rest & p1 & st1 & k & Hw & _ & He)|(a1 & p1 & s1 & r & Hw & He & _)].
  - pose proof (Walk_flags _ _ _ _ _ Hopts Hw) as Hglobal. cbn [snd] in Hglobal.
    rewrite He, processCommand_unfold.
    destruct (Application.commands_ app !! k) as [[cmd executed]|] eqn:Hk;
      [|exact Hglobal].
    pose proof (proj1 (Forall_lookup _ _) Hcmds k _ Hk) as Hwfc. cbn [fst] in Hwfc.
    pose proof (parseCommand_flags cmd rest st1 Hwfc) as Hcmd.
    destruct (Command.parseCommand cmd rest st1) as [[e|[]] st2]; cbn [snd] in *.
    + eapply flags_only_raised_trans; eassumption.
    + eapply flags_only_raised_trans; [exact Hglobal|].
      eapply flags_only_raised_trans; [exact Hcmd|].
      apply flags_only_raised_executed.
  - rewrite He. exact (Walk_flags _ _ _ _ _ Hopts Hw).
Qed.

(** A token that resolves to a [bool] option: the option was satisfied
    earlier in the walk, and its target holds [true] since, or the walk
    takes the step that stores [true]. *)
Lemma matched_bool_step (app : Application.t) (om cm : gmap string nat)
    (args : list string) (st : store) (arg : string) (rest : list string)
    (parsed : gset nat) (st1 : store) (idx : nat) (opt : Option.t) :
  Forall wfOption (Application.options_ app) →
  Application.options_ app !! idx = Some opt →
  Option.valueTy opt = TBool →
  Walk (Application.options_ app) om cm (args, ∅, st) (arg :: rest, parsed, st1) →
  cm !! arg = None →
  om !! arg = Some idx →
  st1 !! Option.target opt = Some (VBool true)
  ∨ Step (Application.options_ app) om cm (arg :: rest, parsed, st1)
      (rest, {[idx]} ∪ parsed, <[Option.target opt := VBool true]> st1).
Proof.
  intros Hwf Hopt Hty Hw Hcm Hom.
  pose proof (proj1 (Forall_lookup _ _) Hwf idx opt Hopt) as Hwfo.
  pose proof (wfOption_bool _ Hwfo Hty) as Hneeds.
  destruct (decide (idx ∈ parsed)) as [Hin|Hnot].
  - left.
    apply (Walk_parsed_origin app om cm _ _ idx Hw) in Hin
      as [Hin|(arg1 & rest1 & parsed1 & s1 & c1' & _ & Hstep & Hw' & Hom1)];
      [apply not_elem_of_empty in Hin; destruct Hin|].
    destruct (Step_inv app om cm _ _ _ _ _ Hstep)
      as (idx' & opt' & valV & _ & Hom1' & _ & Hopt' & _ & Hst & Hkind).
    rewrite Hom1 in Hom1'. injection Hom1' as <-.
    rewrite Hopt in Hopt'. injection Hopt' as <-.
    destruct Hkind as [[Hn _]|(_ & _ & Hconv)]; [congruence|].
    rewrite Hty in Hconv. cbn [Conversions.fromStr] in Hconv.
    injection Hconv as <-.
    pose proof (Walk_flags _ _ _ _ _ Hwf Hw') as Hfl. cbn [snd] in Hfl.
    unfold Option.target in *. rewrite Hty in *.
    apply (flags_only_raised_true _ _ _ Hfl).
    rewrite Hst. apply lookup_insert_eq.
  - right. apply Step_flag; try assumption.
    rewrite Hty. reflexivity.
Qed.

Lemma matched_bool_parse_from (app : Application.t) (om cm : gmap string nat)
    (args : list string) (st : store) (idx : nat) (opt : Option.t) :
  wfApp app →
  Application.options_ app !! idx = Some opt →
  Option.valueTy opt = TBool →
  matched (Application.options_ app) om cm (args, ∅, st) idx →
  (Application.parse_from app om cm args ∅ st).2 !! Option.target opt
  = Some (VBool true).
Proof.
  intros Hwf Hopt Hty (arg & rest & parsed & st1 & Hw & Hcm & Hom).
  pose proof (parse_from_Walk app om cm _ _ Hw) as Hreach.
  cbn [fst snd] in Hreach. rewrite Hreach.
  assert (Htarget : Option.target opt = (TBool, Option.value_ opt))
    by (unfold Option.target; rewrite Hty; reflexivity).
  rewrite Htarget.
  destruct (matched_bool_step app om cm args st arg rest parsed st1 idx opt
              (proj1 Hwf) Hopt Hty Hw Hcm Hom) as [Hset|Hstep].
  - apply (flags_only_raised_true st1); [apply parse_from_flags, Hwf|].
    rewrite <- Htarget. exact Hset.
  - pose proof (parse_from_Step app om cm _ _ Hstep) as Hnext.
    cbn [fst snd] in Hnext. rewrite Hnext.
    eapply flags_only_raised_true; [apply parse_from_flags, Hwf|].
    rewrite Htarget. apply lookup_insert_eq.
Qed.

Lemma matched_bool_parse (app : Application.t) (argv0 : string)
    (args : list string) (st : store) (idx : nat) (opt : Option.t) :
  wfApp app →
  Application.options_ app !! idx = Some opt →
  Option.valueTy opt = TBool →
  matched (Application.options_ app) (optionMap app) (commandMap app)
    (args, ∅, st) idx →
  (Application.parse app (argv0 :: args) st).2 !! Option.target opt
  = Some (VBool true).
Proof.
  intros Hwf Hopt Hty Hm. rewrite parse_unfold.
  apply (matched_bool_parse_from app _ _ args st idx opt); assumption.
Qed.

Lemma matched_bool_parseCommand (cmd : Command.t) (args : list string)
    (st : store) (idx : nat) (opt : Option.t) :
  wfCommand cmd →
  Command.options_ cmd !! idx = Some opt →
  Option.valueTy opt = TBool →
  matched (Command.options_ cmd) (nameMap cmd) ∅ (args, ∅, st) idx →
  (Command.parseCommand cmd args st).2 !! Option.target opt
  = Some (VBool true).
Proof.
  intros Hwf Hopt Hty Hm.
  rewrite parseCommand_unfold, parseCommand_from_parse_from.
  apply (matched_bool_parse_from
           {| Application.options_ := Command.options_ cmd;
              Application.commands_ := [] |} _ _ args st idx opt);
    try assumption.
  split; [exact Hwf|constructor].
Qed.

Lemma matched_bool_dispatched (app : Application.t) (argv0 : string)
    (args : list string) (st : store) (cmdIdx : nat) (cmdArgs : list string)
    (st1 : store) (cmd : Command.t) (executed : nat) (idx : nat)
    (opt : Option.t) :
  wfApp app →
  dispatched app (args, ∅, st) cmdIdx cmdArgs st1 →
  Application.commands_ app !! cmdIdx = Some (cmd, executed) →
  Command.options_ cmd !! idx = Some opt →
  Option.valueTy opt = TBool →
  matched (Command.options_ cmd) (nameMap cmd) ∅ (cmdArgs, ∅, st1) idx →
  (Application.parse app (argv0 :: args) st).2 !! Option.target opt
  = Some (VBool true).
Proof.
  intros [_ Hcmds] Hd Hcmd Hopt Hty Hm.
  pose proof (proj1 (Forall_lookup _ _) Hcmds cmdIdx _ Hcmd) as Hwfc.
  cbn [fst] in Hwfc.
  pose proof (matched_bool_parseCommand cmd cmdArgs st1 idx opt Hwfc Hopt Hty Hm)
    as Hset.
  rewrite (dispatched_parse app argv0 args st cmdIdx cmdArgs st1 cmd executed
             Hd Hcmd).
  destruct (Command.parseCommand cmd cmdArgs st1) as [[e|[]] st2];
    cbn [snd] in *; [exact Hset|].
  unfold Option.target in *. rewrite Hty in *.
  eapply flags_only_raised_true; [apply flags_only_raised_executed|exact Hset].
Qed.

(** C10. A [bool] option is given the fixed string ["true"]: matching
    it, when it is not yet satisfied, sets its target to [true] and
    takes no further token.  After any [parse] or [parseCommand] call on
    options made by [createOption], every [bool] location holds its
    earlier value or [true]; and the target of every [bool] option that
    the call matched - in the global walk, in the walk of [parseCommand],
    or in the walk of the command [parse] hands over to - holds [true],
    whether the call returns or throws later.  Where the walk of a call
    reads the name of a [bool] option not yet satisfied, the call goes on
    at the very next token with [true] stored. *)
Theorem bool_targets_only_raised :
  (∀ (opt : Option.t) (st : store),
      Option.valueTy opt = TBool →
      Option.parseValue opt "true" st
      = (Ok tt, <[Option.target opt := VBool true]> st))
  ∧ (∀ (app : Application.t) (rest : list string) (om : gmap string nat)
       (idx : nat) (parsed : gset nat) (arg : string) (st : store)
       (opt : Option.t),
        wfOption opt →
        Application.options_ app !! idx = Some opt →
        Option.valueTy opt = TBool →
        idx ∉ parsed →
        Application.processOption app rest om idx parsed arg st
        = (Ok (false, {[idx]} ∪ parsed), <[Option.target opt := VBool true]> st))
  ∧ (∀ (opts : list Option.t) (names : gmap string nat) (arg : string)
       (rest : list string) (idx : nat) (parsed : gset nat) (st : store)
       (opt : Option.t),
        wfOption opt →
        names !! arg = Some idx →
        opts !! idx = Some opt →
        Option.valueTy opt = TBool →
        idx ∉ parsed →
        Command.parseCommand_from opts names (arg :: rest) parsed st
        = Command.parseCommand_from opts names rest ({[idx]} ∪ parsed)
            (<[Option.target opt := VBool true]> st))
  ∧ (∀ (app : Application.t) (argv : list string) (st : store),
        wfApp app → flags_only_raised st (Application.parse app argv st).2)
  ∧ (∀ (cmd : Command.t) (args : list string) (st : store),
        wfCommand cmd → flags_only_raised st (Command.parseCommand cmd args st).2)
  ∧ (∀ (app : Application.t) (argv0 : string) (args : list string)
       (st : store) (idx : nat) (opt : Option.t),
        wfApp app →
        Application.options_ app !! idx = Some opt →
        Option.valueTy opt = TBool →
        matched (Application.options_ app) (optionMap app) (commandMap app)
          (args, ∅, st) idx →
        (Application.parse app (argv0 :: args) st).2 !! Option.target opt
        = Some (VBool true))
  ∧ (∀ (cmd : Command.t) (args : list string) (st : store) (idx : nat)
       (opt : Option.t),
        wfCommand cmd →
        Command.options_ cmd !! idx = Some opt →
        Option.valueTy opt = TBool →
        matched (Command.options_ cmd) (nameMap cmd) ∅ (args, ∅, st) idx →
        (Command.parseCommand cmd args st).2 !! Option.target opt
        = Some (VBool true))
  ∧ (∀ (app : Application.t) (argv0 : string) (args : list string)
       (st : store) (cmdIdx : nat) (cmdArgs : list string) (st1 : store)
       (cmd : Command.t) (executed : nat) (idx : nat) (opt : Option.t),
        wfApp app →
        dispatched app (args, ∅, st) cmdIdx cmdArgs st1 →
        Application.commands_ app !! cmdIdx = Some (cmd, executed) →
        Command.options_ cmd !! idx = Some opt →
        Option.valueTy opt = TBool →
        matched (Command.options_ cmd) (nameMap cmd) ∅ (cmdArgs, ∅, st1) idx →
        (Application.parse app (argv0 :: args) st).2 !! Option.target opt
        = Some (VBool true))
  ∧ (∀ (app : Application.t) (argv0 : string) (args : list string)
       (st : store) (arg : string) (rest : list string) (parsed : gset nat)
       (st1 : store) (idx : nat) (opt : Option.t),
        wfApp app →
        AppWalk app (args, ∅, st) (arg :: rest, parsed, st1) →
        commandMap app !! arg = None →
        optionMap app !! arg = Some idx →
        idx ∉ parsed →
        Application.options_ app !! idx = Some opt →
        Option.valueTy opt = TBool →
        AppWalk app (args, ∅, st)
          (rest, {[idx]} ∪ parsed, <[Option.target opt := VBool true]> st1)
        ∧ Application.parse app (argv0 :: args) st
          = Application.parse_from app (optionMap app) (commandMap app) rest
              ({[idx]} ∪ parsed) (<[Option.target opt := VBool true]> st1))
  ∧ (∀ (cmd : Command.t) (args : list string) (st : store) (arg : string)
       (rest : list string) (parsed : gset nat) (st1 : store) (idx : nat)
       (opt : Option.t),
        wfCommand cmd →
        CmdWalk cmd (args, ∅, st) (arg :: rest, parsed, st1) →
        nameMap cmd !! arg = Some idx →
        idx ∉ parsed →
        Command.options_ cmd !! idx = Some opt →
        Option.valueTy opt = TBool →
        CmdWalk cmd (args, ∅, st)
          (rest, {[idx]} ∪ parsed, <[Option.target opt := VBool true]> st1)
        ∧ Command.parseCommand cmd args st
          = Command.parseCommand_from (Command.options_ cmd) (nameMap cmd) rest
              ({[idx]} ∪ parsed) (<[Option.target opt := VBool true]> st1)).
Proof.
  assert (Hvalue : ∀ (opt : Option.t) (st : store),
             Option.valueTy opt = TBool →
             Option.parseValue opt "true" st
             = (Ok tt, <[Option.target opt := VBool true]> st)).
  { intros opt st Hty. rewrite parseValue_unfold, Hty. reflexivity. }
  split; [exact Hvalue|].
  split; [|split; [|split; [|split; [|split; [|split; [|split; [|split]]]]]]].
  - intros app rest om idx parsed arg st opt Hwf Hopt Hty Hnot.
    unfold Application.processOption.
    destruct (decide (idx ∈ parsed)); [contradiction|].
    rewrite Hopt, (wfOption_bool _ Hwf Hty).
    unfold mbind, M_bind. rewrite (Hvalue opt st Hty). reflexivity.
  - intros opts names arg rest idx parsed st opt Hwf Hname Hopt Hty Hnot.
    rewrite parseCommand_from_cons, Hname, Hopt, (wfOption_bool _ Hwf Hty).
    destruct (decide (idx ∈ parsed)); [contradiction|].
    rewrite Hty. reflexivity.
  - intros app argv st. apply parse_flags.
  - intros cmd args st. apply parseCommand_flags.
  - intros app argv0 args st idx opt. apply matched_bool_parse.
  - intros cmd args st idx opt. apply matched_bool_parseCommand.
  - intros app argv0 args st cmdIdx cmdArgs st1 cmd executed idx opt.
    apply matched_bool_dispatched.
  - intros app argv0 args st arg rest parsed st1 idx opt
      [Hwf _] Hw Hcm Hom Hnot Hopt Hty.
    pose proof (proj1 (Forall_lookup _ _) Hwf idx opt Hopt) as Hwfo.
    assert (Hstep : Step (Application.options_ app) (optionMap app)
                      (commandMap app) (arg :: rest, parsed, st1)
                      (rest, {[idx]} ∪ parsed,
                       <[Option.target opt := VBool true]> st1)).
    { apply Step_flag; try assumption; [exact (wfOption_bool _ Hwfo Hty)|].
      rewrite Hty. reflexivity. }
    assert (Hw' : AppWalk app (args, ∅, st)
                    (rest, {[idx]} ∪ parsed,
                     <[Option.target opt := VBool true]> st1)).
    { eapply rtc_r; [exact Hw|exact Hstep]. }
    split; [exact Hw'|]. exact (parse_reaches _ _ _ _ _ _ _ Hw').
  - intros cmd args st arg rest parsed st1 idx opt Hwf Hw Hom Hnot Hopt Hty.
    pose proof (proj1 (Forall_lookup _ _) Hwf idx opt Hopt) as Hwfo.
    assert (Hstep : Step (Command.options_ cmd) (nameMap cmd) ∅
                      (arg :: rest, parsed, st1)
                      (rest, {[idx]} ∪ parsed,
                       <[Option.target opt := VBool true]> st1)).
    { apply Step_flag; try assumption;
        [apply lookup_empty|exact (wfOption_bool _ Hwfo Hty)|].
      rewrite Hty. reflexivity. }
    assert (Hw' : CmdWalk cmd (args, ∅, st)
                    (rest, {[idx]} ∪ parsed,
                     <[Option.target opt := VBool true]> st1)).
    { eapply rtc_r; [exact Hw|exact Hstep]. }
    split; [exact Hw'|]. exact (parseCommand_reaches _ _ _ _ _ _ Hw').
Qed.

End call_facts.

(** * Tokens a walk can read *)

Section walk_tokens.
Context `{Registry}.
Variables (opts : list Option.t) (om cm : gmap string nat).

Lemma Step_suffix (c c' : config) :
  Step opts om cm c c' → c'.1.1 `suffix_of` c.1.1.
Proof.
  intros Hstep. inversion Hstep; subst; cbn [fst snd].
  - exists [arg; value]. reflexivity.
  - exists [arg]. reflexivity.
Qed.

Lemma Walk_suffix (c c' : config) :
  Walk opts om cm c c' → c'.1.1 `suffix_of` c.1.1.
Proof.
  intros Hwalk. induction Hwalk as [c|c y c' Hstep _ IH]; [reflexivity|].
  etrans; [exact IH|]. eapply Step_suffix, Hstep.
Qed.

(** A token the walk reads is one of the tokens it started with. *)
Lemma Walk_head (args : list string) (parsed : gset nat) (st : store)
    (arg : string) (rest : list string) (parsed1 : gset nat) (st1 : store) :
  Walk opts om cm (args, parsed, st) (arg :: rest, parsed1, st1) → arg ∈ args.
Proof.
  intros Hwalk. destruct (Walk_suffix _ _ Hwalk) as [before Heq].
  cbn [fst snd] in Heq. rewrite Heq.
  apply elem_of_app. right. apply list_elem_of_here.
Qed.

Lemma matched_token (args : list string) (parsed : gset nat) (st : store)
    (idx : nat) :
  matched opts om cm (args, parsed, st) idx →
  ∃ arg, arg ∈ args ∧ cm !! arg = None ∧ om !! arg = Some idx.
Proof.
  intros (arg & rest & parsed1 & st1 & Hwalk & Hcm & Hom).
  exists arg. split; [eapply Walk_head, Hwalk|]. split; assumption.
Qed.

End walk_tokens.

Lemma dispatched_token `{Registry} (app : Application.t) (args : list string)
    (parsed : gset nat) (st : store) (cmdIdx : nat) (cmdArgs : list string)
    (st1 : store) :
  dispatched app (args, parsed, st) cmdIdx cmdArgs st1 →
  ∃ arg, arg ∈ args ∧ commandMap app !! arg = Some cmdIdx.
Proof.
  intros (arg & parsed1 & Hwalk & Hk).
  exists arg. split; [eapply Walk_head, Hwalk|exact Hk].
Qed.

(** * The worked example *)

Section example_facts.
#[local] Existing Instance Example.registry.

(** The example is what the registration calls of a program produce. *)
Lemma example_constructible : constructible Example.app.
Proof.
  pose (with_options (opts : list Option.t) :=
          {| Application.options_ := opts; Application.commands_ := [] |}).
  pose (bare := {| Command.options_ := []; Command.name_ := "build" |}).
  apply (constructible_addCommandOption defualtConfig 0 (TInt UInt16)
           "-p,--port" 0
           {| Application.options_ := [Example.number; Example.verbose; Example.name];
              Application.commands_ := [(bare, 1)] |}); [|reflexivity].
  apply (constructible_addCommand defualtConfig "build" 1
           (with_options [Example.number; Example.verbose; Example.name]));
    [|reflexivity].
  apply (constructible_addOption defualtConfig TString "--name" 0
           (with_options [Example.number; Example.verbose])); [|reflexivity].
  apply (constructible_addOption defualtConfig TBool "-v,--verbose" 0
           (with_options [Example.number])); [|reflexivity].
  apply (constructible_addOption defualtConfig (TInt Int32) "-n,--number" 0
           (with_options [])); [|reflexivity].
  apply constructible_createApp.
Qed.

Lemma example_wf : wfApp Example.app.
Proof. apply constructible_wf, example_constructible. Qed.

Lemma value_option_takes_next_token_witness :
  AppWalk Example.app (["-n"; "5"; "-v"], ∅, ∅)
    (["-v"], {[0]} ∪ ∅, <[(TInt Int32, 0) := VInt 5]> ∅).
Proof.
  refine (proj1 value_option_takes_next_token Example.app "app"
            ["-n"; "5"; "-v"] ∅ "-n" ["5"; "-v"] ∅ ∅ 0 Example.number
            _ _ _ _ _ _).
  - apply rtc_refl.
  - reflexivity.
  - reflexivity.
  - apply not_elem_of_empty.
  - reflexivity.
  - reflexivity.
Defined.


Lemma first_command_read_takes_the_rest_witness :
  Application.parse Example.app ["app"; "-v"; "build"; "-p"; "80"] Example.st0
  = match Command.parseCommand Example.build ["-p"; "80"]
            (<[(TBool, 0) := VBool true]> Example.st0) with
    | (inr _, st2) => (Ok tt, <[(TBool, 1) := VBool true]> st2)
    | (inl e, st2) => (Throw e, st2)
    end.
Proof.
  refine (proj1 (first_command_read_takes_the_rest Example.app "app"
                   ["-v"; "build"; "-p"; "80"] Example.st0)
            "build" ["-p"; "80"] ({[1]} ∪ ∅)
            (<[(TBool, 0) := VBool true]> Example.st0) 0 Example.build 1
            _ _ _).
  - eapply rtc_l; [|apply rtc_refl].
    apply (Step_flag _ _ _ "-v" ["build"; "-p"; "80"] ∅ Example.st0 1
             Example.verbose (VBool true)); try reflexivity.
    apply not_elem_of_empty.
  - reflexivity.
  - reflexivity.
Defined.

Lemma example_flag_free : (TBool, 1) ∉ optionTargets Example.app.
Proof.
  unfold optionTargets. cbn.
  intros Hin. repeat (apply elem_of_cons in Hin as [Hin|Hin]; [discriminate|]).
  inversion Hin.
Qed.

Lemma executed_iff_command_parsed_witness :
  (Application.parse Example.app ["app"; "build"; "-p"; "80"] Example.st0).2
    !! (TBool, 1) = Some (VBool true)
  ↔ ∃ cmdIdx cmdArgs st1 cmd,
      dispatched Example.app (["build"; "-p"; "80"], ∅, Example.st0)
        cmdIdx cmdArgs st1
      ∧ Application.commands_ Example.app !! cmdIdx = Some (cmd, 1)
      ∧ (Command.parseCommand cmd cmdArgs st1).1 = Ok tt.
Proof.
  apply (executed_iff_command_parsed Example.app "app"
           ["build"; "-p"; "80"] Example.st0 1).
  - apply example_flag_free.
  - vm_compute. discriminate.
Defined.

Lemma bool_targets_only_raised_witness :
  flags_only_raised Example.st0
    (Application.parse Example.app ["app"; "-v"; "build"] Example.st0).2
  ∧ (Application.parse Example.app ["app"; "-v"; "build"; "--nope"]
       Example.st0).2 !! Option.target Example.verbose
    = Some (VBool true).
Proof.
  destruct bool_targets_only_raised as (_ & _ & _ & Hraised & _ & Hset & _).
  split.
  - apply Hraised, example_wf.
  - apply (Hset Example.app "app" ["-v"; "build"; "--nope"] Example.st0 1
             Example.verbose); [apply example_wf|reflexivity|reflexivity|].
    exists "-v", ["build"; "--nope"], ∅, Example.st0.
    split; [apply rtc_refl|]. split; reflexivity.
Defined.

Lemma unmatched_targets_keep_value_witness :
  (Application.parse Example.app ["app"; "-v"] Example.st0).2
    !! (TInt Int32, 0) = Example.st0 !! (TInt Int32, 0).
Proof.
  apply (proj2 (unmatched_targets_keep_value Example.app "app" ["-v"] Example.st0)).
  - intros idx opt Hopt Hm.
    destruct (matched_token _ _ _ _ _ _ _ Hm) as (arg & Harg & _ & Hom).
    apply list_elem_of_singleton in Harg. subst arg.
    vm_compute in Hom. injection Hom as <-.
    vm_compute in Hopt. injection Hopt as <-. discriminate.
  - intros cmdIdx cmdArgs st1 cmd executed Hd _.
    destruct (dispatched_token _ _ _ _ _ _ _ Hd) as (arg & Harg & Hk).
    apply list_elem_of_singleton in Harg. subst arg.
    vm_compute in Hk. discriminate.
Defined.

(** *** Inputs on which the wording of the specification fails *)

(** C1: the command name is read, its own parsing throws on [--nope],
    and the flag is still [false]. *)
Lemma executed_iff_name_matched_counterexample :
  ¬ executed_iff_name_matched Example.app "app" ["build"; "--nope"] Example.st0.
Proof.
  intros Hspec.
  destruct (Hspec 0 Example.build 1 eq_refl) as [_ Hset].
  assert (Hread : ∃ rest parsed st1,
             AppWalk Example.app (["build"; "--nope"], ∅, Example.st0)
               (Command.name Example.build :: rest, parsed, st1)).
  { exists ["--nope"], ∅, Example.st0. apply rtc_refl. }
  specialize (Hset Hread). vm_compute in Hset. discriminate.
Qed.

(** The two further examples are what registration calls produce. *)
Lemma example_dbtool_constructible : constructible Example.dbtool.
Proof.
  pose (bare (n : string) := {| Command.options_ := []; Command.name_ := n |}).
  apply (constructible_addCommandOption defualtConfig 1 TString
           "--database-url" 0
           {| Application.options_ := [];
              Application.commands_ :=
                [(Example.migrate, 0); (bare "rollback", 1)] |});
    [|reflexivity].
  apply (constructible_addCommand defualtConfig "rollback" 1
           {| Application.options_ := [];
              Application.commands_ := [(Example.migrate, 0)] |}); [|reflexivity].
  apply (constructible_addCommandOption defualtConfig 0 TString
           "--database-url" 0
           {| Application.options_ := [];
              Application.commands_ := [(bare "migrate", 0)] |}); [|reflexivity].
  apply (constructible_addCommand defualtConfig "migrate" 0
           Application.createApp); [|reflexivity].
  apply constructible_createApp.
Qed.

Lemma example_aliased_constructible : constructible Example.aliased.
Proof.
  pose (bare (n : string) := {| Command.options_ := []; Command.name_ := n |}).
  apply (constructible_addCommand defualtConfig "second" 2
           {| Application.options_ := [Example.flag_a; Example.flag_b];
              Application.commands_ := [(bare "first", 1)] |}); [|reflexivity].
  apply (constructible_addCommand defualtConfig "first" 1
           {| Application.options_ := [Example.flag_a; Example.flag_b];
              Application.commands_ := [] |}); [|reflexivity].
  apply (constructible_addOption defualtConfig TBool "-b" 2
           {| Application.options_ := [Example.flag_a];
              Application.commands_ := [] |}); [|reflexivity].
  apply (constructible_addOption defualtConfig TBool "-a" 1
           Application.createApp); [|reflexivity].
  apply constructible_createApp.
Qed.

(** C2: the first [build] is the value of [--name]; the command gets
    what follows the second one.  And where the flags of two commands are
    also the targets of the options [-a] and [-b], the call on [-a -b]
    makes both flags true. *)
Lemma first_command_name_takes_rest_counterexample :
  ¬ first_command_name_takes_rest Example.app "app"
      ["--name"; "build"; "build"; "--nope"] ∅
  ∧ ¬ at_most_one_flag_becomes_true Example.aliased "app" ["-a"; "-b"]
        Example.aliased_st0.
Proof.
  split; intros Hspec.
  - destruct (Hspec ["--name"] "build" ["build"; "--nope"] 0 eq_refl eq_refl)
      as [st1 Hparse].
    { intros arg Harg. apply list_elem_of_singleton in Harg. subst arg.
      reflexivity. }
    rewrite processCommand_unfold in Hparse.
    change (Application.commands_ Example.app !! 0)
      with (Some (Example.build, 1)) in Hparse.
    cbv iota in Hparse.
    rewrite parseCommand_unfold, parseCommand_from_cons in Hparse.
    change (nameMap Example.build !! "build") with (@None nat) in Hparse.
    cbv iota in Hparse.
    apply (f_equal fst) in Hparse. vm_compute in Hparse. discriminate.
  - apply (Hspec 0 1 {| Command.options_ := []; Command.name_ := "first" |}
             {| Command.options_ := []; Command.name_ := "second" |} 1 2);
      try reflexivity; [discriminate|].
    split; vm_compute; reflexivity.
Qed.

(** C9: [migrate] and [rollback] bind their [--database-url] to the same
    string; the call on [migrate --database-url pg] matches the option of
    [migrate] only, and the string that the option of [rollback] is bound
    to has changed. *)
Lemma unmatched_options_keep_value_counterexample :
  ¬ unmatched_options_keep_value Example.dbtool "db-tool"
      ["migrate"; "--database-url"; "pg"] Example.dbtool_st0.
Proof.
  intros [_ Hspec].
  specialize (Hspec 1 Example.rollback 1 0 Example.database_url
                eq_refl eq_refl).
  assert (Hd : dispatched Example.dbtool
                 (["migrate"; "--database-url"; "pg"], ∅, Example.dbtool_st0)
                 0 ["--database-url"; "pg"] Example.dbtool_st0).
  { exists "migrate", ∅. split; [apply rtc_refl|reflexivity]. }
  assert (Hkept : (Application.parse Example.dbtool
                     ["db-tool"; "migrate"; "--database-url"; "pg"]
                     Example.dbtool_st0).2 !! Option.target Example.database_url
                  = Example.dbtool_st0 !! Option.target Example.database_url).
  { apply Hspec. intros (cmdArgs & st1 & Hd' & _).
    destruct (dispatched_unique _ _ _ _ _ _ _ _ Hd Hd') as (Hk & _).
    discriminate Hk. }
  vm_compute in Hkept. discriminate Hkept.
Qed.


(** C5: the last [-n] resolves to a value-needing option, but the
    option is already satisfied and the duplicate is reported. *)
Lemma last_value_option_insufficient_counterexample :
  ¬ last_value_option_insufficient Example.app "app" ["-n"; "5"; "-n"] ∅.
Proof.
  intros Hspec.
  destruct (Hspec ["-n"; "5"] "-n" 0 Example.number) as (st' & Hparse);
    [reflexivity..|].
  apply (f_equal fst) in Hparse. vm_compute in Hparse. discriminate.
Qed.

End example_facts.

(** * Further properties of [StringUtils::trim] *)

Section trim_facts.

Lemma trim_front_all_space (s : string) :
  all_chars CType.isspace s = true → StringUtils.trim_front s = String.length s.
Proof.
  induction s as [|c s IH]; [reflexivity|].
  cbn [all_chars StringUtils.trim_front String.length].
  intros [Hc Hs]%andb_prop. rewrite Hc, (IH Hs). reflexivity.
Qed.

Lemma trim_all_space (s : string) :
  all_chars CType.isspace s = true → StringUtils.trim s = "".
Proof.
  intros Hs. unfold StringUtils.trim, StringView.size.
  destruct s as [|c s]; [reflexivity|].
  cbn [StringView.empty]. rewrite (trim_front_all_space _ Hs), Nat.eqb_refl.
  reflexivity.
Qed.

(** Every string is white space only, or white space around a core that
    starts and ends with other characters. *)
Lemma trim_decompose (s : string) :
  all_chars CType.isspace s = true
  ∨ ∃ w1 core w2,
      s = w1 +:+ core +:+ w2
      ∧ all_chars CType.isspace w1 = true
      ∧ all_chars CType.isspace w2 = true
      ∧ StringUtils.isspace_at core 0 = false
      ∧ StringUtils.isspace_at core (String.length core - 1) = false
      ∧ core ≠ "".
Proof.
  induction s as [|c s IH]; [left; reflexivity|].
  destruct (CType.isspace c) eqn:Hc.
  - destruct IH as [Hs|(w1 & core & w2 & -> & Hw1 & Hw2 & Hf & Hl & Hne)].
    + left. cbn [all_chars]. rewrite Hc, Hs. reflexivity.
    + right. exists (String c w1), core, w2.
      split; [reflexivity|].
      split; [cbn [all_chars]; rewrite Hc, Hw1; reflexivity|].
      repeat split; assumption.
  - right.
    destruct IH as [Hs|(w1 & core & w2 & -> & Hw1 & Hw2 & Hf & Hl & Hne)].
    + exists "", (String c ""), s.
      assert (Hat : StringUtils.isspace_at (String c "") 0 = false)
        by (unfold StringUtils.isspace_at; cbn; exact Hc).
      split; [reflexivity|]. split; [reflexivity|]. split; [exact Hs|].
      split; [exact Hat|]. split; [exact Hat|discriminate].
    + exists "", (String c (w1 +:+ core)), w2.
      assert (Hk : 1 ≤ String.length core)
        by (destruct core; [congruence|simpl; lia]).
      split.
      { change ("" +:+ String c (w1 +:+ core) +:+ w2)
          with (String c ((w1 +:+ core) +:+ w2)).
        rewrite append_assoc. reflexivity. }
      split; [reflexivity|]. split; [exact Hw2|].
      split; [unfold StringUtils.isspace_at; cbn; exact Hc|].
      split; [|discriminate].
      unfold StringUtils.isspace_at in *.
      cbn [String.length]. rewrite length_append.
      replace (S (String.length w1 + String.length core) - 1)
        with (S (String.length w1 + (String.length core - 1))) by lia.
      cbn [String.get]. rewrite get_append_r. exact Hl.
Qed.

Lemma core_not_all_space (core : string) :
  StringUtils.isspace_at core 0 = false → core ≠ "" →
  all_chars CType.isspace core = false.
Proof.
  intros Hf Hne. destruct core as [|c r]; [congruence|].
  unfold StringUtils.isspace_at in Hf. cbn in Hf.
  cbn [all_chars]. rewrite Hf. reflexivity.
Qed.

(** X1. [trim] removes the white space around a core that starts and ends
    with characters other than white space, and nothing else: white space
    inside the core is kept. *)
Theorem trim_removes_exactly_the_padding (w1 core w2 : string) :
  all_chars CType.isspace w1 = true →
  all_chars CType.isspace w2 = true →
  StringUtils.isspace_at core 0 = false →
  StringUtils.isspace_at core (String.length core - 1) = false →
  core ≠ "" →
  StringUtils.trim (w1 +:+ core +:+ w2) = core.
Proof. apply trim_padded. Qed.

Lemma trim_removes_exactly_the_padding_witness :
  StringUtils.trim "  hello world  " = "hello world".
Proof.
  apply (trim_removes_exactly_the_padding "  " "hello world" "  ");
    try reflexivity. discriminate.
Defined.

(** X2. [trim] is idempotent; its result is empty exactly when the input
    is white space only (the empty string included), and otherwise starts
    and ends with a character that is not white space. *)
Theorem trim_idempotent_and_tight (s : string) :
  StringUtils.trim (StringUtils.trim s) = StringUtils.trim s
  ∧ (StringUtils.trim s = "" ↔ all_chars CType.isspace s = true)
  ∧ (StringUtils.trim s = ""
     ∨ (StringUtils.isspace_at (StringUtils.trim s) 0 = false
        ∧ StringUtils.isspace_at (StringUtils.trim s)
            (String.length (StringUtils.trim s) - 1) = false)).
Proof.
  destruct (trim_decompose s)
    as [Hs|(w1 & core & w2 & -> & Hw1 & Hw2 & Hf & Hl & Hne)].
  - rewrite (trim_all_space _ Hs). repeat split; auto.
  - rewrite (trim_padded w1 core w2 Hw1 Hw2 Hf Hl Hne).
    split; [|split].
    + replace core with ("" +:+ core +:+ "") at 1
        by (change ("" +:+ core +:+ "") with (core +:+ ""); apply append_empty_r).
      apply trim_padded; auto.
    + split; [intros ->; congruence|].
      rewrite !all_chars_append, (core_not_all_space core Hf Hne).
      cbn [andb]. rewrite andb_false_r. discriminate.
    + right. split; assumption.
Qed.

End trim_facts.

(** * Further properties of name validation and of the factories *)

Section factory_facts.
Variable options : NameValidationConfig.

Lemma validateName_from_spec (name rest : string) :
  NameValidations.validateName_from options name rest false
  = if all_chars (policy_char options) rest then Ok tt
    else Throw (BuildExceptions.invalidName name).
Proof.
  induction rest as [|c r IH]; [reflexivity|].
  cbn [all_chars NameValidations.validateName_from].
  rewrite validChar_policy. cbn [andb].
  destruct (policy_char options c); [exact IH|reflexivity].
Qed.

Lemma validateName_cases (name : string) :
  NameValidations.validateName options name
  = (if StringView.empty name
     then Throw (BuildExceptions.emptyName "Argument name")
     else if alpha_first name && all_chars (policy_char options) name
     then Ok tt
     else Throw (BuildExceptions.invalidName name))
  ∧ (NameValidations.validateName options name = Ok tt
     ↔ policy_name options name).
Proof.
  assert (Heq : NameValidations.validateName options name
                = (if StringView.empty name
                   then Throw (BuildExceptions.emptyName "Argument name")
                   else if alpha_first name
                           && all_chars (policy_char options) name
                   then Ok tt
                   else Throw (BuildExceptions.invalidName name))).
  { unfold NameValidations.validateName. destruct name as [|c r]; [reflexivity|].
    cbn [StringView.empty NameValidations.validateName_from alpha_first all_chars].
    rewrite validChar_policy. cbn [NameValidations.validChar].
    destruct (CType.isalpha c); cbn [andb negb]; [|reflexivity].
    destruct (policy_char options c); cbn [andb negb]; [|reflexivity].
    apply validateName_from_spec. }
  split; [exact Heq|]. rewrite Heq. unfold policy_name.
  destruct name as [|c r]; cbn [StringView.empty].
  - split; [discriminate|]. intros [Hf _]. discriminate.
  - destruct (alpha_first (String c r)); cbn [andb].
    + destruct (all_chars (policy_char options) (String c r)).
      * split; auto.
      * split; [discriminate|]. intros [_ Hf]. discriminate.
    + split; [discriminate|]. intros [Hf _]. discriminate.
Qed.

(** X3. [NameValidations::validateName] returns exactly on the
    alphabetic-first names whose characters the policy allows; it throws
    [emptyName] on the empty name and [invalidName], carrying the name,
    on every other one. *)
Theorem validateName_exact (name : string) :
  NameValidations.validateName options name
  = (if StringView.empty name
     then Throw (BuildExceptions.emptyName "Argument name")
     else if alpha_first name && all_chars (policy_char options) name
     then Ok tt
     else Throw (BuildExceptions.invalidName name))
  ∧ (NameValidations.validateName options name = Ok tt
     ↔ policy_name options name).
Proof. apply validateName_cases. Qed.

Lemma validateName_Ok_inv (name : string) :
  NameValidations.validateName options name = Ok tt → policy_name options name.
Proof. apply validateName_cases. Qed.

Lemma validateSize_short_Ok (name : string) :
  NameValidations.validateSize options name true = Ok tt →
  1 ≤ String.length name ≤ shortNameLimit options.
Proof.
  intros Hok.
  assert (Hn : ¬ throws (NameValidations.validateSize options name true))
    by (intros [e He]; congruence).
  rewrite validateSize_short in Hn. lia.
Qed.

Lemma validateSize_long_Ok (name : string) :
  NameValidations.validateSize options name false = Ok tt →
  shortNameLimit options < String.length name ≤ longNameLimit options.
Proof.
  intros Hok.
  assert (Hn : ¬ throws (NameValidations.validateSize options name false))
    by (intros [e He]; congruence).
  rewrite validateSize_long in Hn. lia.
Qed.

Lemma result_bind_Ok {A B : Type} (r : result A) (f : A → result B) (b : B) :
  r ≫= f = Ok b → ∃ a, r = Ok a ∧ f a = Ok b.
Proof.
  destruct r as [e|a]; cbn [mbind result_bind]; [discriminate|].
  intros Hf. exists a. split; [reflexivity|exact Hf].
Qed.

(** What [Option::validateName] hands back when it returns. *)
Lemma Option_validateName_Ok (name s l : string) :
  Option.validateName options name = Ok (s, l) →
  (s = "" ∨ valid_short options s)
  ∧ (l = "" ∨ valid_long options l)
  ∧ (s ≠ "" ∨ l ≠ "").
Proof.
  unfold Option.validateName.
  destruct (StringView.empty name); [discriminate|].
  destruct (StringView.empty (StringUtils.trim name)); [discriminate|].
  destruct (StringView.find (StringUtils.trim name) ",") as [separator|].
  - destruct (StringView.empty _); [discriminate|].
    destruct (StringView.empty _); [discriminate|].
    intros Hb.
    apply result_bind_Ok in Hb as ([] & Hn1 & Hb).
    apply result_bind_Ok in Hb as ([] & Hn2 & Hb).
    apply result_bind_Ok in Hb as ([] & Hs1 & Hb).
    apply result_bind_Ok in Hb as ([] & Hs2 & Hb).
    injection Hb as <- <-.
    pose proof (validateSize_short_Ok _ Hs1) as Hlen.
    split; [right; split; [apply validateName_Ok_inv, Hn1|exact Hlen]|].
    split; [right; split;
            [apply validateName_Ok_inv, Hn2|apply validateSize_long_Ok, Hs2]|].
    left. intros Heq. rewrite Heq in Hlen. simpl in Hlen. lia.
  - match goal with
    | |- context [let '(data, isShort) := ?p in _] => destruct p as [data isShort]
    end.
    intros Hb.
    apply result_bind_Ok in Hb as ([] & Hsz & Hb).
    apply result_bind_Ok in Hb as ([] & Hnm & Hb).
    apply validateName_Ok_inv in Hnm.
    pose proof (policy_name_nonempty options _ Hnm) as Hne.
    assert (Hnonempty : StringUtils.trim data ≠ "")
      by (intros Heq; rewrite Heq in Hne; simpl in Hne; lia).
    destruct isShort; injection Hb as <- <-.
    + split; [right; split; [exact Hnm|apply validateSize_short_Ok, Hsz]|].
      split; [left; reflexivity|left; exact Hnonempty].
    + split; [left; reflexivity|].
      split; [right; split; [exact Hnm|apply validateSize_long_Ok, Hsz]|].
      right. exact Hnonempty.
Qed.

Lemma createOption_returns_valid_names_aux
    (V : Ty) (name : string) (var : nat) (opt : Option.t) :
  Option.createOption options V name var = Ok opt →
  (Option.shortName opt = ""
   ∨ ∃ s, Option.shortName opt = "-" +:+ s ∧ valid_short options s)
  ∧ (Option.longName opt = ""
     ∨ ∃ l, Option.longName opt = "--" +:+ l ∧ valid_long options l).
Proof.
  unfold Option.createOption. intros Hb.
  apply result_bind_Ok in Hb as ([s l] & Hv & Hb). injection Hb as <-.
  destruct (Option_validateName_Ok _ _ _ Hv) as (Hs & Hl & _).
  unfold Option.shortName, Option.longName.
  cbn [Option.shortName_ Option.longName_]. split.
  - destruct s as [|c s]; [left; reflexivity|right].
    exists (String c s). split; [reflexivity|].
    destruct Hs as [Hs|Hs]; [discriminate|exact Hs].
  - destruct l as [|c l]; [left; reflexivity|right].
    exists (String c l). split; [reflexivity|].
    destruct Hl as [Hl|Hl]; [discriminate|exact Hl].
Qed.

(** X4. An option that [createOption] returns is bound to the given
    variable, takes no value exactly when its type is [bool], and has at
    least one name; its short name is absent or a dash before a name the
    policy accepts as short, its long name is absent or two dashes before
    a name the policy accepts as long. *)
Theorem createOption_returns_valid_names
    (V : Ty) (name : string) (var : nat) (opt : Option.t) :
  Option.createOption options V name var = Ok opt →
  Option.target opt = (V, var)
  ∧ (Option.needsValue opt = false ↔ V = TBool)
  ∧ (Option.shortName opt = ""
     ∨ ∃ s, Option.shortName opt = "-" +:+ s ∧ valid_short options s)
  ∧ (Option.longName opt = ""
     ∨ ∃ l, Option.longName opt = "--" +:+ l ∧ valid_long options l)
  ∧ (Option.shortName opt ≠ "" ∨ Option.longName opt ≠ "").
Proof.
  unfold Option.createOption. intros Hb.
  apply result_bind_Ok in Hb as ([s l] & Hv & Hb). injection Hb as <-.
  destruct (Option_validateName_Ok _ _ _ Hv) as (Hs & Hl & Hsome).
  unfold Option.target, Option.needsValue, Option.shortName, Option.longName.
  cbn [Option.valueTy Option.value_ Option.needsValue_ Option.shortName_
       Option.longName_].
  split; [reflexivity|]. split.
  { destruct (decide (V = TBool)); split; intros; congruence. }
  split; [|split].
  - destruct s as [|c s]; [left; reflexivity|right].
    exists (String c s). split; [reflexivity|].
    destruct Hs as [Hs|Hs]; [discriminate|exact Hs].
  - destruct l as [|c l]; [left; reflexivity|right].
    exists (String c l). split; [reflexivity|].
    destruct Hl as [Hl|Hl]; [discriminate|exact Hl].
  - destruct Hsome as [Hne|Hne]; [left|right].
    + destruct s; [congruence|discriminate].
    + destruct l; [congruence|discriminate].
Qed.

End factory_facts.

Lemma createOption_returns_valid_names_witness :
  Option.target Example.number = (TInt Int32, 0)
  ∧ (Option.needsValue Example.number = false ↔ TInt Int32 = TBool)
  ∧ (Option.shortName Example.number = ""
     ∨ ∃ s, Option.shortName Example.number = "-" +:+ s
            ∧ valid_short defualtConfig s)
  ∧ (Option.longName Example.number = ""
     ∨ ∃ l, Option.longName Example.number = "--" +:+ l
            ∧ valid_long defualtConfig l)
  ∧ (Option.shortName Example.number ≠ "" ∨ Option.longName Example.number ≠ "").
Proof.
  apply (createOption_returns_valid_names defualtConfig (TInt Int32)
           "-n,--number" 0 Example.number).
  reflexivity.
Defined.

(** * Commands and name maps *)

Section registration_facts.

Lemma createCommand_cases (options : NameValidationConfig) (name : string) :
  (valid_long options name
   ∧ Command.createCommand options name
     = Ok {| Command.options_ := []; Command.name_ := name |})
  ∨ (¬ valid_long options name ∧ throws (Command.createCommand options name)).
Proof.
  unfold Command.createCommand, valid_long.
  destruct (proj2 (validateName_cases options name)) as [Hto Hfrom].
  destruct (NameValidations.validateName options name) as [e|[]] eqn:Hn.
  - right. split; [|exists e; reflexivity].
    intros [Hp _]. specialize (Hfrom Hp). discriminate.
  - cbn [mbind result_bind].
    destruct (NameValidations.validateSize options name false) as [e|[]] eqn:Hs.
    + right. split; [|exists e; reflexivity].
      intros [_ Hlen].
      assert (Ht : throws (NameValidations.validateSize options name false))
        by (exists e; exact Hs).
      rewrite validateSize_long in Ht. lia.
    + left. split; [|reflexivity].
      split; [apply Hto; reflexivity|apply validateSize_long_Ok, Hs].
Qed.

(** X5. [createCommand] returns, with the given name and no option,
    exactly on the names the policy accepts as long names; on every other
    name it throws. *)
Theorem createCommand_exact (options : NameValidationConfig) (name : string) :
  (valid_long options name
   ∧ Command.createCommand options name
     = Ok {| Command.options_ := []; Command.name_ := name |})
  ∨ (¬ valid_long options name ∧ throws (Command.createCommand options name)).
Proof. apply createCommand_cases. Qed.

Lemma alpha_first_not_dash (name : string) :
  alpha_first name = true → StringView.front_is name "-" = false.
Proof.
  destruct name as [|c r]; [discriminate|].
  cbn [alpha_first StringView.front_is]. intros Hc.
  destruct (Ascii.eqb c "-") eqn:E; [|reflexivity].
  apply Ascii.eqb_eq in E. subst c. discriminate Hc.
Qed.

Lemma createOption_dashed (options : NameValidationConfig) (V : Ty)
    (spec : string) (var : nat) (opt : Option.t) :
  Option.createOption options V spec var = Ok opt → dashed opt.
Proof.
  intros Hc name [Hne Hname].
  destruct (createOption_returns_valid_names_aux options V spec var opt Hc)
    as (Hs & Hl).
  destruct Hname as [->| ->].
  - destruct Hs as [Hs|(x & -> & _)]; [rewrite Hs in Hne; discriminate|reflexivity].
  - destruct Hl as [Hl|(x & -> & _)]; [rewrite Hl in Hne; discriminate|reflexivity].
Qed.

(** X6. A command name is never an alias of an option: whatever the
    policies in force when the two were created, the name [createCommand]
    accepted differs from the short and from the long name of any option
    [createOption] returned. *)
Theorem command_name_is_no_option_alias
    (options options' : NameValidationConfig) (V : Ty) (spec : string)
    (var : nat) (opt : Option.t) (name : string) (cmd : Command.t) :
  Option.createOption options V spec var = Ok opt →
  Command.createCommand options' name = Ok cmd →
  Command.name cmd ≠ Option.shortName opt
  ∧ Command.name cmd ≠ Option.longName opt.
Proof.
  intros Hopt Hcmd.
  pose proof (createOption_dashed _ _ _ _ _ Hopt) as Hdash.
  destruct (createCommand_cases options' name) as [[[[Hfirst _] _] Heq]|[_ [e He]]];
    [|congruence].
  rewrite Heq in Hcmd. injection Hcmd as <-. cbn [Command.name Command.name_].
  pose proof (alpha_first_not_dash _ Hfirst) as Hnd.
  assert (Hne : StringView.empty name = false)
    by (destruct name; [discriminate|reflexivity]).
  split; intros Heq'.
  - rewrite (Hdash name) in Hnd; [discriminate|].
    split; [exact Hne|left; exact Heq'].
  - rewrite (Hdash name) in Hnd; [discriminate|].
    split; [exact Hne|right; exact Heq'].
Qed.

End registration_facts.

Lemma command_name_is_no_option_alias_witness :
  Command.name Example.build ≠ Option.shortName Example.port
  ∧ Command.name Example.build ≠ Option.longName Example.port.
Proof.
  apply (command_name_is_no_option_alias defualtConfig defualtConfig
           (TInt UInt16) "-p,--port" 0 Example.port "build"
           {| Command.options_ := []; Command.name_ := "build" |});
    reflexivity.
Defined.

Section name_map_facts.
Context `{Registry}.

Lemma registerNames_sound (opts : list Option.t) (idx : nat)
    (m : gmap string nat) (name : string) (k : nat) :
  registerNames opts idx m !! name = Some k →
  m !! name = Some k
  ∨ ∃ i opt, k = idx + i ∧ opts !! i = Some opt ∧ names_of opt name.
Proof.
  revert idx m. induction opts as [|o opts IH]; intros idx m Hk; [left; exact Hk|].
  cbn [registerNames] in Hk.
  destruct (IH _ _ Hk) as [Hm|(i & opt & -> & Hi & Hn)].
  - rewrite registerNames_step in Hm.
    destruct (decide (names_of o name)) as [Hn|_]; [|left; exact Hm].
    right. exists 0, o. injection Hm as <-.
    split; [lia|]. split; [reflexivity|exact Hn].
  - right. exists (S i), opt. split; [lia|]. split; assumption.
Qed.

Lemma registerNames_None (opts : list Option.t) (idx : nat)
    (m : gmap string nat) (name : string) :
  registerNames opts idx m !! name = None
  ↔ m !! name = None
    ∧ ∀ i opt, opts !! i = Some opt → ¬ names_of opt name.
Proof.
  revert idx m. induction opts as [|o opts IH]; intros idx m.
  - cbn [registerNames]. split; [|intros [Hm _]; exact Hm].
    intros Hm. split; [exact Hm|]. intros i opt Hi. discriminate.
  - cbn [registerNames]. rewrite IH, registerNames_step.
    destruct (decide (names_of o name)) as [Hn|Hn].
    + split; [intros [Hm _]; discriminate|].
      intros [_ Hall]. destruct (Hall 0 o eq_refl Hn).
    + split.
      * intros [Hm Hall]. split; [exact Hm|].
        intros [|i] opt Hi; [injection Hi as <-; exact Hn|].
        apply (Hall i opt Hi).
      * intros [Hm Hall]. split; [exact Hm|].
        intros i opt Hi. apply (Hall (S i) opt Hi).
Qed.

Lemma registerCommands_sound (cmds : list (Command.t * nat)) (idx : nat)
    (m : gmap string nat) (name : string) (k : nat) :
  Application.registerCommands cmds idx m !! name = Some k →
  m !! name = Some k
  ∨ ∃ i cmd executed,
      k = idx + i ∧ cmds !! i = Some (cmd, executed) ∧ Command.name cmd = name.
Proof.
  revert idx m. induction cmds as [|[c e] cmds IH]; intros idx m Hk;
    [left; exact Hk|].
  cbn [Application.registerCommands] in Hk.
  destruct (IH _ _ Hk) as [Hm|(i & cmd & executed & -> & Hi & Hn)].
  - destruct (decide (Command.name c = name)) as [Heq|Hne].
    + rewrite Heq, lookup_insert_eq in Hm. injection Hm as <-.
      right. exists 0, c, e. split; [lia|]. split; [reflexivity|exact Heq].
    + rewrite lookup_insert_ne in Hm by exact Hne. left. exact Hm.
  - right. exists (S i), cmd, executed. split; [lia|]. split; assumption.
Qed.

Lemma registerCommands_None (cmds : list (Command.t * nat)) (idx : nat)
    (m : gmap string nat) (name : string) :
  Application.registerCommands cmds idx m !! name = None
  ↔ m !! name = None
    ∧ ∀ i cmd executed, cmds !! i = Some (cmd, executed) → Command.name cmd ≠ name.
Proof.
  revert idx m. induction cmds as [|[c e] cmds IH]; intros idx m.
  - cbn [Application.registerCommands]. split; [|intros [Hm _]; exact Hm].
    intros Hm. split; [exact Hm|]. intros i cmd executed Hi. discriminate.
  - cbn [Application.registerCommands]. rewrite IH.
    destruct (decide (Command.name c = name)) as [Heq|Hne].
    + rewrite Heq, lookup_insert_eq.
      split; [intros [Hm _]; discriminate|].
      intros [_ Hall]. destruct (Hall 0 c e eq_refl Heq).
    + rewrite lookup_insert_ne by exact Hne. split.
      * intros [Hm Hall]. split; [exact Hm|].
        intros [|i] cmd executed Hi; [injection Hi as <- <-; exact Hne|].
        apply (Hall i cmd executed Hi).
      * intros [Hm Hall]. split; [exact Hm|].
        intros i cmd executed Hi. apply (Hall (S i) cmd executed Hi).
Qed.

Lemma optionMap_sound (app : Application.t) (name : string) (k : nat) :
  optionMap app !! name = Some k →
  ∃ opt, Application.options_ app !! k = Some opt ∧ names_of opt name.
Proof.
  intros Hk. destruct (registerNames_sound _ _ _ _ _ Hk)
    as [Hm|(i & opt & -> & Hi & Hn)]; [rewrite lookup_empty in Hm; discriminate|].
  exists opt. split; assumption.
Qed.

Lemma commandMap_sound (app : Application.t) (name : string) (k : nat) :
  commandMap app !! name = Some k →
  ∃ cmd executed,
    Application.commands_ app !! k = Some (cmd, executed)
    ∧ Command.name cmd = name.
Proof.
  intros Hk. destruct (registerCommands_sound _ _ _ _ _ Hk)
    as [Hm|(i & cmd & e & -> & Hi & Hn)]; [rewrite lookup_empty in Hm; discriminate|].
  exists cmd, e. split; assumption.
Qed.

(** X7. The maps built by [buildReconMaps] and by [parseCommand] are
    sound and complete: a name is mapped to an index exactly when some
    registered option (or command) bears it, and the index it is mapped to
    is that of an option (or command) bearing it.  The bounds-checked
    [at] accesses of [parse] and [parseCommand] therefore never fail. *)
Theorem name_maps_sound_and_complete (app : Application.t) (cmd : Command.t)
    (name : string) :
  (∀ k, optionMap app !! name = Some k →
        ∃ opt, Application.options_ app !! k = Some opt ∧ names_of opt name)
  ∧ (optionMap app !! name = None
     ↔ ∀ i opt, Application.options_ app !! i = Some opt → ¬ names_of opt name)
  ∧ (∀ k, commandMap app !! name = Some k →
          ∃ c executed, Application.commands_ app !! k = Some (c, executed)
                        ∧ Command.name c = name)
  ∧ (commandMap app !! name = None
     ↔ ∀ i c executed, Application.commands_ app !! i = Some (c, executed) →
                       Command.name c ≠ name)
  ∧ (∀ k, nameMap cmd !! name = Some k →
          ∃ opt, Command.options_ cmd !! k = Some opt ∧ names_of opt name)
  ∧ (nameMap cmd !! name = None
     ↔ ∀ i opt, Command.options_ cmd !! i = Some opt → ¬ names_of opt name).
Proof.
  split; [apply optionMap_sound|].
  split.
  { unfold optionMap. cbn [Application.buildReconMaps fst].
    rewrite registerNames_None, lookup_empty. tauto. }
  split; [apply commandMap_sound|].
  split.
  { unfold commandMap. cbn [Application.buildReconMaps snd].
    rewrite registerCommands_None, lookup_empty. tauto. }
  split.
  { intros k Hk. destruct (registerNames_sound _ _ _ _ _ Hk)
      as [Hm|(i & opt & -> & Hi & Hn)];
      [rewrite lookup_empty in Hm; discriminate|].
    exists opt. split; assumption. }
  unfold nameMap. rewrite registerNames_None, lookup_empty. tauto.
Qed.

(** *** Applications built through the interface *)

Lemma constructible_wfNames (app : Application.t) :
  constructible app → wfNames app.
Proof.
  induction 1 as [|options V name var app app' _ [IHo IHc] Hadd
                  |options name var app app' _ [IHo IHc] Hadd
                  |options cmdIdx V name var app app' _ [IHo IHc] Hadd].
  - split; constructor.
  - unfold Application.addOption in Hadd.
    destruct (Option.createOption options V name var) as [e|opt] eqn:Hc;
      [discriminate|].
    cbn [mbind result_bind] in Hadd. injection Hadd as <-.
    split; [|exact IHc]. cbn [Application.options_].
    apply Forall_app. split; [exact IHo|].
    constructor; [|constructor]. eapply createOption_dashed, Hc.
  - unfold Application.addCommand in Hadd.
    destruct (createCommand_cases options name) as [[[[Hfirst _] _] Heq]|[_ [e He]]].
    + rewrite Heq in Hadd. cbn [mbind result_bind] in Hadd. injection Hadd as <-.
      split; [exact IHo|]. cbn [Application.commands_].
      apply Forall_app. split; [exact IHc|].
      constructor; [|constructor]. cbn [fst Command.name Command.name_ Command.options_].
      split; [exact Hfirst|constructor].
    + rewrite He in Hadd. discriminate.
  - unfold Application.addCommandOption in Hadd.
    destruct (Application.commands_ app !! cmdIdx) as [[cmd executed]|] eqn:Hk;
      [|discriminate].
    unfold Command.addOption in Hadd.
    destruct (Option.createOption options V name var) as [e|opt] eqn:Hc;
      [discriminate|].
    cbn [mbind result_bind] in Hadd. injection Hadd as <-.
    split; [exact IHo|]. cbn [Application.commands_].
    apply Forall_insert; [exact IHc|].
    destruct (proj1 (Forall_lookup _ _) IHc cmdIdx _ Hk) as [Hfirst Hopts].
    cbn [fst Command.name Command.name_ Command.options_] in *.
    split; [exact Hfirst|].
    apply Forall_app. split; [exact Hopts|].
    constructor; [|constructor]. eapply createOption_dashed, Hc.
Qed.

(** X8. In an application built through [createApp], [addOption],
    [addCommand] and command-level [addOption], no token is both a
    command name and an option name. *)
Theorem command_and_option_names_disjoint (app : Application.t)
    (name : string) (k : nat) :
  constructible app →
  commandMap app !! name = Some k →
  optionMap app !! name = None.
Proof.
  intros Hbuilt Hk.
  destruct (constructible_wfNames _ Hbuilt) as [Hopts Hcmds].
  destruct (commandMap_sound _ _ _ Hk) as (cmd & executed & Hcmd & Hname).
  destruct (proj1 (Forall_lookup _ _) Hcmds k _ Hcmd) as [Hfirst _].
  cbn [fst] in Hfirst. rewrite Hname in Hfirst.
  destruct (optionMap app !! name) as [j|] eqn:Hj; [|reflexivity].
  destruct (optionMap_sound _ _ _ Hj) as (opt & Hopt & Hn).
  pose proof (proj1 (Forall_lookup _ _) Hopts j _ Hopt name Hn) as Hdash.
  rewrite (alpha_first_not_dash _ Hfirst) in Hdash. discriminate.
Qed.

End name_map_facts.

Lemma command_and_option_names_disjoint_witness :
  optionMap Example.app !! "build" = None.
Proof.
  apply (command_and_option_names_disjoint Example.app "build" 0).
  - apply example_constructible.
  - vm_compute. reflexivity.
Defined.

(** * Registration *)

Section add_facts.

Lemma registerNames_app (l l' : list Option.t) (idx : nat) (m : gmap string nat) :
  registerNames (l ++ l') idx m
  = registerNames l' (idx + length l) (registerNames l idx m).
Proof.
  revert idx m. induction l as [|o l IH]; intros idx m.
  - cbn [app length registerNames]. f_equal. lia.
  - cbn [app length registerNames]. rewrite IH. f_equal. lia.
Qed.

Lemma registerCommands_app (l l' : list (Command.t * nat)) (idx : nat)
    (m : gmap string nat) :
  Application.registerCommands (l ++ l') idx m
  = Application.registerCommands l' (idx + length l)
      (Application.registerCommands l idx m).
Proof.
  revert idx m. induction l as [|[c e] l IH]; intros idx m.
  - cbn [app length Application.registerCommands]. f_equal. lia.
  - cbn [app length Application.registerCommands]. rewrite IH. f_equal. lia.
Qed.



(** X10. [Application::addCommand] appends a command without options,
    paired with the caller's flag; its name is mapped to the new index from
    then on, also when an earlier command bore it, every other name keeps
    its index, and the global options are untouched. *)
Theorem addCommand_appends_and_shadows (options : NameValidationConfig)
    (name : string) (var : nat) (app app' : Application.t) :
  Application.addCommand options name var app = Ok app' →
  Application.commands_ app'
  = Application.commands_ app
    ++ [({| Command.options_ := []; Command.name_ := name |}, var)]
  ∧ Application.options_ app' = Application.options_ app
  ∧ optionMap app' = optionMap app
  ∧ ∀ n,
      commandMap app' !! n
      = if decide (n = name)
        then Some (length (Application.commands_ app))
        else commandMap app !! n.
Proof.
  unfold Application.addCommand. intros Hadd.
  destruct (createCommand_cases options name) as [[_ Heq]|[_ [e He]]];
    [|rewrite He in Hadd; discriminate].
  rewrite Heq in Hadd. cbn [mbind result_bind] in Hadd. injection Hadd as <-.
  do 3 (split; [reflexivity|]).
  intros n. unfold commandMap.
  cbn [Application.buildReconMaps Application.commands_ snd].
  rewrite registerCommands_app.
  cbn [Application.registerCommands Command.name Command.name_].
  destruct (decide (n = name)) as [->|Hne].
  - rewrite lookup_insert_eq. reflexivity.
  - rewrite lookup_insert_ne by congruence. reflexivity.
Qed.

Lemma addCommand_appends_and_shadows_witness :
  Application.commands_
    {| Application.options_ := [Example.number; Example.verbose; Example.name];
       Application.commands_ :=
         [(Example.build, 1);
          ({| Command.options_ := []; Command.name_ := "build" |}, 2)] |}
  = Application.commands_ Example.app
    ++ [({| Command.options_ := []; Command.name_ := "build" |}, 2)]
  ∧ Application.options_
      {| Application.options_ := [Example.number; Example.verbose; Example.name];
         Application.commands_ :=
           [(Example.build, 1);
            ({| Command.options_ := []; Command.name_ := "build" |}, 2)] |}
    = Application.options_ Example.app
  ∧ optionMap
      {| Application.options_ := [Example.number; Example.verbose; Example.name];
         Application.commands_ :=
           [(Example.build, 1);
            ({| Command.options_ := []; Command.name_ := "build" |}, 2)] |}
    = optionMap Example.app
  ∧ ∀ n,
      commandMap
        {| Application.options_ := [Example.number; Example.verbose; Example.name];
           Application.commands_ :=
             [(Example.build, 1);
              ({| Command.options_ := []; Command.name_ := "build" |}, 2)] |} !! n
      = if decide (n = "build")
        then Some (length (Application.commands_ Example.app))
        else commandMap Example.app !! n.
Proof.
  apply (addCommand_appends_and_shadows defualtConfig "build" 2 Example.app).
  reflexivity.
Defined.

End add_facts.

(** * The integer converters *)

Section converter_facts.
Context `{Registry}.
Local Open Scope Z_scope.

Lemma stoull_toString (z : Z) :
  0 <= z <= 2 ^ 64 - 1 →
  StdString.stoull (NumberUtils.toString z) = Ok z.
Proof.
  intros Hz. unfold StdString.stoull. rewrite read_number_toString.
  rewrite bool_decide_eq_false_2 by lia.
  rewrite Z.abs_eq by lia.
  destruct (2 ^ 64 - 1 <? z) eqn:E; [apply Z.ltb_lt in E; lia|].
  reflexivity.
Qed.

Lemma getLimits_64 (T : IntTy) :
  (if IsSignedInteger T
   then - 2 ^ 63 <= (NumberUtils.getLimits T).1
        ∧ (NumberUtils.getLimits T).2 <= 2 ^ 63 - 1
   else 0 = (NumberUtils.getLimits T).1
        ∧ (NumberUtils.getLimits T).2 <= 2 ^ 64 - 1).
Proof. destruct T; cbn; lia. Qed.

Lemma fromStr_int_round_trip (T : IntTy) (z : Z) :
  (NumberUtils.getLimits T).1 <= z <= (NumberUtils.getLimits T).2 →
  Conversions.fromStr (TInt T) (NumberUtils.toString z) = Ok (VInt z).
Proof.
  intros Hz. rewrite fromStr_int_unfold.
  pose proof (getLimits_64 T) as H64.
  destruct (IsSignedInteger T).
  - rewrite stoll_toString by lia.
    destruct (z <? (NumberUtils.getLimits T).1) eqn:E1; [apply Z.ltb_lt in E1; lia|].
    destruct ((NumberUtils.getLimits T).2 <? z) eqn:E2; [apply Z.ltb_lt in E2; lia|].
    reflexivity.
  - rewrite stoull_toString by lia.
    destruct (z <? (NumberUtils.getLimits T).1) eqn:E1; [apply Z.ltb_lt in E1; lia|].
    destruct ((NumberUtils.getLimits T).2 <? z) eqn:E2; [apply Z.ltb_lt in E2; lia|].
    reflexivity.
Qed.

(** X11. For each of the eight integer types, the converter reads the
    decimal rendering of any value within the limits of the type back to
    that value. *)
Theorem fromStr_reads_back_toString (T : IntTy) (z : Z) :
  (NumberUtils.getLimits T).1 <= z <= (NumberUtils.getLimits T).2 →
  Conversions.fromStr (TInt T) (NumberUtils.toString z) = Ok (VInt z).
Proof. apply fromStr_int_round_trip. Qed.

(** X12. An integer converter returns only values within the limits of
    its type.  When it does not return, it throws the library's range error
    for a parsed value outside these limits, or the base parse's
    [std::invalid_argument] (no digit was read) or [std::out_of_range]
    escapes unchanged. *)
Theorem fromStr_int_outcomes (T : IntTy) (str : string) :
  (∃ v, Conversions.fromStr (TInt T) str = Ok (VInt v)
        ∧ (NumberUtils.getLimits T).1 <= v <= (NumberUtils.getLimits T).2)
  ∨ (∃ v, Conversions.fromStr (TInt T) str
          = Throw (ParseExceptions.outOfRange T v)
          ∧ (v < (NumberUtils.getLimits T).1 ∨ (NumberUtils.getLimits T).2 < v))
  ∨ (∃ what, Conversions.fromStr (TInt T) str = Throw (StdInvalidArgument what)
             ∧ StdString.read_number str = None)
  ∨ (∃ what, Conversions.fromStr (TInt T) str = Throw (StdOutOfRange what)).
Proof.
  rewrite fromStr_int_unfold.
  assert (Hcheck : ∀ v,
    (∃ v', (if (v <? (NumberUtils.getLimits T).1)
               || ((NumberUtils.getLimits T).2 <? v)
            then Throw (ParseExceptions.outOfRange T v)
            else Ok (VInt v)) = Ok (VInt v')
           ∧ (NumberUtils.getLimits T).1 <= v' <= (NumberUtils.getLimits T).2)
    ∨ (∃ v', (if (v <? (NumberUtils.getLimits T).1)
                 || ((NumberUtils.getLimits T).2 <? v)
              then Throw (ParseExceptions.outOfRange T v)
              else Ok (VInt v)) = Throw (ParseExceptions.outOfRange T v')
             ∧ (v' < (NumberUtils.getLimits T).1
                ∨ (NumberUtils.getLimits T).2 < v'))).
  { intros v.
    destruct (v <? (NumberUtils.getLimits T).1) eqn:E1.
    { right. exists v. split; [reflexivity|]. apply Z.ltb_lt in E1. lia. }
    destruct ((NumberUtils.getLimits T).2 <? v) eqn:E2.
    { right. exists v. split; [reflexivity|]. apply Z.ltb_lt in E2. lia. }
    left. exists v. split; [reflexivity|].
    apply Z.ltb_ge in E1, E2. lia. }
  destruct (IsSignedInteger T).
  - unfold StdString.stoll.
    destruct (StdString.read_number str) as [[neg magnitude]|].
    + destruct (_ || _).
      * do 3 right. exists "stoll"%string. reflexivity.
      * destruct (Hcheck (if neg then - magnitude else magnitude)) as [Hv|Hv];
          [left|right; left]; exact Hv.
    + do 2 right. left. exists "stoll"%string. split; reflexivity.
  - unfold StdString.stoull.
    destruct (StdString.read_number str) as [[neg magnitude]|].
    + destruct (_ <? _).
      * do 3 right. exists "stoull"%string. reflexivity.
      * destruct (Hcheck (if neg then (- magnitude) mod 2 ^ 64 else magnitude))
          as [Hv|Hv]; [left|right; left]; exact Hv.
    + do 2 right. left. exists "stoull"%string. split; reflexivity.
Qed.




Lemma skip_space_pad (pad s : string) :
  all_chars CType.isspace pad = true →
  StdString.skip_space (pad +:+ s) = StdString.skip_space s.
Proof.
  induction pad as [|c pad IH]; intros Hpad; [reflexivity|].
  cbn [all_chars] in Hpad. apply andb_prop in Hpad as [Hc Hpad].
  rewrite append_cons. cbn [StdString.skip_space]. rewrite Hc. apply IH, Hpad.
Qed.

Lemma read_digits_trailing (s rest : string) (acc : Z) (seen : bool) :
  no_digit_front rest = true →
  StdString.read_digits (s +:+ rest) acc seen = StdString.read_digits s acc seen.
Proof.
  intros Hrest. revert acc seen. induction s as [|c s IH]; intros acc seen.
  - change ("" +:+ rest)%string with rest.
    destruct rest as [|c r]; [reflexivity|].
    cbn [no_digit_front] in Hrest. cbn [StdString.read_digits].
    destruct (CType.isdigit c); [discriminate|reflexivity].
  - rewrite append_cons. cbn [StdString.read_digits].
    destruct (CType.isdigit c); [apply IH|reflexivity].
Qed.

Lemma read_sign_cases (s : string) :
  (∃ r, s = String "-" r ∧ StdString.read_sign s = (true, r))
  ∨ (∃ r, s = String "+" r ∧ StdString.read_sign s = (false, r))
  ∨ (StdString.read_sign s = (false, s)
     ∧ ∀ rest, StdString.read_sign (s +:+ rest) = (false, s +:+ rest)
               ∨ s = ""%string).
Proof.
  destruct s as [|c r]; [right; right; split; [reflexivity|right; reflexivity]|].
  destruct (decide (c = "-"%char)) as [->|Hm]; [left; exists r; split; reflexivity|].
  destruct (decide (c = "+"%char)) as [->|Hp];
    [right; left; exists r; split; reflexivity|].
  right; right.
  assert (Hany : ∀ t, StdString.read_sign (String c t) = (false, String c t)).
  { intros t. destruct c as [[] [] [] [] [] [] [] []];
      try reflexivity; exfalso; (apply Hm; reflexivity) || (apply Hp; reflexivity). }
  split; [apply Hany|]. intros rest. left. rewrite append_cons. apply Hany.
Qed.

Lemma read_number_trailing (str rest : string) (p : bool * Z) :
  no_digit_front rest = true →
  StdString.read_number str = Some p →
  StdString.read_number (str +:+ rest) = Some p.
Proof.
  intros Hrest. induction str as [|c str IH]; [discriminate|].
  unfold StdString.read_number in *. rewrite append_cons.
  cbn [StdString.skip_space].
  destruct (CType.isspace c); [exact IH|]. clear IH.
  destruct (read_sign_cases (String c str))
    as [(r & Heq & Hs)|[(r & Heq & Hs)|[Hs Hany]]].
  - injection Heq as -> ->. rewrite Hs.
    change (StdString.read_sign (String "-" (r +:+ rest)))
      with (true, (r +:+ rest)%string).
    cbv beta iota. rewrite read_digits_trailing by exact Hrest. trivial.
  - injection Heq as -> ->. rewrite Hs.
    change (StdString.read_sign (String "+" (r +:+ rest)))
      with (false, (r +:+ rest)%string).
    cbv beta iota. rewrite read_digits_trailing by exact Hrest. trivial.
  - rewrite Hs. destruct (Hany rest) as [Hr|Hr]; [|discriminate].
    rewrite append_cons in Hr. rewrite Hr.
    cbv beta iota. rewrite <- append_cons.
    rewrite read_digits_trailing by exact Hrest. trivial.
Qed.

Lemma fromStr_int_read_number (T : IntTy) (a b : string) :
  StdString.read_number a = StdString.read_number b →
  Conversions.fromStr (TInt T) a = Conversions.fromStr (TInt T) b.
Proof.
  intros Heq. rewrite !fromStr_int_unfold.
  unfold StdString.stoll, StdString.stoull. rewrite Heq. reflexivity.
Qed.

Lemma fromStr_int_Ok_read (T : IntTy) (str : string) (v : val) :
  Conversions.fromStr (TInt T) str = Ok v →
  ∃ p, StdString.read_number str = Some p.
Proof.
  rewrite fromStr_int_unfold. unfold StdString.stoll, StdString.stoull.
  destruct (StdString.read_number str) as [p|]; [exists p; reflexivity|].
  destruct (IsSignedInteger T); discriminate.
Qed.

(** X14. The integer converters skip leading white space and stop at the
    first character that is no digit: when a string converts, so does the
    same string behind any white space and before any text that does not
    begin with a digit, and to the same value. *)
Theorem fromStr_int_ignores_padding_and_rest (T : IntTy)
    (pad str rest : string) (v : val) :
  all_chars CType.isspace pad = true →
  no_digit_front rest = true →
  Conversions.fromStr (TInt T) str = Ok v →
  Conversions.fromStr (TInt T) (pad +:+ str +:+ rest) = Ok v.
Proof.
  intros Hpad Hrest Hok. rewrite <- Hok.
  destruct (fromStr_int_Ok_read _ _ _ Hok) as [p Hp].
  apply fromStr_int_read_number. rewrite Hp.
  rewrite <- (read_number_trailing str rest p Hrest Hp).
  unfold StdString.read_number. rewrite skip_space_pad by exact Hpad.
  reflexivity.
Qed.

(** X15. The unsigned converters accept a minus sign: the literal of
    [-m] is read as [2^64 - m], which [uint64_t] always takes and a
    narrower type rejects or takes according to its upper limit alone. *)
Theorem fromStr_unsigned_wraps_negative (T : IntTy) (m : Z) :
  IsSignedInteger T = false →
  1 <= m <= 2 ^ 64 - 1 →
  Conversions.fromStr (TInt T) (NumberUtils.toString (- m))
  = if (NumberUtils.getLimits T).2 <? 2 ^ 64 - m
    then Throw (ParseExceptions.outOfRange T (2 ^ 64 - m))
    else Ok (VInt (2 ^ 64 - m)).
Proof.
  intros HT Hm. rewrite fromStr_int_unfold, HT.
  unfold StdString.stoull. rewrite read_number_toString.
  rewrite bool_decide_eq_true_2 by lia.
  replace (Z.abs (- m)) with m by lia.
  destruct (2 ^ 64 - 1 <? m) eqn:E; [apply Z.ltb_lt in E; lia|].
  replace ((- m) mod 2 ^ 64) with (2 ^ 64 - m).
  2:{ apply (Z.mod_unique (- m) (2 ^ 64) (-1)); lia. }
  pose proof (getLimits_64 T) as H64. rewrite HT in H64. destruct H64 as [H0 _].
  destruct (2 ^ 64 - m <? (NumberUtils.getLimits T).1) eqn:E0;
    [apply Z.ltb_lt in E0; lia|].
  reflexivity.
Qed.

End converter_facts.

Section converter_examples.
#[local] Existing Instance Example.registry.
Local Open Scope Z_scope.

Lemma fromStr_reads_back_toString_witness :
  Conversions.fromStr (TInt Int8) (NumberUtils.toString (-128)) = Ok (VInt (-128)).
Proof.
  apply (fromStr_reads_back_toString Int8 (-128)). cbn. lia.
Defined.

Lemma fromStr_int_ignores_padding_and_rest_witness :
  Conversions.fromStr (TInt Int32) (" " +:+ "-42" +:+ "abc") = Ok (VInt (-42)).
Proof.
  apply (fromStr_int_ignores_padding_and_rest Int32 " " "-42" "abc");
    reflexivity.
Defined.

Lemma fromStr_unsigned_wraps_negative_witness :
  Conversions.fromStr (TInt UInt64) (NumberUtils.toString (- 1))
  = if (NumberUtils.getLimits UInt64).2 <? 2 ^ 64 - 1
    then Throw (ParseExceptions.outOfRange UInt64 (2 ^ 64 - 1))
    else Ok (VInt (2 ^ 64 - 1)).
Proof.
  apply (fromStr_unsigned_wraps_negative UInt64 1); [reflexivity|lia].
Defined.

End converter_examples.

(** * Single-name and empty option specs *)

Section single_name_facts.
Variable options : NameValidationConfig.

Lemma find_none (s : string) :
  all_chars not_comma s = true → StringView.find s "," = None.
Proof.
  induction s as [|c s IH]; [reflexivity|].
  cbn [all_chars StringView.find]. intros [Hc Hs]%andb_prop.
  unfold not_comma in Hc. apply negb_true_iff in Hc. rewrite Hc, (IH Hs).
  reflexivity.
Qed.

Lemma trim_no_space (s : string) :
  all_chars not_space s = true → s ≠ ""%string → StringUtils.trim s = s.
Proof.
  intros Hs Hne.
  pose proof (trim_padded "" s "" eq_refl eq_refl
                (isspace_at_not_space s 0 Hs)
                (isspace_at_not_space s _ Hs) Hne) as Ht.
  change ("" +:+ s +:+ "")%string with (s +:+ "")%string in Ht.
  rewrite append_empty_r in Ht. exact Ht.
Qed.

Lemma starts_with_dashes (a b : ascii) (r : string) :
  StringView.starts_with (String a (String b r)) "--"
  = Ascii.eqb a "-" && Ascii.eqb b "-".
Proof.
  unfold StringView.starts_with. cbn [String.prefix].
  destruct (ascii_dec "-" a) as [<-|Ha].
  - destruct (ascii_dec "-" b) as [<-|Hb].
    + destruct r; reflexivity.
    + symmetry. apply andb_false_intro2, Ascii.eqb_neq. congruence.
  - symmetry. apply andb_false_intro1, Ascii.eqb_neq. congruence.
Qed.

Lemma substr_from_cons2 (a b : ascii) (s : string) :
  StringView.substr_from (String a (String b s)) 2 = s.
Proof.
  unfold StringView.substr_from, StringView.size.
  cbn [String.length String.substring Nat.sub].
  rewrite Nat.sub_0_r. apply substring_full.
Qed.

Lemma Option_validateName_single (d : string) :
  policy_name options d →
  Option.validateName options ("--" +:+ d)
  = (_ ← NameValidations.validateSize options d false; Ok (""%string, d))
  ∧ Option.validateName options ("-" +:+ d)
    = (_ ← NameValidations.validateSize options d true; Ok (d, ""%string))
  ∧ Option.validateName options d
    = if String.length d <=? 3
      then _ ← NameValidations.validateSize options d true; Ok (d, ""%string)
      else _ ← NameValidations.validateSize options d false; Ok (""%string, d).
Proof.
  intros Hd.
  pose proof (validateName_ok options d Hd) as Hname.
  destruct Hd as [Hfirst Hchars].
  assert (Hns : all_chars not_space d = true)
    by (eapply all_chars_impl; [apply policy_char_not_space|exact Hchars]).
  assert (Hnc : all_chars not_comma d = true)
    by (eapply all_chars_impl; [apply policy_char_not_comma|exact Hchars]).
  destruct d as [|c r]; [discriminate|].
  cbn [alpha_first] in Hfirst.
  assert (Hdash : Ascii.eqb c "-" = false)
    by (apply (alpha_first_not_dash (String c r)); exact Hfirst).
  assert (Htrim : StringUtils.trim (String c r) = String c r)
    by (apply trim_no_space; [exact Hns|discriminate]).
  assert (Hns1 : all_chars not_space (String "-" (String c r)) = true)
    by (change (not_space "-" && all_chars not_space (String c r) = true);
        rewrite Hns; reflexivity).
  assert (Hns2 : all_chars not_space (String "-" (String "-" (String c r))) = true)
    by (change (not_space "-" && all_chars not_space (String "-" (String c r)) = true);
        rewrite Hns1; reflexivity).
  assert (Hnc1 : all_chars not_comma (String "-" (String c r)) = true)
    by (change (not_comma "-" && all_chars not_comma (String c r) = true);
        rewrite Hnc; reflexivity).
  assert (Hnc2 : all_chars not_comma (String "-" (String "-" (String c r))) = true)
    by (change (not_comma "-" && all_chars not_comma (String "-" (String c r)) = true);
        rewrite Hnc1; reflexivity).
  split; [|split].
  - change ("--" +:+ String c r)%string with (String "-" (String "-" (String c r))).
    unfold Option.validateName. cbn [StringView.empty].
    rewrite (trim_no_space _ Hns2) by discriminate.
    cbn [StringView.empty].
    rewrite (find_none _ Hnc2).
    rewrite starts_with_dashes.
    change (Ascii.eqb "-" "-") with true.
    cbn [andb StringView.size String.length Nat.leb].
    rewrite substr_from_cons2, Htrim, Hname.
    destruct (NameValidations.validateSize options (String c r) false) as [e|[]];
      reflexivity.
  - change ("-" +:+ String c r)%string with (String "-" (String c r)).
    unfold Option.validateName. cbn [StringView.empty].
    rewrite (trim_no_space _ Hns1) by discriminate.
    cbn [StringView.empty].
    rewrite (find_none _ Hnc1).
    rewrite starts_with_dashes, Hdash.
    change (Ascii.eqb "-" "-") with true.
    cbn [andb StringView.front_is StringView.size String.length Nat.leb].
    change (Ascii.eqb "-" "-") with true. cbn [andb]. cbv beta iota zeta.
    rewrite substr_from_cons, Htrim, Hname.
    destruct (NameValidations.validateSize options (String c r) true) as [e|[]];
      reflexivity.
  - unfold Option.validateName. cbn [StringView.empty].
    rewrite Htrim. cbn [StringView.empty].
    rewrite (find_none _ Hnc).
    assert (Hsw : StringView.starts_with (String c r) "--" = false).
    { destruct r as [|b r']; [|rewrite starts_with_dashes, Hdash; reflexivity].
      unfold StringView.starts_with. cbn [String.prefix].
      destruct (ascii_dec "-" c); reflexivity. }
    rewrite Hsw. cbn [StringView.front_is]. rewrite Hdash.
    cbn [andb]. rewrite Htrim, Hname. unfold StringView.size.
    destruct (String.length (String c r) <=? 3).
    + destruct (NameValidations.validateSize options (String c r) true) as [e|[]];
        reflexivity.
    + destruct (NameValidations.validateSize options (String c r) false) as [e|[]];
        reflexivity.
Qed.

Lemma validateSize_exact (name : string) (isShort : bool) :
  1 ≤ String.length name →
  NameValidations.validateSize options name isShort
  = if isShort
    then if decide (String.length name ≤ shortNameLimit options) then Ok tt
         else Throw (BuildExceptions.invalidSize name 0
                       (shortNameLimit options) true)
    else if decide (shortNameLimit options < String.length name
                                             ≤ longNameLimit options)
         then Ok tt
         else Throw (BuildExceptions.invalidSize name (shortNameLimit options)
                       (longNameLimit options) false).
Proof.
  intros Hlen. unfold NameValidations.validateSize, StringView.size.
  destruct (String.length name =? 0) eqn:E0; [apply Nat.eqb_eq in E0; lia|].
  rewrite !orb_false_r.
  destruct isShort; cbn [andb negb].
  - destruct (shortNameLimit options <? String.length name) eqn:E.
    + apply Nat.ltb_lt in E. rewrite decide_False by lia. reflexivity.
    + apply Nat.ltb_ge in E. rewrite decide_True by lia. reflexivity.
  - destruct (String.length name <=? shortNameLimit options) eqn:E1.
    + apply Nat.leb_le in E1. rewrite decide_False by lia. reflexivity.
    + apply Nat.leb_gt in E1. cbn [orb].
      destruct (longNameLimit options <? String.length name) eqn:E2.
      * apply Nat.ltb_lt in E2. rewrite decide_False by lia. reflexivity.
      * apply Nat.ltb_ge in E2. rewrite decide_True by lia. reflexivity.
Qed.

(** X16. A spec with a single policy-valid name: behind two dashes it
    is a long name and behind one dash a short name, each subject to its
    size limits alone; without dashes it is read as a short name when it has
    at most three characters, whatever the policy's short limit is, and as a
    long name otherwise. *)
Theorem createOption_single_name (V : Ty) (d : string) (var : nat) :
  policy_name options d →
  Option.createOption options V ("--" +:+ d) var
  = (if decide (shortNameLimit options < String.length d ≤ longNameLimit options)
     then Ok {| Option.needsValue_ := if decide (V = TBool) then false else true;
                Option.shortName_ := ""; Option.longName_ := "--" +:+ d;
                Option.valueTy := V; Option.value_ := var |}
     else Throw (BuildExceptions.invalidSize d (shortNameLimit options)
                   (longNameLimit options) false))
  ∧ Option.createOption options V ("-" +:+ d) var
    = (if decide (String.length d ≤ shortNameLimit options)
       then Ok {| Option.needsValue_ := if decide (V = TBool) then false else true;
                  Option.shortName_ := "-" +:+ d; Option.longName_ := "";
                  Option.valueTy := V; Option.value_ := var |}
       else Throw (BuildExceptions.invalidSize d 0 (shortNameLimit options) true))
  ∧ Option.createOption options V d var
    = (if String.length d <=? 3
       then Option.createOption options V ("-" +:+ d) var
       else Option.createOption options V ("--" +:+ d) var).
Proof.
  intros Hd. pose proof (policy_name_nonempty options d Hd) as Hlen.
  destruct (Option_validateName_single d Hd) as (Hlong & Hshort & Hbare).
  unfold Option.createOption. rewrite Hlong, Hshort, Hbare.
  rewrite !validateSize_exact by exact Hlen.
  destruct d as [|c r]; [cbn in Hlen; lia|].
  split; [|split].
  - destruct (decide (_ < _ ≤ _)); reflexivity.
  - destruct (decide (_ ≤ _)); reflexivity.
  - destruct (String.length (String c r) <=? 3); reflexivity.
Qed.



End single_name_facts.

Lemma createOption_single_name_witness :
  Option.createOption defualtConfig TString ("--" +:+ "name") 0
  = (if decide (shortNameLimit defualtConfig < String.length "name"
                ≤ longNameLimit defualtConfig)
     then Ok {| Option.needsValue_ := if decide (TString = TBool) then false else true;
                Option.shortName_ := ""; Option.longName_ := "--" +:+ "name";
                Option.valueTy := TString; Option.value_ := 0 |}
     else Throw (BuildExceptions.invalidSize "name" (shortNameLimit defualtConfig)
                   (longNameLimit defualtConfig) false))
  ∧ Option.createOption defualtConfig TString ("-" +:+ "name") 0
    = (if decide (String.length "name" ≤ shortNameLimit defualtConfig)
       then Ok {| Option.needsValue_ := if decide (TString = TBool) then false else true;
                  Option.shortName_ := "-" +:+ "name"; Option.longName_ := "";
                  Option.valueTy := TString; Option.value_ := 0 |}
       else Throw (BuildExceptions.invalidSize "name" 0
                     (shortNameLimit defualtConfig) true))
  ∧ Option.createOption defualtConfig TString "name" 0
    = (if String.length "name" <=? 3
       then Option.createOption defualtConfig TString ("-" +:+ "name") 0
       else Option.createOption defualtConfig TString ("--" +:+ "name") 0).
Proof.
  apply (createOption_single_name defualtConfig TString "name" 0).
  split; reflexivity.
Defined.


(** * The calls as a whole *)

Section call_outcomes.
Context `{Registry}.

(** *** Where the loop returns *)

Lemma parse_from_Ok (app : Application.t) (om cm : gmap string nat)
    (args : list string) (parsed : gset nat) (st st' : store) :
  Application.parse_from app om cm args parsed st = (Ok tt, st') →
  (∃ parsed', Walk (Application.options_ app) om cm
                (args, parsed, st) ([], parsed', st'))
  ∨ (∃ arg rest parsed1 st1 cmdIdx,
        Walk (Application.options_ app) om cm
          (args, parsed, st) (arg :: rest, parsed1, st1)
        ∧ cm !! arg = Some cmdIdx
        ∧ Application.processCommand app cmdIdx rest st1 = (Ok tt, st')).
Proof.
  remember (length args) as n eqn:Hn.
  revert args parsed st Hn.
  induction n as [n IH] using lt_wf_ind. intros args parsed st Hn.
  destruct args as [|arg rest].
  { intros [= <-]. left. exists parsed. apply rtc_refl. }
  rewrite parse_from_cons.
  destruct (cm !! arg) as [cmdIdx|] eqn:Hcm.
  { intros Hp. right. exists arg, rest, parsed, st, cmdIdx.
    split; [apply rtc_refl|]. split; [exact Hcm|exact Hp]. }
  destruct (om !! arg) as [idx|] eqn:Hom; [|discriminate].
  destruct (decide (idx ∈ parsed)) as [|Hnot]; [discriminate|].
  destruct (Application.options_ app !! idx) as [opt|] eqn:Hopt; [|discriminate].
  assert (Hgo : ∀ c',
            Step (Application.options_ app) om cm (arg :: rest, parsed, st) c' →
            length c'.1.1 < n →
            Application.parse_from app om cm c'.1.1 c'.1.2 c'.2 = (Ok tt, st') →
            (∃ parsed', Walk (Application.options_ app) om cm
                          (arg :: rest, parsed, st) ([], parsed', st'))
            ∨ (∃ arg0 rest0 parsed1 st1 cmdIdx,
                  Walk (Application.options_ app) om cm
                    (arg :: rest, parsed, st) (arg0 :: rest0, parsed1, st1)
                  ∧ cm !! arg0 = Some cmdIdx
                  ∧ Application.processCommand app cmdIdx rest0 st1
                    = (Ok tt, st'))).
  { intros [[args1 parsed1] st1] Hstep Hlen Hp. cbn [fst snd] in Hlen, Hp.
    destruct (IH _ Hlen args1 parsed1 st1 eq_refl Hp)
      as [[parsed' Hw]|(a & r & p1 & s1 & k & Hw & Hk & Hpc)].
    - left. exists parsed'. eapply rtc_l; [exact Hstep|exact Hw].
    - right. exists a, r, p1, s1, k.
      split; [eapply rtc_l; [exact Hstep|exact Hw]|]. split; assumption. }
  destruct (Option.needsValue opt) eqn:Hneeds.
  - destruct rest as [|value rest']; [discriminate|].
    destruct (Conversions.fromStr (Option.valueTy opt) value) as [e|valV] eqn:Hconv;
      [discriminate|].
    intros Hp.
    apply (Hgo (rest', {[idx]} ∪ parsed, <[Option.target opt := valV]> st)).
    + eapply Step_value; eassumption.
    + cbn [fst snd]. simpl in Hn. lia.
    + exact Hp.
  - destruct (Conversions.fromStr (Option.valueTy opt) "true") as [e|valV] eqn:Hconv;
      [discriminate|].
    intros Hp.
    apply (Hgo (rest, {[idx]} ∪ parsed, <[Option.target opt := valV]> st)).
    + eapply Step_flag; eassumption.
    + cbn [fst snd]. simpl in Hn. lia.
    + exact Hp.
Qed.

(** X18. [parseCommand] returns exactly when its walk consumes every
    argument, and the store it leaves is the one the walk ends in. *)
Theorem parseCommand_returns_iff_walk_completes (cmd : Command.t)
    (args : list string) (st st' : store) :
  Command.parseCommand cmd args st = (Ok tt, st')
  ↔ ∃ parsed, CmdWalk cmd (args, ∅, st) ([], parsed, st').
Proof.
  split.
  - rewrite parseCommand_unfold, parseCommand_from_parse_from. intros Hp.
    destruct (parse_from_Ok _ _ _ _ _ _ _ Hp)
      as [[parsed' Hw]|(a & r & p1 & s1 & k & _ & Hk & _)].
    + exists parsed'. exact Hw.
    + rewrite lookup_empty in Hk. discriminate.
  - intros [parsed Hw]. rewrite (parseCommand_reaches _ _ _ _ _ _ Hw).
    reflexivity.
Qed.

(** X19. [parse] returns exactly when the global walk consumes every
    token, or reads the name of a command whose [parseCommand] returns on
    the tokens after it; in the second case the command's flag is raised
    in the store the command leaves. *)
Theorem parse_returns_iff (app : Application.t) (argv0 : string)
    (args : list string) (st st' : store) :
  Application.parse app (argv0 :: args) st = (Ok tt, st')
  ↔ (∃ parsed, AppWalk app (args, ∅, st) ([], parsed, st'))
    ∨ (∃ cmdIdx cmdArgs st1 cmd executed st2,
          dispatched app (args, ∅, st) cmdIdx cmdArgs st1
          ∧ Application.commands_ app !! cmdIdx = Some (cmd, executed)
          ∧ Command.parseCommand cmd cmdArgs st1 = (Ok tt, st2)
          ∧ st' = <[(TBool, executed) := VBool true]> st2).
Proof.
  split.
  - rewrite parse_unfold. intros Hp.
    destruct (parse_from_Ok _ _ _ _ _ _ _ Hp)
      as [[parsed' Hw]|(a & r & p1 & s1 & k & Hw & Hk & Hpc)].
    + left. exists parsed'. exact Hw.
    + right. rewrite processCommand_unfold in Hpc.
      destruct (Application.commands_ app !! k) as [[cmd executed]|] eqn:Hcmd;
        [|discriminate].
      destruct (Command.parseCommand cmd r s1) as [[e|[]] st2] eqn:Hc;
        [discriminate|].
      injection Hpc as <-.
      exists k, r, s1, cmd, executed, st2.
      split; [exists a, p1; split; assumption|].
      repeat split; assumption.
  - intros [[parsed Hw]|(k & r & s1 & cmd & executed & st2 & Hd & Hcmd & Hc & ->)].
    + rewrite (parse_reaches _ _ _ _ _ _ _ Hw). reflexivity.
    + rewrite (dispatched_parse _ _ _ _ _ _ _ _ _ Hd Hcmd), Hc. reflexivity.
Qed.

(** X20. A token the walk of [parse] reads that is neither a command
    name nor an option name ends the call with [UnknownArgumentError] for
    that token; what the walk stored before stays stored. *)
Theorem unknown_token_rejected (app : Application.t) (argv0 : string)
    (args : list string) (st : store) (arg : string) (rest : list string)
    (parsed : gset nat) (st1 : store) :
  AppWalk app (args, ∅, st) (arg :: rest, parsed, st1) →
  commandMap app !! arg = None →
  optionMap app !! arg = None →
  Application.parse app (argv0 :: args) st
  = (Throw (ParseExceptions.unknownArg arg), st1).
Proof.
  intros Hw Hcm Hom. rewrite (parse_reaches _ _ _ _ _ _ _ Hw).
  rewrite parse_from_cons, Hcm, Hom. reflexivity.
Qed.

(** X21. [parseCommand] is [parse] on an application that has the
    command's options and no command: the two loops agree token by token,
    exceptions and stores included. *)
Theorem parseCommand_is_parse_without_commands (cmd : Command.t)
    (argv0 : string) (args : list string) (st : store) :
  Command.parseCommand cmd args st
  = Application.parse
      {| Application.options_ := Command.options_ cmd;
         Application.commands_ := [] |}
      (argv0 :: args) st.
Proof.
  rewrite parseCommand_unfold, parseCommand_from_parse_from. reflexivity.
Qed.

(** X22. Registration, walk and conversion compose: the name of an
    integer option followed by the decimal rendering of a value within the
    limits of the option's type makes [parse] return with exactly that
    value stored at the option's target, and nothing else changed. *)
Theorem parse_stores_integer_argument (app : Application.t) (argv0 name : string)
    (idx : nat) (opt : Option.t) (T : IntTy) (z : Z) (st : store) :
  commandMap app !! name = None →
  optionMap app !! name = Some idx →
  Application.options_ app !! idx = Some opt →
  Option.needsValue opt = true →
  Option.valueTy opt = TInt T →
  ((NumberUtils.getLimits T).1 ≤ z ≤ (NumberUtils.getLimits T).2)%Z →
  Application.parse app [argv0; name; NumberUtils.toString z] st
  = (Ok tt, <[(TInt T, Option.value_ opt) := VInt z]> st).
Proof.
  intros Hcm Hom Hopt Hneeds HT Hz.
  rewrite parse_unfold, parse_from_cons, Hcm, Hom.
  destruct (decide (idx ∈ (∅ : gset nat))) as [Hin|_];
    [apply not_elem_of_empty in Hin; destruct Hin|].
  rewrite Hopt, Hneeds, HT, (fromStr_int_round_trip T z Hz).
  unfold Option.target. rewrite HT. reflexivity.
Qed.

(** *** Typing of the store *)

Lemma fromStr_has_ty (V : Ty) (str : string) (v : val) :
  Conversions.fromStr V str = Ok v → has_ty V v.
Proof.
  destruct V as [T| | | | |id].
  - rewrite fromStr_int_unfold.
    destruct (if IsSignedInteger T then StdString.stoll str
              else StdString.stoull str) as [e|value]; [discriminate|].
    destruct (value <? (NumberUtils.getLimits T).1)%Z eqn:E1; [discriminate|].
    destruct ((NumberUtils.getLimits T).2 <? value)%Z eqn:E2; [discriminate|].
    intros [= <-]. cbn [has_ty]. apply Z.ltb_ge in E1, E2. lia.
  - intros [= <-]. exact I.
  - cbn [Conversions.fromStr]. destruct (stof str); [discriminate|].
    intros [= <-]. exact I.
  - cbn [Conversions.fromStr]. destruct (stod str); [discriminate|].
    intros [= <-]. exact I.
  - intros [= <-]. exact I.
  - cbn [Conversions.fromStr]. destruct (userFromStr id str); [discriminate|].
    intros [= <-]. reflexivity.
Qed.

Lemma store_typed_insert (st : store) (V : Ty) (n : nat) (v : val) :
  store_typed st → has_ty V v → store_typed (<[(V, n) := v]> st).
Proof.
  intros Hst Hv V' n' v' Hl.
  destruct (decide ((V, n) = (V', n'))) as [[= <- <-]|Hne].
  - rewrite lookup_insert_eq in Hl. injection Hl as <-. exact Hv.
  - rewrite lookup_insert_ne in Hl by exact Hne. apply (Hst _ _ _ Hl).
Qed.

Lemma Step_typed (opts : list Option.t) (om cm : gmap string nat)
    (c c' : config) :
  Step opts om cm c c' → store_typed c.2 → store_typed c'.2.
Proof.
  intros Hstep Hst.
  inversion Hstep as
    [arg value rest parsed st idx opt valV _ _ _ _ _ Hconv
    |arg rest parsed st idx opt valV _ _ _ _ _ Hconv]; subst;
    cbn [snd] in *; apply store_typed_insert;
    [exact Hst|exact (fromStr_has_ty _ _ _ Hconv)
    |exact Hst|exact (fromStr_has_ty _ _ _ Hconv)].
Qed.

Lemma Walk_typed (opts : list Option.t) (om cm : gmap string nat)
    (c c' : config) :
  Walk opts om cm c c' → store_typed c.2 → store_typed c'.2.
Proof.
  induction 1 as [c|c y c' Hstep _ IH]; [trivial|].
  intros Hst. apply IH, (Step_typed _ _ _ _ _ Hstep Hst).
Qed.

Lemma parseCommand_typed (cmd : Command.t) (args : list string) (st : store) :
  store_typed st → store_typed (Command.parseCommand cmd args st).2.
Proof.
  intros Hst.
  destruct (parseCommand_cases cmd args st) as (a1 & p1 & s1 & r & Hw & Hr & _).
  rewrite Hr. apply (Walk_typed _ _ _ _ _ Hw Hst).
Qed.

Lemma parse_typed (app : Application.t) (argv : list string) (st : store) :
  store_typed st → store_typed (Application.parse app argv st).2.
Proof.
  intros Hst. destruct argv as [|argv0 args]; [exact Hst|].
  destruct (parse_cases app argv0 args st)
    as [(k & r & s1 & (a & p1 & Hw & _) & Hp)|(a1 & p1 & s1 & r & Hw & Hr & _)].
  - rewrite Hp, processCommand_unfold.
    pose proof (Walk_typed _ _ _ _ _ Hw Hst) as Hs1. cbn [snd] in Hs1.
    destruct (Application.commands_ app !! k) as [[cmd executed]|]; [|exact Hs1].
    pose proof (parseCommand_typed cmd r s1 Hs1) as Hs2.
    destruct (Command.parseCommand cmd r s1) as [[e|[]] st2]; cbn [snd] in *;
      [exact Hs2|].
    apply store_typed_insert; [exact Hs2|exact I].
  - rewrite Hr. apply (Walk_typed _ _ _ _ _ Hw Hst).
Qed.

(** X23. [parse] and [parseCommand] keep the store well typed, whether
    they return or throw: what they leave at a location is a value of the
    location's type, and an integer they leave is within the limits of its
    type, so that the cast at the end of the converter changes no value. *)
Theorem parse_keeps_store_typed (app : Application.t) (cmd : Command.t)
    (argv args : list string) (st : store) :
  store_typed st →
  store_typed (Application.parse app argv st).2
  ∧ store_typed (Command.parseCommand cmd args st).2.
Proof.
  intros Hst. split; [apply parse_typed|apply parseCommand_typed]; exact Hst.
Qed.

End call_outcomes.

Section call_examples.
#[local] Existing Instance Example.registry.

Lemma unknown_token_rejected_witness :
  Application.parse Example.app ["app"; "-v"; "--bogus"] Example.st0
  = (Throw (ParseExceptions.unknownArg "--bogus"),
     <[(TBool, 0) := VBool true]> Example.st0).
Proof.
  apply (unknown_token_rejected Example.app "app" ["-v"; "--bogus"] Example.st0
           "--bogus" [] {[1]}).
  - eapply rtc_l; [|apply rtc_refl].
    replace ({[1]} : gset nat) with ({[1]} ∪ ∅ : gset nat) by set_solver.
    apply (Step_flag _ _ _ "-v" ["--bogus"] ∅ Example.st0 1 Example.verbose
             (VBool true)); try reflexivity.
    apply not_elem_of_empty.
  - reflexivity.
  - reflexivity.
Defined.

Lemma parse_stores_integer_argument_witness :
  Application.parse Example.app ["app"; "-n"; NumberUtils.toString (-7)] Example.st0
  = (Ok tt, <[(TInt Int32, Option.value_ Example.number) := VInt (-7)]> Example.st0).
Proof.
  apply (parse_stores_integer_argument Example.app "app" "-n" 0 Example.number
           Int32 (-7) Example.st0); try reflexivity.
  cbn. lia.
Defined.

Lemma parse_keeps_store_typed_witness :
  store_typed (Application.parse Example.app ["app"; "-n"; "5"] Example.st0).2
  ∧ store_typed (Command.parseCommand Example.build ["-p"; "80"] Example.st0).2.
Proof.
  apply (parse_keeps_store_typed Example.app Example.build
           ["app"; "-n"; "5"] ["-p"; "80"] Example.st0).
  intros V n v Hl. unfold Example.st0 in Hl.
  destruct (decide ((TBool, 1) = (V, n))) as [[= <- <-]|Hne].
  - rewrite lookup_singleton_eq in Hl. injection Hl as <-. exact I.
  - rewrite lookup_singleton_ne in Hl by exact Hne. discriminate.
Defined.

End call_examples.

(** * The duplicate report *)

Section duplicate_report.

Lemma by_key_trans : Transitive (λ p q : string * nat, String.le p.1 q.1).
Proof. intros p q r Hpq Hqr. etrans; eassumption. Qed.

Lemma by_key_total : Total (λ p q : string * nat, String.le p.1 q.1).
Proof. intros p q. apply (total String.le). Qed.

Lemma entries_sorted (m : gmap string nat) :
  StronglySorted (λ p q, String.le p.1 q.1) (entries m).
Proof.
  apply (@StronglySorted_merge_sort _ _ _ by_key_trans by_key_total).
Qed.

Lemma entries_Permutation (m : gmap string nat) : entries m ≡ₚ map_to_list m.
Proof. apply merge_sort_Permutation. Qed.

Lemma StronglySorted_filter_list {A : Type} (R : relation A) (P : A → Prop)
    `{∀ x, Decision (P x)} (l : list A) :
  StronglySorted R l → StronglySorted R (filter P l).
Proof.
  induction 1 as [|x l _ IH Hx]; [constructor|].
  rewrite filter_cons. destruct (decide (P x)); [|exact IH].
  constructor; [exact IH|].
  apply Forall_forall. intros y Hy. apply list_elem_of_filter in Hy as [_ Hy].
  rewrite Forall_forall in Hx. apply Hx, Hy.
Qed.

Lemma report_fold (k : nat) (l : list (string * nat)) (acc : string) :
  foldl (λ argNames entry,
           if decide (entry.2 = k)
           then (argNames +:+ entry.1) +:+ ", "
           else argNames) acc l
  = acc +:+ foldr (λ name r, name +:+ ", " +:+ r) ""
              (filter (λ e, e.2 = k) l).*1.
Proof.
  revert acc. induction l as [|e l IH]; intros acc.
  - cbn. symmetry. apply append_empty_r.
  - cbn [foldl]. rewrite IH, filter_cons.
    destruct (decide (e.2 = k)); [|reflexivity].
    cbn [fmap list_fmap foldr]. rewrite !append_assoc. reflexivity.
Qed.

(** X24. The alias list of a duplicate report holds exactly the names
    mapped to the option's index, in increasing byte order, each followed
    by a comma and a space, the last one included. *)
Theorem duplicate_report_lists_names_in_order (m : gmap string nat) (k : nat)
    (names : list string) :
  NoDup names →
  StronglySorted String.le names →
  (∀ name, m !! name = Some k ↔ name ∈ names) →
  buildDuplicateArgNames m k
  = foldr (λ name r, name +:+ ", " +:+ r) "" names.
Proof.
  intros Hnd Hsorted Hnames. unfold buildDuplicateArgNames.
  rewrite report_fold. change ("" +:+ ?x)%string with x.
  f_equal.
  assert (Heq : filter (λ e : string * nat, e.2 = k) (entries m)
                = (λ name, (name, k)) <$> names).
  { apply (StronglySorted_unique_strong (λ p q : string * nat, String.le p.1 q.1)).
    - intros [n1 k1] [n2 k2] H1 H2 H12 H21. cbn [fst] in H12, H21.
      apply list_elem_of_filter in H1 as [Hk1 _]. cbn [snd] in Hk1.
      apply list_elem_of_fmap in H2 as (n & [= -> ->] & _).
      f_equal; [|exact Hk1].
      apply (anti_symm String.le); assumption.
    - apply StronglySorted_filter_list, entries_sorted.
    - clear Hnd Hnames. induction Hsorted as [|n names _ IH Hn]; [constructor|].
      cbn [fmap list_fmap]. constructor; [exact IH|].
      apply Forall_fmap. exact Hn.
    - rewrite entries_Permutation. apply NoDup_Permutation.
      + apply NoDup_filter, NoDup_map_to_list.
      + apply NoDup_fmap_2; [intros a b [= ->]; reflexivity|exact Hnd].
      + intros [n v]. rewrite list_elem_of_filter, elem_of_map_to_list,
          list_elem_of_fmap. cbn [snd]. split.
        * intros [-> Hm]. exists n. split; [reflexivity|]. apply Hnames, Hm.
        * intros (n' & [= -> ->] & Hin). split; [reflexivity|]. apply Hnames, Hin. }
  rewrite Heq, <- list_fmap_compose. apply list_fmap_id.
Qed.

Lemma duplicate_report_lists_names_in_order_witness :
  buildDuplicateArgNames (optionMap Example.app) 0
  = foldr (λ name r, name +:+ ", " +:+ r) "" ["--number"; "-n"].
Proof.
  apply (duplicate_report_lists_names_in_order (optionMap Example.app) 0
           ["--number"; "-n"]).
  - apply NoDup_cons. split; [|apply NoDup_singleton].
    intros Hin. apply list_elem_of_singleton in Hin. discriminate.
  - constructor; [constructor; constructor|].
    constructor; [exact I|constructor].
  - intros name. split.
    + intros Hk. destruct (optionMap_sound _ _ _ Hk) as (opt & Hopt & _ & Hn).
      injection Hopt as <-. destruct Hn as [->| ->]; set_solver.
    + intros Hin. apply elem_of_cons in Hin as [->|Hin]; [reflexivity|].
      apply elem_of_cons in Hin as [->|Hin]; [reflexivity|].
      apply elem_of_nil in Hin. destruct Hin.
Defined.

End duplicate_report.

(** * Options of a command *)

Section command_option_facts.

(** X25. [Command::addOption] appends the option that [createOption]
    built to the command's own options and keeps the command's name; in
    the map [parseCommand] builds, the names of the new option are mapped to
    its index from then on, also when an earlier option of the command bore
    them, and every other name keeps its index. *)
Theorem Command_addOption_appends_and_shadows (options : NameValidationConfig)
    (V : Ty) (spec : string) (var : nat) (cmd cmd' : Command.t) :
  Command.addOption options V spec var cmd = Ok cmd' →
  ∃ opt,
    Option.createOption options V spec var = Ok opt
    ∧ Command.options_ cmd' = Command.options_ cmd ++ [opt]
    ∧ Command.name cmd' = Command.name cmd
    ∧ ∀ name,
        nameMap cmd' !! name
        = if decide (names_of opt name)
          then Some (length (Command.options_ cmd))
          else nameMap cmd !! name.
Proof.
  unfold Command.addOption. intros Hadd.
  destruct (Option.createOption options V spec var) as [e|opt]; [discriminate|].
  cbn [mbind result_bind] in Hadd. injection Hadd as <-.
  exists opt. do 3 (split; [reflexivity|]).
  intros name. unfold nameMap. cbn [Command.options_].
  rewrite registerNames_app. cbn [registerNames].
  apply registerNames_step.
Qed.

Lemma Command_addOption_appends_and_shadows_witness :
  ∃ opt,
    Option.createOption defualtConfig (TInt UInt16) "-p,--port" 0 = Ok opt
    ∧ Command.options_ Example.build
      = Command.options_ {| Command.options_ := []; Command.name_ := "build" |}
        ++ [opt]
    ∧ Command.name Example.build
      = Command.name {| Command.options_ := []; Command.name_ := "build" |}
    ∧ ∀ name,
        nameMap Example.build !! name
        = if decide (names_of opt name)
          then Some (length (Command.options_
                               {| Command.options_ := [];
                                  Command.name_ := "build" |}))
          else nameMap {| Command.options_ := []; Command.name_ := "build" |}
               !! name.
Proof.
  apply (Command_addOption_appends_and_shadows defualtConfig (TInt UInt16)
           "-p,--port" 0
           {| Command.options_ := []; Command.name_ := "build" |}).
  reflexivity.
Defined.

End command_option_facts.
